(** * Verification of the team-balancing solver [solveOptimalWithFixed]

    A shallow embedding of the solver module (the file that exports
    [solveOptimalWithFixed]) and the proofs of its specification.

    Modelling conventions.
    - JavaScript numbers are modelled as mathematical integers [Z]: every
      quantity handled by the solver (minutes, weights, loads) is an integer
      and is assumed to stay in the range where IEEE doubles are exact.
      [Math.round (m / q)] is the integer [floor (m/q + 1/2)], written
      [(2*m + q) / (2*q)]; [Math.ceil (a / k)] is [- ((- a) / k)].
    - [quant | 0] is the ECMAScript ToInt32 coercion, written out with its
      wrap-around modulo 2^32.
    - Arrays are lists; [a[i]] is the total lookup [a !!! i], [a[i] = x] is
      [<[i:=x]> a]; every index used by the solver is in range (proved below).
    - [Array.prototype.sort] is a stable sort; it is modelled by a stable
      insertion sort parameterised by the comparator.  The module [Engine]
      takes the sort as a parameter instead, and the determinism theorem
      shows that every sort meeting the language's contract gives the plan
      of the insertion sort.
    - The two [Set] objects ([seen], [triedLoads]) are finite sets [gset].
      The string key [idx + "|" + sorted.join(",")] is modelled by the pair
      [(idx, sorted)], of which it is an injective printing.
    - The closure variables mutated by [dfs] ([loads], [assign],
      [bestMakespanW], [bestAssign], [seen]) form an explicit state record
      threaded through the recursion. *)

From stdpp Require Import gmap list strings sorting pretty.
From Stdlib Require Import ZArith Lia Ascii.

Local Open Scope Z_scope.

(** ** Data model *)

(** An input job [{ name, minutes, fixedTeam }]. *)
Record job := Job {
  job_name : string;
  job_minutes : Z;
  fixedTeam : Z
}.

(** An output job [{ name, minutes }]. *)
Record outJob := OutJob {
  out_name : string;
  out_minutes : Z
}.

(** A free work item [{ name, minutes, w }]. *)
Record item := Item {
  item_name : string;
  item_minutes : Z;
  w : Z
}.

(** An output team [{ jobs, totalMinutes }]. *)
Record team := Team {
  jobs : list outJob;
  totalMinutes : Z
}.

#[global] Instance job_eq_dec : EqDecision job.
Proof. solve_decision. Defined.
#[global] Instance outJob_eq_dec : EqDecision outJob.
Proof. solve_decision. Defined.
#[global] Instance item_eq_dec : EqDecision item.
Proof. solve_decision. Defined.
#[global] Instance team_eq_dec : EqDecision team.
Proof. solve_decision. Defined.

(** ** Numeric primitives *)

(** ECMAScript ToInt32 on an integer. *)
Definition toInt32 (z : Z) : Z :=
  let r := z mod 2 ^ 32 in
  if r <? 2 ^ 31 then r else r - 2 ^ 32.

(** [Math.max(1, quant | 0)]. *)
Definition quantum (quant : Z) : Z :=
  Z.max 1 (Z.lor (toInt32 quant) 0).

(** [Math.round(m / q)]: round half up. *)
Definition round_div (m q : Z) : Z := (2 * m + q) / (2 * q).

(** [Math.ceil(a / k)]. *)
Definition ceil_div (a k : Z) : Z := - ((- a) / k).

(** [Math.max(...l)] for a non-empty array (the solver only calls it on
    arrays of length [teamCount]; on the empty array JavaScript returns
    [-Infinity], which has no counterpart here). *)
Definition max_of (l : list Z) : Z :=
  match l with
  | [] => 0
  | x :: l' => foldr Z.max x l'
  end.

(** [l.reduce((sum, x) => sum + f x, 0)]. *)
Definition sum_by {A} (f : A → Z) (l : list A) : Z :=
  foldl (λ sum x, sum + f x) 0 l.

(** ** Stable sort with a comparator

    [cmp a b > 0] means that [a] is ordered after [b]. *)
Section sort.
Context {A : Type} (cmp : A → A → Z).

Fixpoint sort_insert (x : A) (l : list A) : list A :=
  match l with
  | [] => [x]
  | y :: l' => if cmp x y <=? 0 then x :: y :: l' else y :: sort_insert x l'
  end.

Fixpoint js_sort (l : list A) : list A :=
  match l with
  | [] => []
  | x :: l' => sort_insert x (js_sort l')
  end.
End sort.

(** ** Partitioner (source lines 4-16) *)

Record parts := Parts {
  fixedLoads : list Z;
  fixedAssign : list (list outJob);
  free : list job
}.

(** [job.fixedTeam && job.fixedTeam >= 1 && job.fixedTeam <= teamCount] *)
Definition isFixed (teamCount : nat) (j : job) : bool :=
  negb (fixedTeam j =? 0) && (1 <=? fixedTeam j) && (fixedTeam j <=? Z.of_nat teamCount).

Definition toOut (j : job) : outJob := OutJob (job_name j) (job_minutes j).

Definition partition_step (teamCount : nat) (p : parts) (j : job) : parts :=
  if isFixed teamCount j then
    let idx := Z.to_nat (fixedTeam j - 1) in
    Parts (alter (λ x, x + job_minutes j) idx (fixedLoads p))
          (alter (λ l, l ++ [toOut j]) idx (fixedAssign p))
          (free p)
  else
    Parts (fixedLoads p) (fixedAssign p) (free p ++ [j]).

Definition partition_jobs (teamCount : nat) (jobsMinutes : list job) : parts :=
  foldl (partition_step teamCount)
        (Parts (replicate teamCount 0) (replicate teamCount []) [])
        jobsMinutes.

(** ** Quantizer (source lines 18-29) *)

(** The loop [for i: if (fixedLoads[i] > 0 && baseW[i] === 0) baseW[i] = 1]. *)
Definition force_step (fl : list Z) (bw : list Z) (i : nat) : list Z :=
  if (0 <? fl !!! i) && (bw !!! i =? 0) then <[i := 1]> bw else bw.

Definition baseW_of (q : Z) (teamCount : nat) (fl : list Z) : list Z :=
  foldl (force_step fl) (map (λ m, round_div m q) fl) (seq 0 teamCount).

Definition mkItem (q : Z) (j : job) : item :=
  Item (job_name j) (job_minutes j) (Z.max 1 (round_div (job_minutes j) q)).

(** [(a, b) => b.w - a.w] *)
Definition by_weight_desc (a b : item) : Z := w b - w a.

Definition freeItems_of (q : Z) (fr : list job) : list item :=
  js_sort by_weight_desc (map (mkItem q) fr).

(** ** Greedy baseline (source lines 33-45) *)

(** The inner loop selecting [best]. *)
Definition least_loaded (teamCount : nat) (loads0 : list Z) : nat :=
  foldl (λ best i, if loads0 !!! i <? loads0 !!! best then i else best)
        0%nat (seq 1 (teamCount - 1)).

Definition greedy_step (teamCount : nat)
    (s : list Z * list (list item)) (it : item) : list Z * list (list item) :=
  let best := least_loaded teamCount s.1 in
  (alter (λ x, x + w it) best s.1, alter (λ l, l ++ [it]) best s.2).

Definition greedy (teamCount : nat) (baseW : list Z) (freeItems : list item)
    : list Z * list (list item) :=
  foldl (greedy_step teamCount) (baseW, replicate teamCount []) freeItems.

(** ** Branch-and-bound search (source lines 47-99) *)

Record search := Search {
  loads : list Z;
  assign : list (list item);
  bestMakespanW : Z;
  bestAssign : list (list item);
  seen : gset (nat * list Z)
}.

(** [loads.slice().sort((a, b) => a - b)] paired with [idx]. *)
Definition key (idx : nat) (lds : list Z) : nat * list Z :=
  (idx, js_sort (λ a b, a - b) lds).

(** [Array.from({length: teamCount}, (_, i) => i).sort((a, b) => loads[a] - loads[b])] *)
Definition order_of (teamCount : nat) (lds : list Z) : list nat :=
  js_sort (λ a b, lds !!! a - lds !!! b) (seq 0 teamCount).

(** [arr.pop()] *)
Definition pop {A} (l : list A) : list A := take (length l - 1) l.

(** The [for (const i of order)] loop of [dfs]; [rec] is the recursive call
    [dfs(idx + 1)]. *)
Fixpoint branch_loop (rec : search → search) (it : item)
    (order : list nat) (triedLoads : gset Z) (st : search) : search :=
  match order with
  | [] => st
  | i :: order' =>
    let previousLoad := loads st !!! i in
    if decide (previousLoad ∈ triedLoads) then
      branch_loop rec it order' triedLoads st
    else
      let triedLoads' := triedLoads ∪ {[previousLoad]} in
      let newLoad := previousLoad + w it in
      if bestMakespanW st <=? newLoad then
        branch_loop rec it order' triedLoads' st
      else
        let st1 := Search (<[i := newLoad]> (loads st))
                          (alter (λ l, l ++ [it]) i (assign st))
                          (bestMakespanW st) (bestAssign st) (seen st) in
        let st2 := rec st1 in
        let st3 := Search (<[i := previousLoad]> (loads st2))
                          (alter pop i (assign st2))
                          (bestMakespanW st2) (bestAssign st2) (seen st2) in
        branch_loop rec it order' triedLoads' st3
  end.

(** [dfs(idx)], by recursion on the items not yet placed
    ([rest = freeItems.slice(idx)]). *)
Fixpoint dfs (teamCount : nat) (avgLB baseMax : Z)
    (rest : list item) (idx : nat) (st : search) : search :=
  match rest with
  | [] =>
    let mk := max_of (loads st) in
    if mk <? bestMakespanW st then
      Search (loads st) (assign st) mk (assign st) (seen st)
    else st
  | it :: rest' =>
    let currentMax := max_of (loads st) in
    let lb := Z.max (Z.max avgLB baseMax) currentMax in
    if bestMakespanW st <=? lb then st
    else
      let k := key idx (loads st) in
      if decide (k ∈ seen st) then st
      else
        let st' := Search (loads st) (assign st) (bestMakespanW st)
                          (bestAssign st) (seen st ∪ {[k]}) in
        branch_loop (dfs teamCount avgLB baseMax rest' (S idx)) it
                    (order_of teamCount (loads st')) ∅ st'
  end.

(** The state in which [dfs(0)] is called. *)
Definition search_init (teamCount : nat) (baseW : list Z) (freeItems : list item)
    : search :=
  let g := greedy teamCount baseW freeItems in
  Search baseW (replicate teamCount []) (max_of g.1) g.2 ∅.

Definition run_search (teamCount : nat) (baseW : list Z) (freeItems : list item)
    : search :=
  let sumBase := sum_by id baseW in
  let sumFree := sum_by w freeItems in
  let avgLB := ceil_div (sumBase + sumFree) (Z.of_nat teamCount) in
  let baseMax := max_of baseW in
  dfs teamCount avgLB baseMax freeItems 0 (search_init teamCount baseW freeItems).

(** ** Solution assembler (source lines 101-112) *)

Definition itemOut (it : item) : outJob := OutJob (item_name it) (item_minutes it).

(** [(a, b) => b.minutes - a.minutes] *)
Definition by_minutes_desc (a b : outJob) : Z := out_minutes b - out_minutes a.

Definition push_item (t : team) (it : item) : team :=
  Team (jobs t ++ [itemOut it]) (totalMinutes t + item_minutes it).

Definition assemble_team (fa : list outJob) (fl : Z) (ba : list item) : team :=
  let t := foldl push_item (Team fa fl) ba in
  Team (js_sort by_minutes_desc (jobs t)) (totalMinutes t).

Definition assemble (teamCount : nat) (p : parts) (best : list (list item))
    : list team :=
  map (λ i, assemble_team (fixedAssign p !!! i) (fixedLoads p !!! i) (best !!! i))
      (seq 0 teamCount).

(** ** The solver *)

Definition solve_search (jobsMinutes : list job) (teamCount : nat) (quant : Z)
    : search :=
  let q := quantum quant in
  let p := partition_jobs teamCount jobsMinutes in
  run_search teamCount (baseW_of q teamCount (fixedLoads p)) (freeItems_of q (free p)).

Definition solveOptimalWithFixed (jobsMinutes : list job) (teamCount : nat)
    (quant : Z) : list team :=
  let p := partition_jobs teamCount jobsMinutes in
  assemble teamCount p (bestAssign (solve_search jobsMinutes teamCount quant)).

(** ** Specification-side notions *)

(** An assignment of [items] to [teamCount] teams: one list of items per
    team, every item in exactly one of them. *)
Definition is_assignment (teamCount : nat) (items : list item)
    (A : list (list item)) : Prop :=
  length A = teamCount ∧ concat A ≡ₚ items.

(** Load of every team under an assignment: quantized fixed weight plus the
    weights of the items given to the team. *)
Definition team_loads (baseW : list Z) (A : list (list item)) : list Z :=
  zip_with (λ b l, b + sum_by w l) baseW A.

Definition makespan (baseW : list Z) (A : list (list item)) : Z :=
  max_of (team_loads baseW A).

(** [reach items L F]: placing [items] one after the other, each on some
    team, turns the load vector [L] into [F]. *)
Inductive reach : list item → list Z → list Z → Prop :=
  | reach_nil L : reach [] L L
  | reach_cons it rest L1 x L2 F :
      reach rest (L1 ++ (x + w it) :: L2) F →
      reach (it :: rest) (L1 ++ x :: L2) F.

(** No completion of [L] with [items] beats [best]. *)
Definition complete (items : list item) (best : Z) (L : list Z) : Prop :=
  ∀ F, reach items L F → best ≤ max_of F.

(** ** Invariants of the search *)

(** What a call [dfs(d)] may change: [loads] and [assign] are restored, the
    best solution is either kept as it is or replaced by a strictly better
    one, and [seen] only grows, by keys of depth [d] or more. *)
Definition frame (d : nat) (s s' : search) : Prop :=
  loads s' = loads s ∧ assign s' = assign s ∧
  (bestMakespanW s' < bestMakespanW s ∨
   (bestMakespanW s' = bestMakespanW s ∧ bestAssign s' = bestAssign s)) ∧
  seen s ⊆ seen s' ∧
  (∀ k, k ∈ seen s' → k ∈ seen s ∨ (d ≤ k.1)%nat).

(** Every recorded state of depth [d] or more has been explored: none of its
    completions beats [best]. *)
Definition seen_ok (items : list item) (best : Z) (d : nat)
    (sn : gset (nat * list Z)) : Prop :=
  ∀ j L, (j, L) ∈ sn → (d ≤ j)%nat →
    ∀ M, M ≡ₚ L → complete (drop j items) best M.

(** Every team's list keeps the order in which the items come in [items]. *)
Definition in_order (items : list item) (A : list (list item)) : Prop :=
  Forall (λ l, l `sublist_of` items) A.

(** [loads] and [assign] describe the same partial assignment of the items
    [placed], each team's list in the order of placement. *)
Definition assign_ok (baseW : list Z) (placed : list item) (st : search) : Prop :=
  length (assign st) = length baseW ∧
  loads st = team_loads baseW (assign st) ∧
  concat (assign st) ≡ₚ placed ∧
  in_order placed (assign st).

(** The best solution is an assignment of all the items, each team's list
    in the order of the items, and [bestMakespanW] is its makespan. *)
Definition best_ok (baseW : list Z) (items : list item) (st : search) : Prop :=
  is_assignment (length baseW) items (bestAssign st) ∧
  makespan baseW (bestAssign st) = bestMakespanW st ∧
  in_order items (bestAssign st).

(** The two static lower bounds of [dfs] hold for every completion. *)
Definition bounds_ok (avgLB baseMax : Z) (rest : list item) (L : list Z) : Prop :=
  ∀ F, reach rest L F → Z.max avgLB baseMax ≤ max_of F.

(** Every load already tried at a node is settled: placing [it] on any team
    carrying that load leads to no completion that beats [best]. *)
Definition tried_ok (it : item) (rest : list item) (L0 : list Z) (best : Z)
    (tried : gset Z) : Prop :=
  ∀ x L1 L2, x ∈ tried → L0 = L1 ++ x :: L2 →
    complete rest best (L1 ++ (x + w it) :: L2).

(** Job [j] is pinned to the team of index [i] (team number [i + 1]). *)
Definition fixedAt (teamCount : nat) (i : nat) (j : job) : Prop :=
  isFixed teamCount j = true ∧ Z.to_nat (fixedTeam j - 1) = i.

(** Job [j] is not pinned to any of the teams. *)
Definition isFree (teamCount : nat) (j : job) : Prop :=
  isFixed teamCount j = false.

#[global] Instance fixedAt_dec teamCount i j : Decision (fixedAt teamCount i j).
Proof. unfold fixedAt. apply _. Defined.

#[global] Instance isFree_dec teamCount j : Decision (isFree teamCount j).
Proof. unfold isFree. apply _. Defined.

(** The quantized fixed weight of a team with [m] fixed minutes, as the
    specification words it: the rounding of [m / q], forced to 1 when the
    team has nonzero fixed minutes and the rounding produced 0. *)
Definition spec_fixed_weight (q m : Z) : Z :=
  if decide (m ≠ 0 ∧ round_div m q = 0) then 1 else round_div m q.

(** The quantized weight of a free item, as the specification words it. *)
Definition spec_weight (q minutes : Z) : Z := Z.max 1 (round_div minutes q).

(** Team [b] is the one the greedy baseline picks, as the specification
    words it: its load is the smallest, and it is the lowest-indexed team
    with that load. *)
Definition is_least_loaded (teamCount : nat) (L : list Z) (b : nat) : Prop :=
  (b < teamCount)%nat ∧
  (∀ i, (i < teamCount)%nat → L !!! b ≤ L !!! i) ∧
  (∀ i, (i < b)%nat → L !!! b < L !!! i).

(** The Longest-Processing-Time run of the specification: each item, in
    order, goes to the least loaded team. *)
Inductive lpt (teamCount : nat) :
    list item → list Z * list (list item) → list Z * list (list item) → Prop :=
  | lpt_done s : lpt teamCount [] s s
  | lpt_place it rest L A b r :
      is_least_loaded teamCount L b →
      lpt teamCount rest (<[b := L !!! b + w it]> L, <[b := A !!! b ++ [it]]> A) r →
      lpt teamCount (it :: rest) (L, A) r.

(** Within one team's list, jobs of equal duration appear in the order of
    the solver's input job list. *)
Definition ties_in_input_order (jobsMinutes : list job) (t : team) : Prop :=
  ∀ v, filter (λ o, out_minutes o = v) (jobs t) `sublist_of` map toOut jobsMinutes.

(** Every free item carries the weight obtained from the quantum [quant]
    given to the solver. *)
Definition weights_follow_quantum (jobsMinutes : list job) (teamCount : nat)
    (quant : Z) : Prop :=
  ∀ it, it ∈ freeItems_of (quantum quant)
                (free (partition_jobs teamCount jobsMinutes)) →
        w it = spec_weight quant (item_minutes it).

(** ** Notions used by the further properties *)

(** A job whose [fixedTeam] names no team, rewritten as explicitly free. *)
Definition unpin (teamCount : nat) (j : job) : job :=
  if isFixed teamCount j then j else Job (job_name j) (job_minutes j) 0.


(** ** Duration strings (time.js)

    A JavaScript string is modelled by a [string] read as its sequence of
    code units, for strings whose code units are all below 256.  [String(n)]
    on an integer is its decimal printing [pretty n].  The branch of
    [parseTimeToMinutes] that goes through [parseFloat] and a floating-point
    product is not modelled: the outcome [DecimalHours] stands for it. *)

(** The white space and line terminator code units below 256, which [trim]
    and [parseInt] skip. *)
Definition is_ws (c : ascii) : bool :=
  match N_of_ascii c with
  | 9 | 10 | 11 | 12 | 13 | 32 | 160 => true
  | _ => false
  end%N.

Fixpoint trim_start (s : string) : string :=
  match s with
  | EmptyString => EmptyString
  | String c s' => if is_ws c then trim_start s' else s
  end.

Fixpoint trim_end (s : string) : string :=
  match s with
  | EmptyString => EmptyString
  | String c s' =>
    match trim_end s' with
    | EmptyString => if is_ws c then EmptyString else String c EmptyString
    | r => String c r
    end
  end.

(** [s.trim()] *)
Definition js_trim (s : string) : string := trim_end (trim_start s).

(** [s.includes(c)] for a one-character [c]. *)
Fixpoint includes (sep : ascii) (s : string) : bool :=
  match s with
  | EmptyString => false
  | String c s' => Ascii.eqb c sep || includes sep s'
  end.

(** [s.split(c)] for a one-character [c]. *)
Fixpoint split_on (sep : ascii) (s : string) : list string :=
  match s with
  | EmptyString => [EmptyString]
  | String c s' =>
    if Ascii.eqb c sep then EmptyString :: split_on sep s'
    else match split_on sep s' with
         | h :: t => String c h :: t
         | [] => [String c EmptyString]
         end
  end.

(** The value of a decimal digit. *)
Definition digit_val (c : ascii) : option Z :=
  let n := Z.of_N (N_of_ascii c) in
  if (48 <=? n) && (n <=? 57) then Some (n - 48) else None.

(** The longest prefix of decimal digits, as their values. *)
Fixpoint digit_prefix (s : string) : list Z :=
  match s with
  | EmptyString => []
  | String c s' =>
    match digit_val c with
    | Some d => d :: digit_prefix s'
    | None => []
    end
  end.

Definition digits_value (ds : list Z) : Z := foldl (λ acc d, 10 * acc + d) 0 ds.

(** [parseInt(s, 10)]; [None] is [NaN]. *)
Definition parseInt10 (s : string) : option Z :=
  let s := trim_start s in
  let '(sign, body) :=
    match s with
    | String "-" s' => (-1, s')
    | String "+" s' => (1, s')
    | _ => (1, s)
    end in
  match digit_prefix body with
  | [] => None
  | ds => Some (sign * digits_value ds)
  end.

Inductive parsed :=
  | Minutes (m : Z)
  | Failure (msg : string)
  | DecimalHours (value : string).

Definition parseTimeToMinutes (input : string) : parsed :=
  let value := js_trim input in
  match value with
  | EmptyString => Failure "Duration is empty"
  | _ =>
    if includes ":" value then
      match split_on ":" value with
      | [p0; p1] =>
        match parseInt10 (js_trim p0), parseInt10 (js_trim p1) with
        | Some hh, Some mm =>
          if (mm <? 0) || (59 <? mm)
          then Failure ("Minutes must be between 0 and 59: " +:+ value)
          else Minutes (hh * 60 + mm)
        | _, _ => Failure ("Invalid time: " +:+ value)
        end
      | _ => Failure ("Invalid time: " +:+ value)
      end
    else DecimalHours value
  end.

(** [s.padStart(2, "0")] *)
Definition padStart2 (s : string) : string :=
  match String.length s with
  | 0%nat => "00" +:+ s
  | 1%nat => "0" +:+ s
  | _ => s
  end.

Definition hhmm (totalMinutes : Z) : string :=
  let hours := totalMinutes / 60 in
  let mins := Z.rem totalMinutes 60 in
  pretty hours +:+ ":" +:+ padStart2 (pretty mins).


(** The string of the decimal digits [ds]. *)
Fixpoint digits_string (ds : list N) : string :=
  match ds with
  | [] => EmptyString
  | d :: ds' => String (pretty_N_char d) (digits_string ds')
  end.


(** The text consists of white space only (or is empty). *)
Fixpoint blank (s : string) : bool :=
  match s with
  | EmptyString => true
  | String c s' => is_ws c && blank s'
  end.


(** ** Plan snapshots and job preparation (the caller of the solver)

    The values the caller handles are modelled at the types they have when
    the caller builds them: integers for numbers, strings for names. *)

(** [parseInt(x, 10) || d] on an integer [x]: [d] replaces a zero. *)
Definition int_or (d x : Z) : Z := if x =? 0 then d else x.

(** [Math.min(...l)] for a non-empty array. *)
Definition min_of (l : list Z) : Z :=
  match l with
  | [] => 0
  | x :: l' => foldr Z.min x l'
  end.

Record snapTeam := SnapTeam {
  teamIndex : Z;
  snap_totalMinutes : Z;
  snap_jobs : list outJob
}.

Record planSnapshot := PlanSnapshot {
  snap_teamCount : Z;
  snap_jobCount : Z;
  minMinutes : Z;
  maxMinutes : Z;
  gapMinutes : Z;
  snap_teams : list snapTeam
}.

(** The job cleaning of [sanitizePlanSnapshot]. *)
Definition cleanJob (j : outJob) : outJob :=
  OutJob (js_trim (out_name j)) (Z.max 0 (int_or 0 (out_minutes j))).

(** [job.name && job.minutes > 0] *)
Definition keepJob (j : outJob) : Prop := out_name j ≠ "" ∧ 0 < out_minutes j.

#[global] Instance keepJob_dec j : Decision (keepJob j).
Proof. unfold keepJob. apply _. Defined.

Definition sanitizeTeam (idx : nat) (t : snapTeam) : snapTeam :=
  SnapTeam (Z.of_nat idx + 1)
           (Z.max 0 (int_or 0 (snap_totalMinutes t)))
           (filter keepJob (map cleanJob (snap_jobs t))).

(** [sanitizePlanSnapshot(raw)]; [None] is [null]. *)
Definition sanitizePlanSnapshot (raw : planSnapshot) : option planSnapshot :=
  let teamCount := Z.max 1 (int_or 1 (snap_teamCount raw)) in
  let jobCount := Z.max 0 (int_or 0 (snap_jobCount raw)) in
  let minM := Z.max 0 (int_or 0 (minMinutes raw)) in
  let maxM := Z.max 0 (int_or 0 (maxMinutes raw)) in
  let gapM := Z.max 0 (int_or 0 (gapMinutes raw)) in
  let teams := take (Z.to_nat teamCount) (imap sanitizeTeam (snap_teams raw)) in
  match teams with
  | [] => None
  | _ => Some (PlanSnapshot teamCount jobCount minM maxM gapM teams)
  end.

(** The team entry [buildPlanSnapshot] makes of a team of the solver. *)
Definition snapTeam_of (idx : nat) (t : team) : snapTeam :=
  SnapTeam (Z.of_nat idx + 1) (totalMinutes t)
           (map (λ j, OutJob (out_name j) (out_minutes j)) (jobs t)).

(** [buildPlanSnapshot(result, teamCount, jobCount)] *)
Definition buildPlanSnapshot (result : list team) (teamCount jobCount : Z)
    : option planSnapshot :=
  let totals := map (λ t, Z.max 0 (int_or 0 (totalMinutes t))) result in
  let minM := match totals with [] => 0 | _ => min_of totals end in
  let maxM := match totals with [] => 0 | _ => max_of totals end in
  sanitizePlanSnapshot
    (PlanSnapshot teamCount jobCount minM maxM (maxM - minM)
                  (imap snapTeam_of result)).

(** A job as the form holds it: a name, a duration text and a team number. *)
Record uiJob := UiJob {
  ui_name : string;
  ui_durRaw : string;
  ui_fixedTeam : Z
}.

(** Outcome of a step that may throw; [NotModelled] stands for a duration
    that takes the floating-point branch of [parseTimeToMinutes]. *)
Inductive prepared (A : Type) :=
  | Ready (a : A)
  | Rejected (msg : string)
  | NotModelled.
Arguments Ready {A} a.
Arguments Rejected {A} msg.
Arguments NotModelled {A}.

(** The callback of [jobs.map] in the plan handler. *)
Definition toJobMinutes (teamCount : nat) (idx : nat) (j : uiJob) : prepared job :=
  let name := js_trim (ui_name j) in
  match name with
  | EmptyString =>
    Rejected ("Job " +:+ pretty (Z.of_nat idx + 1) +:+ ": address is missing")
  | _ =>
    match parseTimeToMinutes (ui_durRaw j) with
    | Failure msg => Rejected msg
    | DecimalHours _ => NotModelled
    | Minutes minutes =>
      let fixedTeam :=
        Z.min (Z.max (int_or 0 (ui_fixedTeam j)) 0) (Z.of_nat teamCount) in
      Ready (Job name minutes fixedTeam)
    end
  end.

(** [jobs.map(callback)]: the first callback that throws aborts the map. *)
Fixpoint prepareJobs (teamCount : nat) (idx : nat) (l : list uiJob)
    : prepared (list job) :=
  match l with
  | [] => Ready []
  | j :: l' =>
    match toJobMinutes teamCount idx j with
    | Rejected msg => Rejected msg
    | NotModelled => NotModelled
    | Ready jm =>
      match prepareJobs teamCount (S idx) l' with
      | Ready r => Ready (jm :: r)
      | Rejected msg => Rejected msg
      | NotModelled => NotModelled
      end
    end
  end.


(** ** The solver over an arbitrary engine

    [Array.prototype.sort] is the one built-in the solver calls whose
    algorithm the language leaves to the engine.  [Engine] is the solver with
    that built-in as a parameter [sort]: the four definitions that call it
    (source lines 29, 57, 81 and 111) and those built on them, everything else
    being shared with the solver above, which is [Engine] at the insertion
    sort [js_sort]. *)

Definition sort_fn : Type := ∀ A : Type, (A → A → Z) → list A → list A.

(** What the language requires of [sort], for the comparators that order by
    an integer key: the result is a rearrangement of the array, no element is
    placed before one it compares greater than, and elements that compare
    equal keep their relative order. *)
Definition sort_contract (sort : sort_fn) : Prop :=
  ∀ (A : Type) (cmp : A → A → Z) (key : A → Z) (l : list A),
    (∀ a b, cmp a b = key a - key b) →
    sort A cmp l ≡ₚ l ∧
    StronglySorted (λ a b, cmp a b ≤ 0) (sort A cmp l) ∧
    ∀ x, filter (λ a, cmp a x = 0) (sort A cmp l) = filter (λ a, cmp a x = 0) l.

Module Engine.
Section engine.
Variable sort : sort_fn.

Definition freeItems_of (q : Z) (fr : list job) : list item :=
  sort _ by_weight_desc (map (mkItem q) fr).

Definition key (idx : nat) (lds : list Z) : nat * list Z :=
  (idx, sort _ (λ a b, a - b) lds).

Definition order_of (teamCount : nat) (lds : list Z) : list nat :=
  sort _ (λ a b, lds !!! a - lds !!! b) (seq 0 teamCount).

Fixpoint dfs (teamCount : nat) (avgLB baseMax : Z)
    (rest : list item) (idx : nat) (st : search) : search :=
  match rest with
  | [] =>
    let mk := max_of (loads st) in
    if mk <? bestMakespanW st then
      Search (loads st) (assign st) mk (assign st) (seen st)
    else st
  | it :: rest' =>
    let currentMax := max_of (loads st) in
    let lb := Z.max (Z.max avgLB baseMax) currentMax in
    if bestMakespanW st <=? lb then st
    else
      let k := key idx (loads st) in
      if decide (k ∈ seen st) then st
      else
        let st' := Search (loads st) (assign st) (bestMakespanW st)
                          (bestAssign st) (seen st ∪ {[k]}) in
        branch_loop (dfs teamCount avgLB baseMax rest' (S idx)) it
                    (order_of teamCount (loads st')) ∅ st'
  end.

Definition run_search (teamCount : nat) (baseW : list Z) (freeItems : list item)
    : search :=
  let sumBase := sum_by id baseW in
  let sumFree := sum_by w freeItems in
  let avgLB := ceil_div (sumBase + sumFree) (Z.of_nat teamCount) in
  let baseMax := max_of baseW in
  dfs teamCount avgLB baseMax freeItems 0 (search_init teamCount baseW freeItems).

Definition assemble_team (fa : list outJob) (fl : Z) (ba : list item) : team :=
  let t := foldl push_item (Team fa fl) ba in
  Team (sort _ by_minutes_desc (jobs t)) (totalMinutes t).

Definition assemble (teamCount : nat) (p : parts) (best : list (list item))
    : list team :=
  map (λ i, assemble_team (fixedAssign p !!! i) (fixedLoads p !!! i) (best !!! i))
      (seq 0 teamCount).

Definition solve_search (jobsMinutes : list job) (teamCount : nat) (quant : Z)
    : search :=
  let q := quantum quant in
  let p := partition_jobs teamCount jobsMinutes in
  run_search teamCount (baseW_of q teamCount (fixedLoads p)) (freeItems_of q (free p)).

Definition solveOptimalWithFixed (jobsMinutes : list job) (teamCount : nat)
    (quant : Z) : list team :=
  let p := partition_jobs teamCount jobsMinutes in
  assemble teamCount p (bestAssign (solve_search jobsMinutes teamCount quant)).

End engine.
End Engine.

(** Two more sorting algorithms, to run the solver on.  [sort_left] inserts
    from the left, each element after those it does not precede, and meets
    the contract; [sort_reversing] orders correctly but reverses ties. *)
Fixpoint insert_last {A} (cmp : A → A → Z) (x : A) (l : list A) : list A :=
  match l with
  | [] => [x]
  | y :: l' => if cmp y x <=? 0 then y :: insert_last cmp x l' else x :: y :: l'
  end.

Definition sort_left : sort_fn :=
  λ A cmp l, foldl (λ acc x, insert_last cmp x acc) [] l.

Definition sort_reversing : sort_fn := λ A cmp l, js_sort cmp (rev l).


(** * Proofs *)

(** ** Arithmetic and list primitives *)

Lemma foldr_max_ge x l :
  x ≤ foldr Z.max x l ∧ ∀ y, y ∈ l → y ≤ foldr Z.max x l.
Proof.
  induction l as [|z l [IH1 IH2]]; simpl.
  - split; [lia|]. intros y Hy. inversion Hy.
  - split; [lia|]. intros y Hy. apply elem_of_cons in Hy as [->|Hy].
    + lia.
    + specialize (IH2 y Hy). lia.
Qed.

Lemma foldr_max_in x l : foldr Z.max x l ∈ x :: l.
Proof.
  induction l as [|z l IH]; simpl.
  - left.
  - destruct (Z.max_spec z (foldr Z.max x l)) as [[_ ->]|[_ ->]].
    + apply elem_of_cons in IH as [->|IH]; [left|right; right; done].
    + right; left.
Qed.

Lemma max_of_ge l y : y ∈ l → y ≤ max_of l.
Proof.
  destruct l as [|x l]; [inversion 1|]. simpl.
  destruct (foldr_max_ge x l) as [H1 H2].
  intros [->|Hy]%elem_of_cons; [done|by apply H2].
Qed.

Lemma max_of_in l : l ≠ [] → max_of l ∈ l.
Proof. destruct l as [|x l]; [done|]. intros _. apply foldr_max_in. Qed.

Lemma max_of_unique l m : m ∈ l → (∀ y, y ∈ l → y ≤ m) → max_of l = m.
Proof.
  intros Hm Hub.
  assert (l ≠ []) as Hne by (intros ->; inversion Hm).
  pose proof (max_of_in l Hne) as Hin.
  pose proof (max_of_ge l m Hm). specialize (Hub _ Hin). lia.
Qed.

Lemma max_of_perm l l' : l ≡ₚ l' → max_of l = max_of l'.
Proof.
  intros Hp. destruct l' as [|x l'].
  - apply Permutation_nil_r in Hp. by subst.
  - symmetry. apply max_of_unique.
    + apply (proj1 (elem_of_Permutation_proper _ _ _ Hp)).
      apply max_of_in. intros ->. by apply Permutation_nil_l in Hp.
    + intros y Hy. apply (proj2 (elem_of_Permutation_proper _ _ _ Hp)) in Hy.
      by apply max_of_ge.
Qed.

Lemma sum_by_acc {A} (f : A → Z) l a :
  foldl (λ sum x, sum + f x) a l = a + sum_by f l.
Proof.
  unfold sum_by. revert a. induction l as [|x l IH]; intros a; simpl; [lia|].
  rewrite IH, (IH (0 + f x)). lia.
Qed.

Lemma sum_by_nil {A} (f : A → Z) : sum_by f [] = 0.
Proof. reflexivity. Qed.

Lemma sum_by_cons {A} (f : A → Z) x l : sum_by f (x :: l) = f x + sum_by f l.
Proof. unfold sum_by at 1. simpl. rewrite sum_by_acc. lia. Qed.

Lemma sum_by_app {A} (f : A → Z) l1 l2 :
  sum_by f (l1 ++ l2) = sum_by f l1 + sum_by f l2.
Proof.
  induction l1 as [|x l1 IH]; simpl; [by rewrite sum_by_nil|].
  rewrite !sum_by_cons, IH. lia.
Qed.

Lemma sum_by_perm {A} (f : A → Z) l1 l2 :
  l1 ≡ₚ l2 → sum_by f l1 = sum_by f l2.
Proof.
  induction 1; rewrite ?sum_by_cons; lia.
Qed.

Lemma sum_by_nonneg {A} (f : A → Z) l :
  Forall (λ x, 0 ≤ f x) l → 0 ≤ sum_by f l.
Proof.
  induction 1; rewrite ?sum_by_nil, ?sum_by_cons; lia.
Qed.

Lemma sum_by_map {A B} (f : B → Z) (g : A → B) l :
  sum_by f (map g l) = sum_by (f ∘ g) l.
Proof.
  induction l as [|x l IH]; simpl; [done|]. by rewrite !sum_by_cons, IH.
Qed.

Lemma sum_by_concat {A} (f : A → Z) (ls : list (list A)) :
  sum_by f (concat ls) = sum_by (sum_by f) ls.
Proof.
  induction ls as [|l ls IH]; simpl; [done|].
  by rewrite sum_by_app, sum_by_cons, IH.
Qed.

Lemma pop_snoc {A} (l : list A) x : pop (l ++ [x]) = l.
Proof.
  unfold pop. rewrite length_app. simpl.
  replace (length l + 1 - 1)%nat with (length l) by lia.
  by rewrite take_app_length.
Qed.

(** ** The stable sort *)

Section sort_facts.
Context {A : Type} (cmp : A → A → Z) (f : A → Z).
Hypothesis cmp_key : ∀ a b, cmp a b = f a - f b.

Lemma sort_insert_perm x l : sort_insert cmp x l ≡ₚ x :: l.
Proof.
  induction l as [|y l IH]; simpl; [done|].
  destruct (cmp x y <=? 0); [done|].
  rewrite IH. apply Permutation_swap.
Qed.

Lemma js_sort_perm l : js_sort cmp l ≡ₚ l.
Proof.
  induction l as [|x l IH]; simpl; [done|].
  by rewrite sort_insert_perm, IH.
Qed.

Lemma sort_insert_sorted x l :
  StronglySorted (λ a b, f a ≤ f b) l →
  StronglySorted (λ a b, f a ≤ f b) (sort_insert cmp x l).
Proof.
  induction 1 as [|y l Hs IH Hall]; simpl.
  - repeat constructor.
  - destruct (Z.leb_spec (cmp x y) 0) as [Hle|Hgt]; rewrite cmp_key in *.
    + constructor; [by constructor|].
      constructor; [lia|].
      eapply Forall_impl; [exact Hall|]. simpl. intros; lia.
    + constructor; [done|].
      rewrite sort_insert_perm. constructor; [lia|done].
Qed.

(** The result is ordered by [f], ascending. *)
Lemma js_sort_sorted l : StronglySorted (λ a b, f a ≤ f b) (js_sort cmp l).
Proof.
  induction l as [|x l IH]; simpl; [constructor|].
  by apply sort_insert_sorted.
Qed.

(** [g] names the tie classes: elements with the same [g] compare equal. *)
Context (g : A → Z).
Hypothesis tie_class : ∀ a b, g a = g b → f a = f b.

Lemma sort_insert_stable v x l :
  filter (λ a, g a = v) (sort_insert cmp x l) = filter (λ a, g a = v) (x :: l).
Proof.
  induction l as [|y l IH]; simpl; [done|].
  destruct (Z.leb_spec (cmp x y) 0) as [Hle|Hgt]; [done|].
  rewrite cmp_key in Hgt.
  assert (g x ≠ g y) as Hne.
  { intros Heq. apply tie_class in Heq. lia. }
  rewrite filter_cons, IH, !filter_cons.
  repeat case_decide; try done; congruence.
Qed.

(** Elements of one tie class keep their relative input order. *)
Lemma js_sort_stable v l :
  filter (λ a, g a = v) (js_sort cmp l) = filter (λ a, g a = v) l.
Proof.
  induction l as [|x l IH]; simpl; [done|].
  rewrite sort_insert_stable, !filter_cons, IH. done.
Qed.
End sort_facts.

(** ** Reachable load vectors *)

Lemma reach_length items L F : reach items L F → length F = length L.
Proof.
  induction 1 as [|it rest L1 x L2 F _ IH]; [done|].
  rewrite IH, !length_app. done.
Qed.

Lemma reach_nil_inv L F : reach [] L F → F = L.
Proof. by inversion 1. Qed.

Lemma reach_cons_inv it rest L F :
  reach (it :: rest) L F →
  ∃ L1 x L2, L = L1 ++ x :: L2 ∧ reach rest (L1 ++ (x + w it) :: L2) F.
Proof. inversion 1; subst. eauto. Qed.

(** Teams are interchangeable: permuting the loads permutes what can be
    reached. *)
Lemma reach_perm items L L' F :
  L ≡ₚ L' → reach items L F → ∃ F', reach items L' F' ∧ F ≡ₚ F'.
Proof.
  intros Hp Hr. revert L' Hp.
  induction Hr as [L|it rest L1 x L2 F _ IH]; intros L' Hp.
  - exists L'. split; [constructor|done].
  - assert (x ∈ L') as Hx.
    { apply (proj1 (elem_of_Permutation_proper _ _ _ Hp)).
      apply elem_of_app. right. left. }
    apply list_elem_of_split in Hx as (L1' & L2' & ->).
    assert (L1 ++ L2 ≡ₚ L1' ++ L2') as Hp'.
    { apply (Permutation_cons_inv (a := x)).
      by rewrite !Permutation_middle. }
    destruct (IH (L1' ++ (x + w it) :: L2')) as (F' & HF' & HFp).
    { by rewrite <- !Permutation_middle, Hp'. }
    exists F'. split; [by constructor|done].
Qed.

Lemma complete_perm items best L L' :
  L ≡ₚ L' → complete items best L → complete items best L'.
Proof.
  intros Hp Hc F HF.
  destruct (reach_perm items L' L F) as (F' & HF' & HFp); [done|done|].
  rewrite (max_of_perm _ _ HFp). by apply Hc.
Qed.

Lemma complete_mono items best best' L :
  best' ≤ best → complete items best L → complete items best' L.
Proof. intros Hle Hc F HF. specialize (Hc F HF). lia. Qed.

(** Loads never decrease along a placement of items of non-negative weight. *)
Lemma reach_ge items L F :
  Forall (λ it, 0 ≤ w it) items → reach items L F →
  ∀ y, y ∈ L → y ≤ max_of F.
Proof.
  intros Hw Hr. induction Hr as [L|it rest L1 x L2 F _ IH]; intros y Hy.
  - by apply max_of_ge.
  - apply Forall_cons in Hw as [Hit Hw]. specialize (IH Hw).
    apply elem_of_app in Hy as [Hy|Hy].
    + apply IH, elem_of_app. by left.
    + apply elem_of_cons in Hy as [->|Hy].
      * assert (x + w it ≤ max_of F); [|lia].
        apply IH, elem_of_app. right. left.
      * apply IH, elem_of_app. right. by right.
Qed.

Lemma reach_max_ge items L F :
  Forall (λ it, 0 ≤ w it) items → reach items L F → L ≠ [] →
  max_of L ≤ max_of F.
Proof. intros Hw Hr Hne. eapply reach_ge; [done..|]. by apply max_of_in. Qed.

Lemma reach_sum items L F :
  reach items L F → sum_by id F = sum_by id L + sum_by w items.
Proof.
  induction 1 as [L|it rest L1 x L2 F _ IH].
  - rewrite sum_by_nil. lia.
  - rewrite IH, !sum_by_app, !sum_by_cons. unfold id. lia.
Qed.

Lemma sum_le_max (F : list Z) : sum_by id F ≤ Z.of_nat (length F) * max_of F.
Proof.
  assert (∀ m, Forall (λ x, x ≤ m) F → sum_by id F ≤ Z.of_nat (length F) * m)
    as Hgen.
  { intros m. induction 1 as [|x F Hx _ IH].
    - rewrite sum_by_nil. simpl. lia.
    - rewrite sum_by_cons. unfold id at 1. simpl length. lia. }
  apply Hgen, Forall_forall. intros x Hx. by apply max_of_ge.
Qed.

Lemma ceil_div_le a k m : 0 < k → a ≤ k * m → ceil_div a k ≤ m.
Proof.
  intros Hk Ha. unfold ceil_div.
  assert (- m ≤ (- a) / k); [|lia].
  apply Z.div_le_lower_bound; lia.
Qed.

(** The average load is a lower bound of every reachable makespan. *)
Lemma reach_avg items L F :
  L ≠ [] → reach items L F →
  ceil_div (sum_by id L + sum_by w items) (Z.of_nat (length L)) ≤ max_of F.
Proof.
  intros Hne Hr. apply ceil_div_le.
  - destruct L; [done|]. simpl length. lia.
  - rewrite <- (reach_sum _ _ _ Hr), <- (reach_length _ _ _ Hr).
    apply sum_le_max.
Qed.

Lemma reach_insert it rest (L : list Z) i F :
  (i < length L)%nat →
  reach rest (<[i := L !!! i + w it]> L) F → reach (it :: rest) L F.
Proof.
  intros Hi Hr.
  destruct (lookup_lt_is_Some_2 L i Hi) as [x Hx].
  rewrite (list_lookup_total_correct _ _ _ Hx) in Hr.
  rewrite <- (take_drop_middle L i x Hx).
  constructor.
  rewrite <- (take_drop_middle L i x Hx) in Hr at 1.
  rewrite insert_app_r_alt in Hr; rewrite length_take in *; [|lia].
  replace (i - i `min` length L)%nat with 0%nat in Hr by lia.
  exact Hr.
Qed.

Lemma split_insert_perm (L L1 L2 : list Z) x y i :
  L = L1 ++ x :: L2 → L !! i = Some x →
  L1 ++ y :: L2 ≡ₚ <[i := y]> L.
Proof.
  intros HL Hi.
  pose proof (lookup_lt_Some _ _ _ Hi) as Hlt.
  rewrite insert_take_drop by done.
  rewrite <- !Permutation_middle. constructor.
  apply (Permutation_cons_inv (a := x)).
  rewrite !Permutation_middle, take_drop_middle by done.
  by rewrite HL.
Qed.

(** ** Backtracking discipline of [dfs] *)

Lemma frame_refl d s : frame d s s.
Proof. unfold frame. repeat split; auto. Qed.

Lemma frame_trans d s1 s2 s3 : frame d s1 s2 → frame d s2 s3 → frame d s1 s3.
Proof.
  intros (Hl1 & Ha1 & Hb1 & Hs1 & Hk1) (Hl2 & Ha2 & Hb2 & Hs2 & Hk2).
  unfold frame. repeat split.
  - congruence.
  - congruence.
  - destruct Hb1 as [Hb1|[Hb1 Hb1']]; destruct Hb2 as [Hb2|[Hb2 Hb2']].
    + left; lia.
    + left; lia.
    + left; lia.
    + right. split; congruence.
  - set_solver.
  - intros k Hk. destruct (Hk2 k Hk) as [?|?]; auto.
Qed.

Lemma frame_best_le d s s' : frame d s s' → bestMakespanW s' ≤ bestMakespanW s.
Proof. intros (_ & _ & [?|[? _]] & _); lia. Qed.

Lemma insert_restore (L : list Z) i y : <[i := L !!! i]> (<[i := y]> L) = L.
Proof.
  rewrite list_insert_insert_eq.
  destruct (decide (i < length L)%nat) as [Hi|Hi].
  - apply list_insert_id. apply list_lookup_lookup_total_lt, Hi.
  - apply list_insert_ge. lia.
Qed.

Lemma alter_pop_push (A : list (list item)) i it :
  alter pop i (alter (λ l, l ++ [it]) i A) = A.
Proof.
  rewrite list_alter_alter_eq. apply list_alter_id.
  intros l. simpl. apply pop_snoc.
Qed.

Lemma branch_loop_frame d rec it order tried st :
  (∀ s, frame (S d) s (rec s)) →
  frame (S d) st (branch_loop rec it order tried st).
Proof.
  intros Hrec. revert tried st.
  induction order as [|i order IH]; intros tried st; simpl.
  - apply frame_refl.
  - destruct (decide (loads st !!! i ∈ tried)); [apply IH|].
    destruct (bestMakespanW st <=? loads st !!! i + w it); [apply IH|].
    eapply frame_trans; [|apply IH].
    match goal with |- frame _ _ (Search _ _ _ _ (seen (rec ?s1))) =>
      destruct (Hrec s1) as (Hl & Ha & Hb & Hs & Hk) end.
    simpl in *. unfold frame; simpl.
    rewrite Hl, Ha, insert_restore, alter_pop_push. done.
Qed.

Lemma dfs_frame teamCount avgLB baseMax rest idx st :
  frame idx st (dfs teamCount avgLB baseMax rest idx st).
Proof.
  revert idx st. induction rest as [|it rest IH]; intros idx st; simpl.
  - destruct (Z.ltb_spec (max_of (loads st)) (bestMakespanW st)).
    + unfold frame; simpl. repeat split; auto.
    + apply frame_refl.
  - destruct (bestMakespanW st <=? _); [apply frame_refl|].
    case_decide; [apply frame_refl|].
    match goal with |- frame _ _ (branch_loop ?r _ ?o ?t ?s) =>
      destruct (branch_loop_frame idx r it o t s) as (Hl & Ha & Hb & Hs & Hk) end.
    { intros s. apply IH. }
    simpl in *. unfold frame. repeat split; auto.
    + set_solver.
    + intros k Hk'. destruct (Hk k Hk') as [Hin|?]; [|right; lia].
      apply elem_of_union in Hin as [?|Hin]; [by left|].
      apply elem_of_singleton in Hin as ->. right. simpl. lia.
Qed.

(** ** The search is exhaustive up to pruning *)

Lemma seen_ok_mono items best best' d sn :
  best' ≤ best → seen_ok items best d sn → seen_ok items best' d sn.
Proof.
  intros Hle Hs j L Hin Hd M HM.
  eapply complete_mono; [done|]. by eapply Hs.
Qed.

Lemma order_of_perm teamCount L : order_of teamCount L ≡ₚ seq 0 teamCount.
Proof. apply js_sort_perm. Qed.

Lemma order_of_lt teamCount L :
  Forall (λ i, (i < teamCount)%nat) (order_of teamCount L).
Proof.
  apply Forall_forall. intros i Hi.
  apply (proj1 (elem_of_Permutation_proper _ _ _ (order_of_perm teamCount L))) in Hi.
  apply elem_of_seq in Hi. lia.
Qed.

Lemma order_of_all teamCount L i :
  (i < teamCount)%nat → i ∈ order_of teamCount L.
Proof.
  intros Hi.
  apply (proj2 (elem_of_Permutation_proper _ _ _ (order_of_perm teamCount L))).
  apply elem_of_seq. lia.
Qed.

Section search_complete.
Variables (teamCount : nat) (avgLB baseMax : Z) (items : list item).
Hypothesis items_w : Forall (λ it, 0 ≤ w it) items.

Lemma branch_loop_complete rec it rest idx L0 order tried st :
  0 ≤ w it → Forall (λ it, 0 ≤ w it) rest →
  length L0 = teamCount →
  bounds_ok avgLB baseMax (it :: rest) L0 →
  (∀ s, frame (S idx) s (rec s)) →
  (∀ s, length (loads s) = teamCount →
        bounds_ok avgLB baseMax rest (loads s) →
        seen_ok items (bestMakespanW s) (S idx) (seen s) →
        complete rest (bestMakespanW (rec s)) (loads s) ∧
        seen_ok items (bestMakespanW (rec s)) (S idx) (seen (rec s))) →
  Forall (λ i, (i < teamCount)%nat) order →
  loads st = L0 →
  seen_ok items (bestMakespanW st) (S idx) (seen st) →
  tried_ok it rest L0 (bestMakespanW st) tried →
  seen_ok items (bestMakespanW (branch_loop rec it order tried st)) (S idx)
          (seen (branch_loop rec it order tried st)) ∧
  ∃ tried', tried ⊆ tried' ∧
    (∀ i, i ∈ order → L0 !!! i ∈ tried') ∧
    tried_ok it rest L0 (bestMakespanW (branch_loop rec it order tried st)) tried'.
Proof.
  intros Hwit Hwrest HlenL0 Hbounds Hframe Hrec Horder.
  revert tried st.
  induction Horder as [|i order Hi _ IH]; intros tried st HL Hseen Htried; simpl.
  - split; [done|]. exists tried. split; [done|]. split; [|done].
    intros i Hi. inversion Hi.
  - rewrite HL.
    assert (L0 !! i = Some (L0 !!! i)) as HLi.
    { apply list_lookup_lookup_total_lt. lia. }
    destruct (decide (L0 !!! i ∈ tried)) as [Hin|Hnin].
    { destruct (IH tried st HL Hseen Htried) as (Hs & tried' & Hsub & Hall & Hok).
      split; [done|]. exists tried'. split; [done|]. split; [|done].
      intros i' [->|Hi']%elem_of_cons; [set_solver|by apply Hall]. }
    destruct (Z.leb_spec (bestMakespanW st) (L0 !!! i + w it)) as [Hge|Hlt].
    { destruct (IH (tried ∪ {[L0 !!! i]}) st HL Hseen)
        as (Hs & tried' & Hsub & Hall & Hok).
      { intros x L1 L2 [Hx|Hx]%elem_of_union HL0; [by eapply Htried|].
        apply elem_of_singleton in Hx as ->.
        intros F HF.
        assert (L0 !!! i + w it ≤ max_of F); [|lia].
        eapply reach_ge; [exact Hwrest|exact HF|].
        apply elem_of_app. right. left. }
      split; [done|]. exists tried'. split; [set_solver|]. split; [|done].
      intros i' [->|Hi']%elem_of_cons; [set_solver|by apply Hall]. }
    set (st1 := Search (<[i := L0 !!! i + w it]> L0) _ _ _ _).
    destruct (Hframe st1) as (Hl & Ha & _ & _ & _).
    pose proof (frame_best_le _ _ _ (Hframe st1)) as Hble.
    destruct (Hrec st1) as (Hcomp & Hseen2).
    { simpl. rewrite length_insert. done. }
    { simpl. intros F HF. apply Hbounds. apply reach_insert with i; [lia|done]. }
    { done. }
    simpl in Hl, Ha, Hble, Hcomp.
    set (st3 := Search _ _ _ _ _).
    destruct (IH (tried ∪ {[L0 !!! i]}) st3) as (Hs & tried' & Hsub & Hall & Hok).
    { simpl. rewrite Hl. apply insert_restore. }
    { done. }
    { simpl. intros x L1 L2 [Hx|Hx]%elem_of_union HL0.
      - eapply complete_mono; [exact Hble|]. by eapply Htried.
      - apply elem_of_singleton in Hx as ->.
        eapply complete_perm; [|exact Hcomp].
        symmetry. by eapply split_insert_perm. }
    split; [done|]. exists tried'. split; [set_solver|]. split; [|done].
    intros i' [->|Hi']%elem_of_cons; [set_solver|by apply Hall].
Qed.

Lemma dfs_complete rest idx st :
  (0 < teamCount)%nat →
  drop idx items = rest →
  length (loads st) = teamCount →
  bounds_ok avgLB baseMax rest (loads st) →
  seen_ok items (bestMakespanW st) idx (seen st) →
  complete rest (bestMakespanW (dfs teamCount avgLB baseMax rest idx st)) (loads st) ∧
  seen_ok items (bestMakespanW (dfs teamCount avgLB baseMax rest idx st)) idx
          (seen (dfs teamCount avgLB baseMax rest idx st)).
Proof.
  intros Hk. revert idx st.
  induction rest as [|it rest IH]; intros idx st Hdrop Hlen Hbounds Hseen.
  - simpl. destruct (Z.ltb_spec (max_of (loads st)) (bestMakespanW st)); simpl.
    + split.
      * intros F HF. apply reach_nil_inv in HF as ->. lia.
      * eapply seen_ok_mono; [|exact Hseen]. lia.
    + split; [|done]. intros F HF. apply reach_nil_inv in HF as ->. lia.
  - assert (Forall (λ it, 0 ≤ w it) (it :: rest)) as Hw.
    { rewrite <- Hdrop. by apply Forall_drop. }
    pose proof Hw as Hw'.
    apply Forall_cons in Hw as [Hwit Hwrest].
    assert (loads st ≠ []) as Hne.
    { intros Hnil. rewrite Hnil in Hlen. simpl in Hlen. lia. }
    simpl.
    destruct (Z.leb_spec (bestMakespanW st)
                (Z.max (Z.max avgLB baseMax) (max_of (loads st)))) as [Hprune|Hgo].
    { split; [|done]. intros F HF.
      pose proof (Hbounds F HF).
      pose proof (reach_max_ge _ _ _ Hw' HF Hne).
      lia. }
    destruct (decide (key idx (loads st) ∈ seen st)) as [Hin|Hnin].
    { split; [|done]. rewrite <- Hdrop. eapply Hseen; [exact Hin|lia|].
      symmetry. apply js_sort_perm. }
    set (st' := Search _ _ _ _ _).
    assert (drop (S idx) items = rest) as Hdrop'.
    { replace (S idx) with (idx + 1)%nat by lia.
      by rewrite <- drop_drop, Hdrop. }
    assert (seen_ok items (bestMakespanW st') (S idx) (seen st')) as Hseen'.
    { simpl. intros j L [Hin|Hin]%elem_of_union Hj.
      - apply Hseen; [done|lia].
      - apply elem_of_singleton in Hin. unfold key in Hin.
        injection Hin as -> _. lia. }
    assert (tried_ok it rest (loads st) (bestMakespanW st') ∅) as Htried'.
    { intros x L1 L2 Hx. set_solver. }
    destruct (branch_loop_complete
                (dfs teamCount avgLB baseMax rest (S idx)) it rest idx (loads st)
                (order_of teamCount (loads st')) ∅ st'
                Hwit Hwrest Hlen Hbounds
                (λ s, dfs_frame _ _ _ _ _ s)
                (λ s Hls Hbs Hss, IH (S idx) s Hdrop' Hls Hbs Hss)
                (order_of_lt _ _) eq_refl Hseen' Htried')
      as (Hs & tried' & _ & Hall & Hok).
    pose proof (branch_loop_frame idx
                  (dfs teamCount avgLB baseMax rest (S idx)) it
                  (order_of teamCount (loads st')) ∅ st'
                  (λ s, dfs_frame _ _ _ _ _ s)) as Hfr.
    assert (complete (it :: rest)
              (bestMakespanW (branch_loop (dfs teamCount avgLB baseMax rest (S idx))
                 it (order_of teamCount (loads st')) ∅ st')) (loads st)) as Hcomp.
    { intros F HF.
      apply reach_cons_inv in HF as (L1 & x & L2 & Heq & HF').
      eapply Hok; [|exact Heq|exact HF'].
      assert (x = loads st !!! length L1) as ->.
      { rewrite Heq. rewrite lookup_total_app_r by lia.
        by rewrite Nat.sub_diag. }
      apply Hall. apply order_of_all.
      rewrite <- Hlen, Heq, length_app. simpl. lia. }
    split; [done|].
    intros j L Hin Hj M HM.
    destruct (decide (j = idx)) as [->|Hne'].
    + pose proof (frame_best_le _ _ _ Hfr) as Hble.
      destruct Hfr as (_ & _ & _ & _ & Hkeys).
      destruct (Hkeys _ Hin) as [Hin'|Hbad]; [|simpl in Hbad; lia].
      simpl in Hin'. apply elem_of_union in Hin' as [Hin'|Hin'].
      * eapply complete_mono; [|eapply Hseen; [exact Hin'|lia|exact HM]].
        simpl in Hble. lia.
      * apply elem_of_singleton in Hin'. unfold key in Hin'.
        injection Hin' as ->. rewrite Hdrop.
        eapply complete_perm; [|exact Hcomp].
        rewrite HM. symmetry. apply js_sort_perm.
    + eapply Hs; [exact Hin|lia|exact HM].
Qed.
End search_complete.

(** ** Loads and assignments move together *)

Lemma alter_insert_total {T} `{!Inhabited T} (L : list T) (f : T → T) i :
  alter f i L = <[i := f (L !!! i)]> L.
Proof.
  revert i. induction L as [|x L IH]; intros [|i]; simpl; try done.
  f_equal. apply IH.
Qed.

Lemma team_loads_push baseW A i it :
  team_loads baseW (alter (λ l, l ++ [it]) i A)
  = alter (λ x, x + w it) i (team_loads baseW A).
Proof.
  unfold team_loads. revert A i.
  induction baseW as [|b baseW IH]; intros [|a A] [|i]; simpl; try done.
  - rewrite sum_by_app, sum_by_cons, sum_by_nil. f_equal. lia.
  - f_equal. apply IH.
Qed.

Lemma team_loads_replicate baseW :
  team_loads baseW (replicate (length baseW) []) = baseW.
Proof.
  unfold team_loads. induction baseW as [|b baseW IH]; simpl; [done|].
  rewrite sum_by_nil, IH. f_equal. lia.
Qed.

Lemma concat_alter_push {T} (A : list (list T)) i it :
  (i < length A)%nat → concat (alter (λ l, l ++ [it]) i A) ≡ₚ it :: concat A.
Proof.
  revert i. induction A as [|a A IH]; intros [|i] Hi; simpl in *; try lia.
  - rewrite <- app_assoc. simpl. by rewrite <- Permutation_middle.
  - change (list_alter ?f i A) with (alter f i A).
    rewrite IH by lia. by rewrite <- Permutation_middle.
Qed.

Lemma concat_replicate_nil {A} n : concat (replicate n (@nil A)) = [].
Proof. induction n; simpl; done. Qed.

Lemma drop_cons_take {A} (l : list A) n x rest :
  drop n l = x :: rest → take (S n) l = take n l ++ [x] ∧ drop (S n) l = rest.
Proof.
  intros Hd. split.
  - apply take_S_r. rewrite <- (Nat.add_0_r n), <- lookup_drop, Hd. done.
  - replace (S n) with (n + 1)%nat by lia. by rewrite <- drop_drop, Hd.
Qed.

Lemma in_order_push placed it i (A : list (list item)) :
  in_order placed A → in_order (placed ++ [it]) (alter (λ l, l ++ [it]) i A).
Proof.
  intros Hord. unfold in_order in *. apply Forall_alter.
  - eapply Forall_impl; [exact Hord|]. simpl. intros l Hl.
    by apply sublist_inserts_r.
  - intros l Hl _. apply sublist_app; [|done].
    exact (Forall_lookup_1 (λ l, l `sublist_of` placed) A i l Hord Hl).
Qed.

(** ** The recorded best solution is a real assignment *)

Section search_best.
Variables (teamCount : nat) (avgLB baseMax : Z).
Variables (baseW : list Z) (items : list item).
Hypothesis baseW_length : length baseW = teamCount.

Lemma assign_ok_push placed it i st :
  (i < teamCount)%nat →
  assign_ok baseW placed st →
  assign_ok baseW (placed ++ [it])
    (Search (<[i := loads st !!! i + w it]> (loads st))
            (alter (λ l, l ++ [it]) i (assign st))
            (bestMakespanW st) (bestAssign st) (seen st)).
Proof.
  intros Hi (Hlen & Hloads & Hperm & Hord). unfold assign_ok; simpl.
  split; [by rewrite length_alter|]. split; [|split].
  - rewrite team_loads_push, alter_insert_total, <- Hloads. done.
  - rewrite concat_alter_push by lia.
    rewrite Hperm. by rewrite <- Permutation_cons_append.
  - by apply in_order_push.
Qed.

Lemma branch_loop_best_ok rec it idx order tried st :
  (∀ s, frame (S idx) s (rec s)) →
  (∀ s, assign_ok baseW (take idx items ++ [it]) s →
        best_ok baseW items s → best_ok baseW items (rec s)) →
  Forall (λ i, (i < teamCount)%nat) order →
  assign_ok baseW (take idx items) st →
  best_ok baseW items st →
  best_ok baseW items (branch_loop rec it order tried st).
Proof.
  intros Hframe Hrec Horder. revert tried st.
  induction Horder as [|i order Hi _ IH]; intros tried st Hok Hbest; simpl.
  - done.
  - destruct (decide (loads st !!! i ∈ tried)); [by apply IH|].
    destruct (bestMakespanW st <=? loads st !!! i + w it); [by apply IH|].
    set (st1 := Search (<[i := loads st !!! i + w it]> (loads st)) _ _ _ _).
    destruct (Hframe st1) as (Hl & Ha & _).
    simpl in Hl, Ha. apply IH.
    + unfold assign_ok in *. simpl.
      rewrite Hl, Ha, insert_restore, alter_pop_push. done.
    + apply (Hrec st1); [by apply assign_ok_push|done].
Qed.

Lemma dfs_best_ok rest idx st :
  drop idx items = rest →
  assign_ok baseW (take idx items) st →
  best_ok baseW items st →
  best_ok baseW items (dfs teamCount avgLB baseMax rest idx st).
Proof.
  revert idx st. induction rest as [|it rest IH]; intros idx st Hdrop Hok Hbest.
  - simpl. destruct (max_of (loads st) <? bestMakespanW st); [|done].
    destruct Hok as (Hlen & Hloads & Hperm & Hord).
    assert (take idx items = items) as Htake.
    { rewrite <- (take_drop idx items) at 2. by rewrite Hdrop, app_nil_r. }
    rewrite Htake in Hperm, Hord.
    unfold best_ok, is_assignment, makespan; simpl.
    rewrite <- Hloads. done.
  - destruct (drop_cons_take _ _ _ _ Hdrop) as [Htake Hdrop'].
    simpl. destruct (bestMakespanW st <=? _); [done|].
    destruct (decide (key idx (loads st) ∈ seen st)); [done|].
    apply branch_loop_best_ok with idx.
    + intros s. apply dfs_frame.
    + intros s Hs Hb. apply IH; [done| |done]. by rewrite Htake.
    + apply order_of_lt.
    + done.
    + done.
Qed.
End search_best.

(** ** Every assignment is a placement of the items one by one *)

Lemma concat_elem_split (A : list (list item)) it :
  it ∈ concat A →
  ∃ i l1 l2, A !! i = Some (l1 ++ it :: l2) ∧
             concat A ≡ₚ it :: concat (<[i := l1 ++ l2]> A).
Proof.
  induction A as [|a A IH]; simpl; [inversion 1|].
  intros [Hin|Hin]%elem_of_app.
  - apply list_elem_of_split in Hin as (l1 & l2 & ->).
    exists 0%nat, l1, l2. split; [done|]. simpl.
    rewrite <- !app_assoc. simpl. by rewrite <- Permutation_middle.
  - destruct (IH Hin) as (i & l1 & l2 & Hi & Hp).
    exists (S i), l1, l2. split; [done|]. simpl.
    change (list_insert i ?x A) with (<[i := x]> A).
    rewrite Hp. by rewrite <- Permutation_middle.
Qed.

Lemma team_loads_remove (L : list Z) (A : list (list item)) i l1 l2 it :
  A !! i = Some (l1 ++ it :: l2) →
  team_loads (<[i := L !!! i + w it]> L) (<[i := l1 ++ l2]> A) = team_loads L A.
Proof.
  unfold team_loads. revert A i.
  induction L as [|x L IH]; intros [|a A] [|i] Hi; simpl in *; try done.
  - injection Hi as ->. f_equal.
    rewrite !sum_by_app, sum_by_cons. lia.
  - f_equal. by apply IH.
Qed.

Lemma team_loads_empty (L : list Z) (A : list (list item)) :
  length A = length L → concat A = [] → team_loads L A = L.
Proof.
  unfold team_loads. revert A.
  induction L as [|x L IH]; intros [|a A] Hlen Hc; simpl in *; try done.
  apply app_eq_nil in Hc as [-> Hc].
  rewrite sum_by_nil, IH by (done || lia). f_equal. lia.
Qed.

Lemma assignment_reach items L A :
  length A = length L → concat A ≡ₚ items → reach items L (team_loads L A).
Proof.
  revert L A. induction items as [|it rest IH]; intros L A Hlen Hp.
  - apply Permutation_nil_r in Hp. rewrite team_loads_empty by done. constructor.
  - assert (it ∈ concat A) as Hin.
    { apply (proj2 (elem_of_Permutation_proper _ _ _ Hp)). left. }
    destruct (concat_elem_split A it Hin) as (i & l1 & l2 & Hi & Hp').
    pose proof (lookup_lt_Some _ _ _ Hi) as Hlt.
    apply reach_insert with i; [lia|].
    rewrite <- (team_loads_remove L A i l1 l2 it Hi).
    apply IH.
    + by rewrite !length_insert.
    + apply (Permutation_cons_inv (a := it)). by rewrite <- Hp', Hp.
Qed.

(** ** The greedy baseline *)

Lemma least_loaded_lt teamCount L :
  (0 < teamCount)%nat → (least_loaded teamCount L < teamCount)%nat.
Proof.
  intros Hk. unfold least_loaded.
  assert (∀ l b, (b < teamCount)%nat → Forall (λ i, (i < teamCount)%nat) l →
    (foldl (λ best i, if (L !!! i <? L !!! best)%Z then i else best) b l
     < teamCount)%nat) as Hgen.
  { intros l. induction l as [|i l IH]; intros b Hb Hl; simpl; [done|].
    apply Forall_cons in Hl as [Hi Hl].
    apply IH; [|done]. by destruct (L !!! i <? L !!! b). }
  apply Hgen; [done|].
  apply Forall_forall. intros i Hi%elem_of_seq. lia.
Qed.

Lemma greedy_step_ok teamCount baseW placed it (s : list Z * list (list item)) :
  (0 < teamCount)%nat → length baseW = teamCount →
  length s.2 = teamCount ∧ s.1 = team_loads baseW s.2 ∧ concat s.2 ≡ₚ placed ∧
    in_order placed s.2 →
  length (greedy_step teamCount s it).2 = teamCount ∧
  (greedy_step teamCount s it).1 = team_loads baseW (greedy_step teamCount s it).2 ∧
  concat (greedy_step teamCount s it).2 ≡ₚ placed ++ [it] ∧
  in_order (placed ++ [it]) (greedy_step teamCount s it).2.
Proof.
  intros Hk Hb (Hlen & Hloads & Hperm & Hord). unfold greedy_step; simpl.
  split; [by rewrite length_alter|]. split; [|split].
  - by rewrite team_loads_push, <- Hloads.
  - rewrite concat_alter_push.
    + rewrite Hperm. by rewrite <- Permutation_cons_append.
    + rewrite Hlen. by apply least_loaded_lt.
  - by apply in_order_push.
Qed.

Lemma greedy_ok teamCount baseW items :
  (0 < teamCount)%nat → length baseW = teamCount →
  length (greedy teamCount baseW items).2 = teamCount ∧
  (greedy teamCount baseW items).1
    = team_loads baseW (greedy teamCount baseW items).2 ∧
  concat (greedy teamCount baseW items).2 ≡ₚ items ∧
  in_order items (greedy teamCount baseW items).2.
Proof.
  intros Hk Hb. unfold greedy.
  assert (∀ l placed s,
    length s.2 = teamCount ∧ s.1 = team_loads baseW s.2 ∧ concat s.2 ≡ₚ placed ∧
      in_order placed s.2 →
    length (foldl (greedy_step teamCount) s l).2 = teamCount ∧
    (foldl (greedy_step teamCount) s l).1
      = team_loads baseW (foldl (greedy_step teamCount) s l).2 ∧
    concat (foldl (greedy_step teamCount) s l).2 ≡ₚ placed ++ l ∧
    in_order (placed ++ l) (foldl (greedy_step teamCount) s l).2) as Hgen.
  { intros l. induction l as [|it l IH]; intros placed s Hs; simpl.
    - by rewrite app_nil_r.
    - rewrite (cons_middle it placed l), app_assoc. apply IH.
      by apply greedy_step_ok. }
  apply (Hgen items [] (baseW, replicate teamCount [])). simpl.
  rewrite length_replicate, concat_replicate_nil, <- Hb, team_loads_replicate.
  repeat split; try done. by apply Forall_replicate.
Qed.

Lemma search_init_best_ok teamCount baseW items :
  (0 < teamCount)%nat → length baseW = teamCount →
  best_ok baseW items (search_init teamCount baseW items).
Proof.
  intros Hk Hb.
  destruct (greedy_ok teamCount baseW items Hk Hb) as (Hl & Hlo & Hp & Hord).
  unfold best_ok, is_assignment, makespan, search_init; simpl.
  rewrite <- Hlo, Hb. done.
Qed.

Lemma search_init_assign_ok teamCount baseW items :
  length baseW = teamCount →
  assign_ok baseW [] (search_init teamCount baseW items).
Proof.
  intros Hb. unfold assign_ok, search_init; simpl.
  rewrite length_replicate, concat_replicate_nil, <- Hb, team_loads_replicate.
  repeat split; try done. by apply Forall_replicate.
Qed.

(** ** Optimality of the search *)

Lemma run_search_bounds teamCount baseW items :
  (0 < teamCount)%nat → length baseW = teamCount →
  Forall (λ it, 0 ≤ w it) items →
  bounds_ok (ceil_div (sum_by id baseW + sum_by w items) (Z.of_nat teamCount))
            (max_of baseW) items baseW.
Proof.
  intros Hk Hb Hw F HF.
  assert (baseW ≠ []) as Hne.
  { intros ->. simpl in Hb. lia. }
  pose proof (reach_avg items baseW F Hne HF) as Havg. rewrite Hb in Havg.
  pose proof (reach_max_ge items baseW F Hw HF Hne). lia.
Qed.

Lemma run_search_best_ok teamCount baseW items :
  (0 < teamCount)%nat → length baseW = teamCount →
  best_ok baseW items (run_search teamCount baseW items).
Proof.
  intros Hk Hb. unfold run_search. apply dfs_best_ok.
  - done.
  - done.
  - by apply search_init_assign_ok.
  - by apply search_init_best_ok.
Qed.

Lemma run_search_optimal teamCount baseW items :
  (0 < teamCount)%nat → length baseW = teamCount →
  Forall (λ it, 0 ≤ w it) items →
  is_assignment teamCount items (bestAssign (run_search teamCount baseW items)) ∧
  makespan baseW (bestAssign (run_search teamCount baseW items))
    = bestMakespanW (run_search teamCount baseW items) ∧
  ∀ A, is_assignment teamCount items A →
       bestMakespanW (run_search teamCount baseW items) ≤ makespan baseW A.
Proof.
  intros Hk Hb Hw.
  destruct (run_search_best_ok teamCount baseW items Hk Hb) as (Hassign & Hmk & _).
  rewrite Hb in Hassign. unfold run_search in Hassign, Hmk.
  destruct (dfs_complete teamCount
              (ceil_div (sum_by id baseW + sum_by w items) (Z.of_nat teamCount))
              (max_of baseW) items Hw items 0
              (search_init teamCount baseW items))
    as [Hcomp _].
  { done. }
  { done. }
  { done. }
  { by apply run_search_bounds. }
  { intros j L Hin. simpl in Hin. set_solver. }
  split; [exact Hassign|]. split; [exact Hmk|].
  intros A [HlenA HpA]. apply Hcomp. simpl.
  apply assignment_reach; [lia|done].
Qed.

(** ** The partitioner *)

Lemma isFixed_range teamCount j :
  isFixed teamCount j = true ↔ 1 ≤ fixedTeam j ≤ Z.of_nat teamCount.
Proof.
  unfold isFixed. rewrite !andb_true_iff, negb_true_iff.
  rewrite Z.eqb_neq, !Z.leb_le. lia.
Qed.

Lemma isFixed_index teamCount j :
  isFixed teamCount j = true → (Z.to_nat (fixedTeam j - 1) < teamCount)%nat.
Proof. rewrite isFixed_range. lia. Qed.

Lemma partition_jobs_snoc teamCount jobsMinutes j :
  partition_jobs teamCount (jobsMinutes ++ [j])
  = partition_step teamCount (partition_jobs teamCount jobsMinutes) j.
Proof. unfold partition_jobs. by rewrite foldl_snoc. Qed.

Lemma partition_jobs_spec teamCount jobsMinutes :
  length (fixedLoads (partition_jobs teamCount jobsMinutes)) = teamCount ∧
  length (fixedAssign (partition_jobs teamCount jobsMinutes)) = teamCount ∧
  free (partition_jobs teamCount jobsMinutes) = filter (isFree teamCount) jobsMinutes ∧
  ∀ i, (i < teamCount)%nat →
    fixedAssign (partition_jobs teamCount jobsMinutes) !!! i
      = map toOut (filter (fixedAt teamCount i) jobsMinutes) ∧
    fixedLoads (partition_jobs teamCount jobsMinutes) !!! i
      = sum_by job_minutes (filter (fixedAt teamCount i) jobsMinutes).
Proof.
  induction jobsMinutes as [|j jobsMinutes (IH1 & IH2 & IH3 & IH4)] using rev_ind.
  - simpl. rewrite !length_replicate. repeat split; try done.
    + by rewrite lookup_total_replicate_2.
    + by rewrite lookup_total_replicate_2.
  - rewrite partition_jobs_snoc. unfold partition_step.
    destruct (isFixed teamCount j) eqn:Hfix; simpl.
    + rewrite !length_alter. split; [done|]. split; [done|]. split.
      * rewrite filter_app, IH3. rewrite filter_cons_False, filter_nil, app_nil_r; [done|].
        unfold isFree. congruence.
      * intros i Hi. destruct (IH4 i Hi) as [IHa IHl].
        rewrite !filter_app, map_app, sum_by_app.
        rewrite !list_lookup_total_alter.
        destruct (decide (Z.to_nat (fixedTeam j - 1) = i)) as [Heq|Hne].
        -- rewrite !decide_True by (split; [done|lia]).
           rewrite filter_cons_True by done. rewrite filter_nil. simpl.
           rewrite sum_by_cons, sum_by_nil. subst i.
           rewrite IHa, IHl. split; [done|lia].
        -- rewrite !decide_False by (intros [? ?]; done).
           rewrite filter_cons_False by (intros [? ?]; done).
           rewrite filter_nil. simpl. rewrite sum_by_nil, app_nil_r, IHa, IHl.
           split; [done|lia].
    + split; [done|]. split; [done|]. split.
      * rewrite filter_app, IH3. by rewrite filter_cons_True, filter_nil.
      * intros i Hi. destruct (IH4 i Hi) as [IHa IHl].
        rewrite !filter_app, map_app, sum_by_app.
        rewrite filter_cons_False by (intros [? ?]; congruence).
        rewrite filter_nil. simpl. rewrite sum_by_nil, app_nil_r, IHa, IHl.
        split; [done|lia].
Qed.

(** ** The quantizer *)

Lemma quantum_pos quant : 1 ≤ quantum quant.
Proof. unfold quantum. lia. Qed.

Lemma toInt32_small z : - 2 ^ 31 ≤ z < 2 ^ 31 → toInt32 z = z.
Proof.
  intros Hz. unfold toInt32.
  destruct (Z.ltb_spec (z mod 2 ^ 32) (2 ^ 31)) as [Hlt|Hge].
  - destruct (Z.le_gt_cases 0 z) as [Hpos|Hneg].
    + apply Z.mod_small. lia.
    + assert (z mod 2 ^ 32 = z + 2 ^ 32); [|lia].
      symmetry. apply (Z.mod_unique _ _ (-1)); lia.
  - destruct (Z.le_gt_cases 0 z) as [Hpos|Hneg].
    + rewrite Z.mod_small in Hge by lia. lia.
    + assert (z mod 2 ^ 32 = z + 2 ^ 32); [|lia].
      symmetry. apply (Z.mod_unique _ _ (-1)); lia.
Qed.

Lemma quantum_id quant : 1 ≤ quant < 2 ^ 31 → quantum quant = quant.
Proof.
  intros Hq. unfold quantum. rewrite toInt32_small by lia.
  rewrite Z.lor_0_r. lia.
Qed.

Lemma round_div_1 m : round_div m 1 = m.
Proof.
  unfold round_div.
  replace (2 * m + 1) with (1 + m * (2 * 1)) by lia.
  rewrite Z.div_add by lia. rewrite Z.div_small; lia.
Qed.

Lemma force_loop_lookup fl n a (bw : list Z) i :
  (i < length bw)%nat →
  foldl (force_step fl) bw (seq a n) !!! i
  = if decide (a ≤ i < a + n)%nat
    then (if (0 <? fl !!! i) && (bw !!! i =? 0) then 1 else bw !!! i)
    else bw !!! i.
Proof.
  revert a bw. induction n as [|n IH]; intros a bw Hi; simpl.
  - rewrite decide_False by lia. done.
  - assert (length (force_step fl bw a) = length bw) as Hlen.
    { unfold force_step. destruct (_ && _); [by rewrite length_insert|done]. }
    rewrite IH by lia.
    assert (∀ j, j ≠ a → force_step fl bw a !!! j = bw !!! j) as Hother.
    { intros j Hj. unfold force_step.
      destruct (_ && _); [|done]. by rewrite list_lookup_total_insert_ne. }
    destruct (decide (i = a)) as [->|Hne].
    + rewrite decide_False by lia. rewrite decide_True by lia.
      unfold force_step. destruct (_ && _); [|done].
      by rewrite list_lookup_total_insert_eq.
    + rewrite Hother by done.
      destruct (decide (S a ≤ i < S a + n)%nat).
      * rewrite decide_True by lia. done.
      * rewrite decide_False by lia. done.
Qed.

Lemma force_loop_length fl l (bw : list Z) :
  length (foldl (force_step fl) bw l) = length bw.
Proof.
  revert bw. induction l as [|a l IH]; intros bw; simpl; [done|].
  rewrite IH. unfold force_step. destruct (_ && _); [by rewrite length_insert|done].
Qed.

Lemma baseW_of_length q teamCount fl :
  length (baseW_of q teamCount fl) = length fl.
Proof. unfold baseW_of. by rewrite force_loop_length, length_map. Qed.

Lemma baseW_of_lookup q teamCount fl i :
  length fl = teamCount → (i < teamCount)%nat →
  baseW_of q teamCount fl !!! i
  = if (0 <? fl !!! i) && (round_div (fl !!! i) q =? 0) then 1
    else round_div (fl !!! i) q.
Proof.
  intros Hlen Hi. unfold baseW_of.
  rewrite force_loop_lookup by (rewrite length_map; lia).
  rewrite decide_True by lia.
  assert (map (λ m, round_div m q) fl !!! i = round_div (fl !!! i) q) as ->.
  { rewrite !list_lookup_total_alt.
    change (map ?f fl) with (f <$> fl). rewrite list_lookup_fmap.
    destruct (lookup_lt_is_Some_2 fl i) as [x ->]; [lia|done]. }
  done.
Qed.

(** Sorting by a key, descending. *)
Lemma js_sort_desc_sorted {A} (key : A → Z) l :
  StronglySorted (λ a b, key b ≤ key a) (js_sort (λ a b, key b - key a) l).
Proof.
  assert (StronglySorted (λ a b, - key a ≤ - key b)
            (js_sort (λ a b, key b - key a) l)) as Hs.
  { apply (js_sort_sorted (λ a b, key b - key a) (λ a, - key a)). intros; lia. }
  induction Hs as [|x l' Hs IH Hall]; constructor; [done|].
  eapply Forall_impl; [exact Hall|]. simpl. intros; lia.
Qed.

Lemma js_sort_desc_stable {A} (key : A → Z) v l :
  filter (λ a, key a = v) (js_sort (λ a b, key b - key a) l)
  = filter (λ a, key a = v) l.
Proof.
  apply (js_sort_stable (λ a b, key b - key a) (λ a, - key a)).
  - intros a b. lia.
  - intros a b Heq. lia.
Qed.

(** ** The assembler *)

Lemma push_items_fold t ba :
  foldl push_item t ba
  = Team (jobs t ++ map itemOut ba) (totalMinutes t + sum_by item_minutes ba).
Proof.
  revert t. induction ba as [|it ba IH]; intros t; simpl.
  - rewrite app_nil_r, sum_by_nil, Z.add_0_r. by destruct t.
  - rewrite IH, sum_by_cons. simpl. rewrite <- app_assoc. f_equal. lia.
Qed.

Lemma assemble_team_eq fa fl ba :
  assemble_team fa fl ba
  = Team (js_sort by_minutes_desc (fa ++ map itemOut ba))
         (fl + sum_by item_minutes ba).
Proof. unfold assemble_team. by rewrite push_items_fold. Qed.

Lemma assemble_length teamCount p best : length (assemble teamCount p best) = teamCount.
Proof. unfold assemble. by rewrite length_map, length_seq. Qed.

Lemma assemble_lookup teamCount p best i :
  (i < teamCount)%nat →
  assemble teamCount p best !! i
  = Some (assemble_team (fixedAssign p !!! i) (fixedLoads p !!! i) (best !!! i)).
Proof.
  intros Hi. unfold assemble.
  change (map ?f ?l) with (f <$> l). rewrite list_lookup_fmap.
  rewrite lookup_seq_lt by done. done.
Qed.

Lemma map_lookup_total_seq {A} `{!Inhabited A} (X : list A) :
  map (λ i, X !!! i) (seq 0 (length X)) = X.
Proof.
  induction X as [|x X IH]; simpl; [done|]. f_equal.
  rewrite <- fmap_S_seq. change (?f <$> ?l) with (map f l).
  rewrite map_map. simpl. exact IH.
Qed.

Lemma concat_perm_pointwise {A} (F G H : nat → list A) l :
  (∀ i, i ∈ l → F i ≡ₚ G i ++ H i) →
  concat (map F l) ≡ₚ concat (map G l) ++ concat (map H l).
Proof.
  induction l as [|i l IH]; intros Hp; simpl; [done|].
  rewrite IH by (intros j Hj; apply Hp; by right).
  rewrite (Hp i) by left.
  rewrite <- !app_assoc. apply Permutation_app_head.
  rewrite !app_assoc. apply Permutation_app_tail, Permutation_app_comm.
Qed.

Lemma partition_jobs_perm teamCount jobsMinutes :
  concat (fixedAssign (partition_jobs teamCount jobsMinutes))
    ++ map toOut (free (partition_jobs teamCount jobsMinutes))
  ≡ₚ map toOut jobsMinutes.
Proof.
  induction jobsMinutes as [|j jobsMinutes IH] using rev_ind.
  - simpl. by rewrite concat_replicate_nil.
  - destruct (partition_jobs_spec teamCount jobsMinutes) as (_ & Hlen & _).
    rewrite partition_jobs_snoc. unfold partition_step.
    destruct (isFixed teamCount j) eqn:Hfix; simpl.
    + rewrite concat_alter_push by (rewrite Hlen; by apply isFixed_index).
      rewrite map_app. simpl. rewrite <- Permutation_cons_append.
      simpl. by rewrite IH.
    + rewrite !map_app. simpl. rewrite app_assoc. by rewrite IH.
Qed.

Lemma itemOut_mkItem q fr : map itemOut (map (mkItem q) fr) = map toOut fr.
Proof. rewrite map_map. done. Qed.

Lemma freeItems_of_perm q fr : freeItems_of q fr ≡ₚ map (mkItem q) fr.
Proof. apply js_sort_perm. Qed.

Lemma freeItems_of_weight q fr :
  Forall (λ it, 1 ≤ w it) (freeItems_of q fr).
Proof.
  apply Forall_forall. intros it Hit.
  apply (proj1 (elem_of_Permutation_proper _ _ _ (freeItems_of_perm q fr))) in Hit.
  apply list_elem_of_In, in_map_iff in Hit as (j & <- & _). simpl. lia.
Qed.

Lemma freeItems_of_nonneg q fr :
  Forall (λ it, 0 ≤ w it) (freeItems_of q fr).
Proof.
  eapply Forall_impl; [apply freeItems_of_weight|]. simpl. intros; lia.
Qed.

Lemma solver_baseW_length jobsMinutes teamCount quant :
  length (baseW_of (quantum quant) teamCount
            (fixedLoads (partition_jobs teamCount jobsMinutes))) = teamCount.
Proof.
  rewrite baseW_of_length.
  by destruct (partition_jobs_spec teamCount jobsMinutes) as (-> & _).
Qed.

(** * The claims *)

(** The search of the solver, on the solver's own weights. *)
Lemma solve_search_spec jobsMinutes teamCount quant :
  (1 ≤ teamCount)%nat →
  is_assignment teamCount
    (freeItems_of (quantum quant) (free (partition_jobs teamCount jobsMinutes)))
    (bestAssign (solve_search jobsMinutes teamCount quant)) ∧
  makespan
    (baseW_of (quantum quant) teamCount
       (fixedLoads (partition_jobs teamCount jobsMinutes)))
    (bestAssign (solve_search jobsMinutes teamCount quant))
  = bestMakespanW (solve_search jobsMinutes teamCount quant) ∧
  ∀ A, is_assignment teamCount
         (freeItems_of (quantum quant) (free (partition_jobs teamCount jobsMinutes))) A →
       bestMakespanW (solve_search jobsMinutes teamCount quant)
       ≤ makespan
           (baseW_of (quantum quant) teamCount
              (fixedLoads (partition_jobs teamCount jobsMinutes))) A.
Proof.
  intros Hk. unfold solve_search. apply run_search_optimal.
  - lia.
  - apply solver_baseW_length.
  - apply freeItems_of_nonneg.
Qed.

(** C1. For every input with at least one team, the assignment of the free
    items returned by the search is exactly optimal in the quantized weight
    space: it is an assignment of the free items to the teams, and its
    makespan (the maximum over the teams of the quantized fixed weight plus
    the weights of the free items given to the team) is at most the makespan
    of every assignment of the free items to the teams. *)
Theorem search_exactly_optimal (jobsMinutes : list job) (teamCount : nat) (quant : Z) :
  (1 ≤ teamCount)%nat →
  let q := quantum quant in
  let p := partition_jobs teamCount jobsMinutes in
  let baseW := baseW_of q teamCount (fixedLoads p) in
  let freeItems := freeItems_of q (free p) in
  let best := bestAssign (solve_search jobsMinutes teamCount quant) in
  solveOptimalWithFixed jobsMinutes teamCount quant = assemble teamCount p best ∧
  is_assignment teamCount freeItems best ∧
  ∀ A, is_assignment teamCount freeItems A → makespan baseW best ≤ makespan baseW A.
Proof.
  intros Hk q p baseW freeItems best.
  destruct (solve_search_spec jobsMinutes teamCount quant Hk) as (Ha & Hm & Hopt).
  split; [done|]. split; [exact Ha|].
  intros A HA. unfold best, baseW, p, q. rewrite Hm. by apply Hopt.
Qed.

Lemma search_exactly_optimal_witness :
  (1 ≤ 2)%nat ∧
  ∀ A, is_assignment 2
         (freeItems_of (quantum 30)
            (free (partition_jobs 2
               [Job "A" 60 0; Job "B" 60 0; Job "C" 30 0; Job "D" 30 0]))) A →
       makespan
         (baseW_of (quantum 30) 2
            (fixedLoads (partition_jobs 2
               [Job "A" 60 0; Job "B" 60 0; Job "C" 30 0; Job "D" 30 0])))
         (bestAssign (solve_search
            [Job "A" 60 0; Job "B" 60 0; Job "C" 30 0; Job "D" 30 0] 2 30))
       ≤ makespan
           (baseW_of (quantum 30) 2
              (fixedLoads (partition_jobs 2
                 [Job "A" 60 0; Job "B" 60 0; Job "C" 30 0; Job "D" 30 0]))) A.
Proof.
  split; [lia|].
  apply (search_exactly_optimal
           [Job "A" 60 0; Job "B" 60 0; Job "C" 30 0; Job "D" 30 0] 2 30).
  lia.
Defined.

Lemma sort_insert_map {A B} (h : A → B) (cmp : B → B → Z) x l :
  sort_insert cmp (h x) (map h l)
  = map h (sort_insert (λ a b, cmp (h a) (h b)) x l).
Proof.
  induction l as [|y l IH]; simpl; [done|].
  destruct (cmp (h x) (h y) <=? 0); simpl; [done|]. by rewrite IH.
Qed.

(** Sorting commutes with a map, the comparator reading through it. *)
Lemma js_sort_map {A B} (h : A → B) (cmp : B → B → Z) l :
  js_sort cmp (map h l) = map h (js_sort (λ a b, cmp (h a) (h b)) l).
Proof.
  induction l as [|x l IH]; simpl; [done|]. by rewrite IH, sort_insert_map.
Qed.

Lemma filter_map {A B} (h : A → B) (P : B → Prop) `{!∀ x, Decision (P x)} l :
  filter P (map h l) = map h (filter (λ a, P (h a)) l).
Proof.
  induction l as [|x l IH]; simpl; [done|].
  rewrite !filter_cons, IH. by destruct (decide (P (h x))).
Qed.

Lemma sublist_filter_mono {A} (P : A → Prop) `{!∀ x, Decision (P x)} l1 l2 :
  l1 `sublist_of` l2 → filter P l1 `sublist_of` filter P l2.
Proof.
  induction 1 as [|x l1 l2 _ IH|x l1 l2 _ IH]; rewrite ?filter_cons.
  - done.
  - destruct (decide (P x)); [by constructor|done].
  - destruct (decide (P x)); [by constructor|done].
Qed.

Lemma sublist_map {A B} (h : A → B) l1 l2 :
  l1 `sublist_of` l2 → map h l1 `sublist_of` map h l2.
Proof. induction 1; simpl; by constructor. Qed.

(** Free items of equal duration keep their input order in the sorted list. *)
Lemma freeItems_of_minutes_stable q fr v :
  filter (λ it, item_minutes it = v) (freeItems_of q fr)
  = map (mkItem q) (filter (λ j, job_minutes j = v) fr).
Proof.
  unfold freeItems_of. rewrite js_sort_map, filter_map. f_equal. simpl.
  apply (js_sort_stable (λ a b, by_weight_desc (mkItem q a) (mkItem q b))
           (λ j, - w (mkItem q j))).
  - intros a b. unfold by_weight_desc. lia.
  - intros a b Heq. simpl. by rewrite Heq.
Qed.

(** The team of index [i] in the output. *)
Lemma solve_team_lookup jobsMinutes teamCount quant i :
  (i < teamCount)%nat →
  solveOptimalWithFixed jobsMinutes teamCount quant !! i
  = Some (Team
      (js_sort by_minutes_desc
         (fixedAssign (partition_jobs teamCount jobsMinutes) !!! i
          ++ map itemOut (bestAssign (solve_search jobsMinutes teamCount quant) !!! i)))
      (fixedLoads (partition_jobs teamCount jobsMinutes) !!! i
       + sum_by item_minutes
           (bestAssign (solve_search jobsMinutes teamCount quant) !!! i))).
Proof.
  intros Hi. unfold solveOptimalWithFixed.
  by rewrite assemble_lookup, assemble_team_eq.
Qed.

Lemma fixedLoads_exact teamCount jobsMinutes i :
  (i < teamCount)%nat →
  fixedLoads (partition_jobs teamCount jobsMinutes) !!! i
  = sum_by out_minutes (fixedAssign (partition_jobs teamCount jobsMinutes) !!! i).
Proof.
  intros Hi.
  destruct (partition_jobs_spec teamCount jobsMinutes) as (_ & _ & _ & Hl).
  destruct (Hl i Hi) as [-> ->]. by rewrite sum_by_map.
Qed.

Lemma sum_by_ext_in {A} (f g : A → Z) l :
  (∀ x, x ∈ l → f x = g x) → sum_by f l = sum_by g l.
Proof.
  induction l as [|x l IH]; intros Hfg; [done|].
  rewrite !sum_by_cons, IH, (Hfg x); [done|left|].
  intros y Hy. apply Hfg. by right.
Qed.

Lemma assemble_team_total fa fl ba :
  fl = sum_by out_minutes fa →
  totalMinutes (assemble_team fa fl ba)
  = sum_by out_minutes (jobs (assemble_team fa fl ba)).
Proof.
  intros ->. rewrite assemble_team_eq. simpl.
  rewrite (sum_by_perm _ _ _ (js_sort_perm by_minutes_desc _)).
  by rewrite sum_by_app, sum_by_map.
Qed.

(** C2. Conservation: with at least one team, the total minutes reported
    over the returned teams equal the total minutes of the input jobs, and
    every input job appears in exactly one team's output list (the output
    lists, put together, are a rearrangement of the input jobs). *)
Theorem conservation (jobsMinutes : list job) (teamCount : nat) (quant : Z) :
  (1 ≤ teamCount)%nat →
  sum_by totalMinutes (solveOptimalWithFixed jobsMinutes teamCount quant)
    = sum_by job_minutes jobsMinutes ∧
  concat (map jobs (solveOptimalWithFixed jobsMinutes teamCount quant))
    ≡ₚ map toOut jobsMinutes.
Proof.
  intros Hk.
  destruct (solve_search_spec jobsMinutes teamCount quant Hk)
    as ([Hlen Hperm] & _).
  destruct (partition_jobs_spec teamCount jobsMinutes) as (HlenL & HlenA & _ & _).
  set (p := partition_jobs teamCount jobsMinutes) in *.
  set (best := bestAssign (solve_search jobsMinutes teamCount quant)) in *.
  assert (concat (map jobs (solveOptimalWithFixed jobsMinutes teamCount quant))
          ≡ₚ map toOut jobsMinutes) as Hjobs.
  { unfold solveOptimalWithFixed, assemble. fold p best. rewrite map_map.
    rewrite (concat_perm_pointwise _
               (λ i, fixedAssign p !!! i) (λ i, map itemOut (best !!! i))).
    - rewrite <- HlenA at 1. rewrite map_lookup_total_seq.
      rewrite <- (map_map (λ i, best !!! i) (map itemOut)).
      rewrite <- Hlen at 1. rewrite map_lookup_total_seq.
      rewrite <- concat_map, Hperm.
      unfold freeItems_of. rewrite (js_sort_perm by_weight_desc).
      rewrite itemOut_mkItem. apply partition_jobs_perm.
    - intros i _. rewrite assemble_team_eq. simpl. apply js_sort_perm. }
  split; [|exact Hjobs].
  change (sum_by job_minutes jobsMinutes)
    with (sum_by (out_minutes ∘ toOut) jobsMinutes).
  rewrite <- sum_by_map.
  rewrite <- (sum_by_perm _ _ _ Hjobs), sum_by_concat, sum_by_map.
  apply sum_by_ext_in. intros t Ht.
  unfold solveOptimalWithFixed, assemble in Ht.
  apply list_elem_of_In, in_map_iff in Ht as (i & <- & Hi).
  apply in_seq in Hi. simpl.
  apply assemble_team_total, fixedLoads_exact. lia.
Qed.

Lemma conservation_witness :
  (1 ≤ 2)%nat ∧
  sum_by totalMinutes
    (solveOptimalWithFixed [Job "X" 100 1; Job "P" 50 0; Job "Q" 50 0; Job "R" 50 0] 2 10)
  = sum_by job_minutes [Job "X" 100 1; Job "P" 50 0; Job "Q" 50 0; Job "R" 50 0].
Proof.
  split; [lia|].
  apply (conservation [Job "X" 100 1; Job "P" 50 0; Job "Q" 50 0; Job "R" 50 0] 2 10).
  lia.
Defined.

(** C8. Monotonic improvement: with at least one team, the makespan in
    quantized weight units of the returned assignment is at most the makespan
    of the greedy baseline assignment for the same input. *)
Theorem search_improves_on_greedy (jobsMinutes : list job) (teamCount : nat) (quant : Z) :
  (1 ≤ teamCount)%nat →
  let q := quantum quant in
  let p := partition_jobs teamCount jobsMinutes in
  let baseW := baseW_of q teamCount (fixedLoads p) in
  let freeItems := freeItems_of q (free p) in
  makespan baseW (bestAssign (solve_search jobsMinutes teamCount quant))
  ≤ makespan baseW (greedy teamCount baseW freeItems).2.
Proof.
  intros Hk q p baseW freeItems.
  assert (length baseW = teamCount) as Hb by apply solver_baseW_length.
  destruct (run_search_optimal teamCount baseW freeItems) as (_ & Hm & _);
    [lia|done|apply freeItems_of_nonneg|].
  unfold solve_search. fold q p baseW freeItems. rewrite Hm.
  destruct (greedy_ok teamCount baseW freeItems) as (_ & Hg & _); [lia|done|].
  unfold makespan. rewrite <- Hg.
  unfold run_search.
  match goal with |- bestMakespanW (dfs ?k ?a ?b ?r ?i ?s) ≤ _ =>
    pose proof (frame_best_le _ _ _ (dfs_frame k a b r i s)) as Hle end.
  exact Hle.
Qed.

Lemma search_improves_on_greedy_witness :
  (1 ≤ 3)%nat ∧
  makespan
    (baseW_of (quantum 40) 3
       (fixedLoads (partition_jobs 3
          [Job "a" 40 0; Job "b" 40 0; Job "c" 40 0; Job "d" 40 0; Job "e" 40 0])))
    (bestAssign (solve_search
       [Job "a" 40 0; Job "b" 40 0; Job "c" 40 0; Job "d" 40 0; Job "e" 40 0] 3 40))
  ≤ makespan
      (baseW_of (quantum 40) 3
         (fixedLoads (partition_jobs 3
            [Job "a" 40 0; Job "b" 40 0; Job "c" 40 0; Job "d" 40 0; Job "e" 40 0])))
      (greedy 3
         (baseW_of (quantum 40) 3
            (fixedLoads (partition_jobs 3
               [Job "a" 40 0; Job "b" 40 0; Job "c" 40 0; Job "d" 40 0; Job "e" 40 0])))
         (freeItems_of (quantum 40)
            (free (partition_jobs 3
               [Job "a" 40 0; Job "b" 40 0; Job "c" 40 0; Job "d" 40 0; Job "e" 40 0])))).2.
Proof.
  split; [lia|].
  apply (search_improves_on_greedy
           [Job "a" 40 0; Job "b" 40 0; Job "c" 40 0; Job "d" 40 0; Job "e" 40 0] 3 40).
  lia.
Defined.

(** ** Independence of the engine's sorting algorithm *)

Lemma StronglySorted_mono {A} (R1 R2 : A → A → Prop) l :
  (∀ a b, R1 a b → R2 a b) → StronglySorted R1 l → StronglySorted R2 l.
Proof.
  intros HR. induction 1 as [|x l Hs IH Hall]; constructor; [done|].
  eapply Forall_impl; [exact Hall|]. apply HR.
Qed.

Lemma filter_all_false {A} (P : A → Prop) `{∀ x, Decision (P x)} l :
  Forall (λ a, ¬ P a) l → filter P l = [].
Proof.
  induction 1 as [|x l Hx _ IH]; [done|]. by rewrite filter_cons_False.
Qed.

(** A list ordered by a key is determined by its tie classes. *)
Lemma sorted_stable_unique {A} (key : A → Z) (l1 l2 : list A) :
  StronglySorted (λ a b, key a ≤ key b) l1 →
  StronglySorted (λ a b, key a ≤ key b) l2 →
  (∀ v, filter (λ a, key a = v) l1 = filter (λ a, key a = v) l2) →
  l1 = l2.
Proof.
  intros H1. revert l2.
  induction H1 as [|x l1 Hs1 IH Hall1]; intros l2 H2 Hf.
  - destruct l2 as [|y l2]; [done|]. specialize (Hf (key y)).
    rewrite filter_nil, filter_cons_True in Hf by done. discriminate Hf.
  - destruct l2 as [|y l2].
    { specialize (Hf (key x)).
      rewrite filter_cons_True, filter_nil in Hf by done. discriminate Hf. }
    apply StronglySorted_inv in H2 as [Hs2 Hall2].
    assert (key y ≤ key x) as Hyx.
    { assert (x ∈ filter (λ a, key a = key x) (y :: l2)) as Hin.
      { rewrite <- Hf, filter_cons_True by done. left. }
      apply list_elem_of_filter in Hin as [_ Hin].
      apply elem_of_cons in Hin as [->|Hin]; [lia|].
      by apply (proj1 (Forall_forall _ _) Hall2). }
    assert (key x ≤ key y) as Hxy.
    { assert (y ∈ filter (λ a, key a = key y) (x :: l1)) as Hin.
      { rewrite Hf, filter_cons_True by done. left. }
      apply list_elem_of_filter in Hin as [_ Hin].
      apply elem_of_cons in Hin as [->|Hin]; [lia|].
      by apply (proj1 (Forall_forall _ _) Hall1). }
    assert (x = y) as ->.
    { pose proof (Hf (key x)) as Hx.
      rewrite !filter_cons_True in Hx by lia. by injection Hx. }
    f_equal. apply IH; [done|]. intros v. specialize (Hf v).
    rewrite !filter_cons in Hf.
    destruct (decide (key y = v)); [by injection Hf|done].
Qed.

Lemma js_sort_contract : sort_contract (@js_sort).
Proof.
  intros A cmp key l Hkey. split; [apply js_sort_perm|]. split.
  - apply (StronglySorted_mono (λ a b, key a ≤ key b)).
    + intros a b. rewrite Hkey. lia.
    + by apply js_sort_sorted.
  - intros x.
    rewrite (list_filter_iff (λ a, cmp a x = 0) (λ a, key a = key x))
      by (intros a; rewrite Hkey; lia).
    rewrite (list_filter_iff (λ a, cmp a x = 0) (λ a, key a = key x) l)
      by (intros a; rewrite Hkey; lia).
    by apply (js_sort_stable cmp key Hkey key).
Qed.

(** The contract leaves the engine no choice. *)
Lemma sort_is_js (sort : sort_fn) {A} (cmp : A → A → Z) (key : A → Z) l :
  sort_contract sort → (∀ a b, cmp a b = key a - key b) →
  sort A cmp l = js_sort cmp l.
Proof.
  intros Hc Hkey.
  destruct (Hc A cmp key l Hkey) as (_ & Hs1 & Hf1).
  destruct (js_sort_contract A cmp key l Hkey) as (_ & Hs2 & Hf2).
  apply (sorted_stable_unique key).
  - apply (StronglySorted_mono (λ a b, cmp a b ≤ 0)); [|exact Hs1].
    intros a b. rewrite Hkey. lia.
  - apply (StronglySorted_mono (λ a b, cmp a b ≤ 0)); [|exact Hs2].
    intros a b. rewrite Hkey. lia.
  - intros v. destruct (decide (Exists (λ x, key x = v) l)) as [Hex|Hno].
    + apply Exists_exists in Hex as (x & _ & <-).
      rewrite (list_filter_iff (λ a, key a = key x) (λ a, cmp a x = 0))
        by (intros a; rewrite Hkey; lia).
      rewrite (list_filter_iff (λ a, key a = key x) (λ a, cmp a x = 0)
                 (js_sort cmp l))
        by (intros a; rewrite Hkey; lia).
      by rewrite Hf1, Hf2.
    + assert (∀ l', l' ≡ₚ l → filter (λ a, key a = v) l' = []) as Hnil.
      { intros l' Hp. apply filter_all_false, Forall_forall. intros a Ha Hv.
        apply Hno, Exists_exists. exists a. split; [|done].
        by apply (proj1 (elem_of_Permutation_proper _ _ _ Hp)). }
      rewrite !Hnil; [done|apply js_sort_perm|].
      by destruct (Hc A cmp key l Hkey) as (? & _).
Qed.

Section engine_facts.
Variable sort : sort_fn.
Hypothesis sort_ok : sort_contract sort.

Lemma engine_freeItems_of q fr : Engine.freeItems_of sort q fr = freeItems_of q fr.
Proof.
  apply (sort_is_js sort by_weight_desc (λ a, - w a)); [done|].
  intros a b. unfold by_weight_desc. lia.
Qed.

Lemma engine_key idx lds : Engine.key sort idx lds = key idx lds.
Proof.
  unfold Engine.key, key. f_equal.
  apply (sort_is_js sort (λ a b, a - b) id); [done|]. by intros.
Qed.

Lemma engine_order_of teamCount lds :
  Engine.order_of sort teamCount lds = order_of teamCount lds.
Proof.
  apply (sort_is_js sort (λ a b, lds !!! a - lds !!! b) (λ a, lds !!! a));
    [done|]. by intros.
Qed.

Lemma branch_loop_ext (rec1 rec2 : search → search) it :
  (∀ st, rec1 st = rec2 st) →
  ∀ order triedLoads st,
    branch_loop rec1 it order triedLoads st
    = branch_loop rec2 it order triedLoads st.
Proof.
  intros Hrec. induction order as [|i order IH]; intros triedLoads st; simpl;
    [done|].
  destruct (decide (loads st !!! i ∈ triedLoads)); [apply IH|].
  destruct (bestMakespanW st <=? loads st !!! i + w it); [apply IH|].
  rewrite Hrec. apply IH.
Qed.

Lemma engine_dfs teamCount avgLB baseMax rest : ∀ idx st,
  Engine.dfs sort teamCount avgLB baseMax rest idx st
  = dfs teamCount avgLB baseMax rest idx st.
Proof.
  induction rest as [|it rest IH]; intros idx st; [done|].
  cbn [Engine.dfs dfs]. cbv zeta.
  rewrite engine_key. cbn [loads]. rewrite engine_order_of.
  destruct (bestMakespanW st <=? _); [done|].
  destruct (decide _); [done|].
  apply branch_loop_ext. intros st'. apply IH.
Qed.

Lemma engine_run_search teamCount baseW freeItems :
  Engine.run_search sort teamCount baseW freeItems
  = run_search teamCount baseW freeItems.
Proof. apply engine_dfs. Qed.

Lemma engine_solve_search jobsMinutes teamCount quant :
  Engine.solve_search sort jobsMinutes teamCount quant
  = solve_search jobsMinutes teamCount quant.
Proof.
  unfold Engine.solve_search, solve_search.
  by rewrite engine_freeItems_of, engine_run_search.
Qed.

Lemma engine_assemble_team fa fl ba :
  Engine.assemble_team sort fa fl ba = assemble_team fa fl ba.
Proof.
  unfold Engine.assemble_team, assemble_team. cbv zeta. f_equal.
  apply (sort_is_js sort by_minutes_desc (λ a, - out_minutes a)); [done|].
  intros a b. unfold by_minutes_desc. lia.
Qed.

Lemma engine_solve jobsMinutes teamCount quant :
  Engine.solveOptimalWithFixed sort jobsMinutes teamCount quant
  = solveOptimalWithFixed jobsMinutes teamCount quant.
Proof.
  unfold Engine.solveOptimalWithFixed, solveOptimalWithFixed,
    Engine.assemble, assemble.
  rewrite engine_solve_search. apply map_ext. intros i.
  apply engine_assemble_team.
Qed.

End engine_facts.

Section sort_left_facts.
Context {A : Type} (cmp : A → A → Z) (key : A → Z).
Hypothesis cmp_key : ∀ a b, cmp a b = key a - key b.

Lemma insert_last_perm x l : insert_last cmp x l ≡ₚ x :: l.
Proof.
  induction l as [|y l IH]; simpl; [done|].
  destruct (cmp y x <=? 0); [|done].
  rewrite IH. apply Permutation_swap.
Qed.

Lemma insert_last_sorted x l :
  StronglySorted (λ a b, key a ≤ key b) l →
  StronglySorted (λ a b, key a ≤ key b) (insert_last cmp x l).
Proof.
  induction 1 as [|y l Hs IH Hall]; simpl.
  - repeat constructor.
  - destruct (Z.leb_spec (cmp y x) 0) as [Hle|Hgt]; rewrite cmp_key in *.
    + constructor; [done|].
      rewrite insert_last_perm. constructor; [lia|done].
    + constructor; [by constructor|].
      constructor; [lia|].
      eapply Forall_impl; [exact Hall|]. simpl. intros; lia.
Qed.

Lemma insert_last_stable v x l :
  StronglySorted (λ a b, key a ≤ key b) l →
  filter (λ a, key a = v) (insert_last cmp x l)
  = filter (λ a, key a = v) l ++ filter (λ a, key a = v) [x].
Proof.
  induction 1 as [|y l Hs IH Hall]; simpl; [done|].
  destruct (Z.leb_spec (cmp y x) 0) as [Hle|Hgt]; rewrite cmp_key in *.
  - rewrite !filter_cons, IH. by destruct (decide (key y = v)).
  - rewrite (filter_cons _ x). destruct (decide (key x = v)) as [Hv|Hv].
    + rewrite (filter_all_false (λ a, key a = v) (y :: l)).
      * by rewrite filter_cons_True, filter_nil.
      * constructor; [lia|].
        eapply Forall_impl; [exact Hall|]. simpl. intros; lia.
    + by rewrite (filter_cons_False _ x []), filter_nil, app_nil_r.
Qed.

Lemma sort_left_spec l :
  sort_left A cmp l ≡ₚ l ∧
  StronglySorted (λ a b, key a ≤ key b) (sort_left A cmp l) ∧
  ∀ v, filter (λ a, key a = v) (sort_left A cmp l) = filter (λ a, key a = v) l.
Proof.
  unfold sort_left.
  induction l as [|x l (IHp & IHs & IHf)] using rev_ind.
  - split; [done|split; [constructor|done]].
  - rewrite foldl_snoc. split; [|split].
    + rewrite insert_last_perm, IHp. by rewrite Permutation_cons_append.
    + by apply insert_last_sorted.
    + intros v. by rewrite insert_last_stable, IHf, filter_app.
Qed.

End sort_left_facts.

Lemma sort_left_contract : sort_contract sort_left.
Proof.
  intros A cmp key l Hkey.
  destruct (sort_left_spec cmp key Hkey l) as (Hp & Hs & Hf).
  split; [done|]. split.
  - apply (StronglySorted_mono (λ a b, key a ≤ key b)); [|exact Hs].
    intros a b. rewrite Hkey. lia.
  - intros x.
    rewrite (list_filter_iff (λ a, cmp a x = 0) (λ a, key a = key x))
      by (intros a; rewrite Hkey; lia).
    rewrite (list_filter_iff (λ a, cmp a x = 0) (λ a, key a = key x) l)
      by (intros a; rewrite Hkey; lia).
    apply Hf.
Qed.

(** C9. Determinism: two invocations on identical input (same job list in
    the same order, same team count, same quantum) produce identical outputs:
    the same teams, with the same totals and job lists, and the same
    makespan.  The solver reads no clock and no random source and iterates
    over no unordered collection; the one thing an invocation takes from its
    engine is the algorithm behind [sort], and whatever algorithms the two
    invocations run on, as long as each sorts stably as the language
    requires, the outputs agree, with each other and with the solver at the
    insertion sort. *)
Theorem solver_deterministic (sort1 sort2 : sort_fn) (jobsMinutes : list job)
    (teamCount : nat) (quant : Z) :
  sort_contract sort1 → sort_contract sort2 →
  Engine.solveOptimalWithFixed sort1 jobsMinutes teamCount quant
    = Engine.solveOptimalWithFixed sort2 jobsMinutes teamCount quant ∧
  bestMakespanW (Engine.solve_search sort1 jobsMinutes teamCount quant)
    = bestMakespanW (Engine.solve_search sort2 jobsMinutes teamCount quant) ∧
  Engine.solveOptimalWithFixed sort1 jobsMinutes teamCount quant
    = solveOptimalWithFixed jobsMinutes teamCount quant.
Proof.
  intros H1 H2.
  rewrite !engine_solve, !engine_solve_search by done. done.
Qed.

Lemma solver_deterministic_witness :
  Engine.solveOptimalWithFixed (@js_sort) [Job "A" 60 0; Job "B" 30 1; Job "C" 60 0] 2 30
    = Engine.solveOptimalWithFixed sort_left [Job "A" 60 0; Job "B" 30 1; Job "C" 60 0] 2 30 ∧
  bestMakespanW (Engine.solve_search (@js_sort) [Job "A" 60 0; Job "B" 30 1; Job "C" 60 0] 2 30)
    = bestMakespanW (Engine.solve_search sort_left [Job "A" 60 0; Job "B" 30 1; Job "C" 60 0] 2 30) ∧
  Engine.solveOptimalWithFixed (@js_sort) [Job "A" 60 0; Job "B" 30 1; Job "C" 60 0] 2 30
    = solveOptimalWithFixed [Job "A" 60 0; Job "B" 30 1; Job "C" 60 0] 2 30.
Proof.
  apply (solver_deterministic (@js_sort) sort_left
           [Job "A" 60 0; Job "B" 30 1; Job "C" 60 0] 2 30).
  - exact js_sort_contract.
  - exact sort_left_contract.
Defined.

(** Stability is what the agreement rests on: on an engine whose sort orders
    correctly but reverses ties, the plan for three jobs of equal duration
    lists them in another order. *)
Example unstable_sort_changes_plan :
  Engine.solveOptimalWithFixed sort_reversing
    [Job "A" 30 0; Job "B" 30 1; Job "C" 30 0] 1 1
    = [Team [OutJob "A" 30; OutJob "C" 30; OutJob "B" 30] 90] ∧
  solveOptimalWithFixed [Job "A" 30 0; Job "B" 30 1; Job "C" 30 0] 1 1
    = [Team [OutJob "B" 30; OutJob "A" 30; OutJob "C" 30] 90].
Proof. split; reflexivity. Qed.

Lemma map_const_seq {A} (f : nat → A) c l :
  (∀ i, i ∈ l → f i = c) → map f l = replicate (length l) c.
Proof.
  induction l as [|i l IH]; intros Hf; simpl; [done|].
  rewrite (Hf i) by left. f_equal. apply IH. intros j Hj. apply Hf. by right.
Qed.

(** C10. With an empty job list the solver does not fail: for every team
    count of at least one it returns exactly that many teams, each with an
    empty job list and zero total minutes. *)
Theorem empty_job_list (teamCount : nat) (quant : Z) :
  (1 ≤ teamCount)%nat →
  solveOptimalWithFixed [] teamCount quant = replicate teamCount (Team [] 0).
Proof.
  intros Hk. unfold solveOptimalWithFixed, solve_search, run_search.
  change (partition_jobs teamCount [])
    with (Parts (replicate teamCount 0) (replicate teamCount []) []).
  cbn [free fixedLoads fixedAssign]. unfold freeItems_of. cbn [map js_sort dfs].
  set (st := search_init _ _ _).
  assert (bestAssign (if max_of (loads st) <? bestMakespanW st
                      then Search (loads st) (assign st) (max_of (loads st))
                                  (assign st) (seen st)
                      else st) = replicate teamCount []) as ->.
  { destruct (max_of (loads st) <? bestMakespanW st); reflexivity. }
  unfold assemble. cbn [fixedLoads fixedAssign].
  pose proof (map_const_seq
    (λ i, assemble_team (replicate teamCount [] !!! i)
            (replicate teamCount 0 !!! i) (replicate teamCount [] !!! i))
    (Team [] 0) (seq 0 teamCount)) as Hmap.
  rewrite length_seq in Hmap. apply Hmap. intros i Hi%elem_of_seq.
  rewrite !lookup_total_replicate_2 by lia. reflexivity.
Qed.

Lemma empty_job_list_witness :
  (1 ≤ 3)%nat ∧
  solveOptimalWithFixed [] 3 15 = [Team [] 0; Team [] 0; Team [] 0].
Proof. split; [lia|]. apply (empty_job_list 3 15). lia. Defined.

Lemma concat_insert_replicate {A} (l : list A) n i :
  (i < n)%nat → concat (<[i := l]> (replicate n [])) = l.
Proof.
  revert i. induction n as [|n IH]; intros [|i] Hi; simpl; try lia.
  - by rewrite concat_replicate_nil, app_nil_r.
  - apply IH. lia.
Qed.

Lemma free_items_member teamCount q jobsMinutes j :
  j ∈ jobsMinutes → isFixed teamCount j = false →
  j ∈ free (partition_jobs teamCount jobsMinutes) ∧
  mkItem q j ∈ freeItems_of q (free (partition_jobs teamCount jobsMinutes)).
Proof.
  intros Hj Hfree.
  assert (j ∈ free (partition_jobs teamCount jobsMinutes)) as Hin.
  { destruct (partition_jobs_spec teamCount jobsMinutes) as (_ & _ & -> & _).
    apply list_elem_of_filter. done. }
  split; [done|].
  apply (proj2 (elem_of_Permutation_proper _ _ _ (freeItems_of_perm q _))).
  apply list_elem_of_In, in_map, list_elem_of_In, Hin.
Qed.

(** C3. Fixed-assignment fidelity: a job whose [fixedTeam] [t] lies in
    [1, teamCount] appears in the output list of team [t], whose total counts
    it, whatever assignment of the free items the search returns; a job whose
    [fixedTeam] is outside that range is a free item, which the assignments
    the search ranges over may place on any team. *)
Theorem fixed_assignment_fidelity (jobsMinutes : list job) (teamCount : nat) (quant : Z) :
  let q := quantum quant in
  let p := partition_jobs teamCount jobsMinutes in
  let freeItems := freeItems_of q (free p) in
  solveOptimalWithFixed jobsMinutes teamCount quant
    = assemble teamCount p (bestAssign (solve_search jobsMinutes teamCount quant)) ∧
  (∀ best j, j ∈ jobsMinutes → 1 ≤ fixedTeam j ≤ Z.of_nat teamCount →
     ∃ t, assemble teamCount p best !! Z.to_nat (fixedTeam j - 1) = Some t ∧
          toOut j ∈ jobs t ∧
          totalMinutes t = sum_by out_minutes (jobs t)) ∧
  (∀ j, j ∈ jobsMinutes → ¬ (1 ≤ fixedTeam j ≤ Z.of_nat teamCount) →
     j ∈ free p ∧ mkItem q j ∈ freeItems ∧
     ∀ i, (i < teamCount)%nat →
       ∃ A, is_assignment teamCount freeItems A ∧ mkItem q j ∈ A !!! i).
Proof.
  intros q p freeItems. split; [done|]. split.
  - intros best j Hj Hrange.
    assert (isFixed teamCount j = true) as Hfix by by apply isFixed_range.
    pose proof (isFixed_index _ _ Hfix) as Hi.
    eexists. split; [by apply assemble_lookup|].
    destruct (partition_jobs_spec teamCount jobsMinutes) as (_ & _ & _ & Hl).
    destruct (Hl _ Hi) as [Ha _]. fold p in Ha.
    split.
    + rewrite assemble_team_eq. simpl.
      apply (proj2 (elem_of_Permutation_proper _ _ _
                      (js_sort_perm by_minutes_desc _))).
      apply elem_of_app. left. rewrite Ha.
      apply list_elem_of_In, in_map, list_elem_of_In.
      apply list_elem_of_filter. split; [|done]. split; done.
    + apply assemble_team_total, fixedLoads_exact, Hi.
  - intros j Hj Hout.
    assert (isFixed teamCount j = false) as Hfree.
    { destruct (isFixed teamCount j) eqn:Hfix; [|done].
      apply isFixed_range in Hfix. done. }
    destruct (free_items_member teamCount q jobsMinutes j Hj Hfree) as [Hin Hit].
    split; [done|]. split; [done|].
    intros i Hi. exists (<[i := freeItems]> (replicate teamCount [])).
    split.
    + split.
      * by rewrite length_insert, length_replicate.
      * by rewrite concat_insert_replicate.
    + rewrite list_lookup_total_insert_eq by (rewrite length_replicate; lia).
      done.
Qed.

Lemma fixed_assignment_fidelity_witness :
  ∃ t, assemble 2 (partition_jobs 2 [Job "X" 100 1; Job "P" 50 0; Job "Y" 20 2])
         [[]; [Item "P" 50 5]] !! Z.to_nat (fixedTeam (Job "Y" 20 2) - 1) = Some t ∧
       toOut (Job "Y" 20 2) ∈ jobs t ∧
       totalMinutes t = sum_by out_minutes (jobs t).
Proof.
  apply (proj1 (proj2 (fixed_assignment_fidelity
                         [Job "X" 100 1; Job "P" 50 0; Job "Y" 20 2] 2 10))).
  - right. right. left.
  - simpl. lia.
Defined.

(** Whatever the quantum given, the weights follow the effective quantum
    [Math.max(1, quant | 0)], which is at least 1. *)
Lemma weights_effective_quantum jobsMinutes teamCount quant it :
  it ∈ freeItems_of (quantum quant) (free (partition_jobs teamCount jobsMinutes)) →
  1 ≤ quantum quant ∧ w it = spec_weight (quantum quant) (item_minutes it).
Proof.
  intros Hit. split; [apply quantum_pos|].
  apply (proj1 (elem_of_Permutation_proper _ _ _ (freeItems_of_perm _ _))) in Hit.
  by apply list_elem_of_In, in_map_iff in Hit as (j & <- & _).
Qed.

(** C4, as stated, fails for a quantum beyond the signed 32-bit range:
    [quant | 0] wraps 2^32 to 0, the effective quantum is then 1, and a
    60-minute job weighs 60 units instead of [max(1, round(60 / 2^32)) = 1]. *)
Lemma quantization_counterexample :
  ¬ weights_follow_quantum [Job "A" 60 0] 1 4294967296.
Proof.
  intros H. specialize (H (Item "A" 60 60)).
  assert (Item "A" 60 60
          ∈ freeItems_of (quantum 4294967296)
              (free (partition_jobs 1 [Job "A" 60 0]))) as Hin.
  { vm_compute. left. }
  specialize (H Hin). vm_compute in H. discriminate H.
Qed.

(** C4 (amended). Quantization: for a quantum [q] with [1 <= q < 2^31] and
    positive durations, every free item's weight equals
    [max(1, round(minutes / q))]; each team's fixed weight equals
    [round(total fixed minutes / q)], forced to 1 when the team has nonzero
    fixed minutes and the rounding produced 0.  In particular, with quantum 1
    every free item's weight equals its duration in minutes. *)
Theorem quantization (jobsMinutes : list job) (teamCount : nat) (quant : Z) :
  1 ≤ quant < 2 ^ 31 →
  (∀ j, j ∈ jobsMinutes → 0 < job_minutes j) →
  let p := partition_jobs teamCount jobsMinutes in
  let freeItems := freeItems_of (quantum quant) (free p) in
  weights_follow_quantum jobsMinutes teamCount quant ∧
  (∀ i, (i < teamCount)%nat →
     baseW_of (quantum quant) teamCount (fixedLoads p) !!! i
     = spec_fixed_weight quant
         (sum_by job_minutes (filter (fixedAt teamCount i) jobsMinutes))) ∧
  (quant = 1 → ∀ it, it ∈ freeItems → w it = item_minutes it).
Proof.
  intros Hq Hpos p freeItems.
  unfold weights_follow_quantum. subst freeItems.
  rewrite (quantum_id quant Hq). fold p.
  set (freeItems := freeItems_of quant (free p)).
  assert (∀ it, it ∈ freeItems →
            w it = spec_weight quant (item_minutes it) ∧ 0 < item_minutes it) as Hw.
  { intros it Hit.
    apply (proj1 (elem_of_Permutation_proper _ _ _ (freeItems_of_perm _ _))) in Hit.
    apply list_elem_of_In, in_map_iff in Hit as (j & <- & Hj).
    split; [done|]. simpl. apply Hpos.
    apply list_elem_of_In in Hj.
    destruct (partition_jobs_spec teamCount jobsMinutes) as (_ & _ & Hf & _).
    fold p in Hf. rewrite Hf in Hj. by apply list_elem_of_filter in Hj as [_ ?]. }
  split; [|split].
  - intros it Hit. by apply Hw.
  - intros i Hi.
    destruct (partition_jobs_spec teamCount jobsMinutes) as (Hlen & _ & _ & Hl).
    destruct (Hl i Hi) as [_ Hload]. fold p in Hlen, Hload.
    rewrite baseW_of_lookup by done. rewrite Hload.
    set (m := sum_by job_minutes (filter (fixedAt teamCount i) jobsMinutes)).
    assert (0 ≤ m) as Hm.
    { apply sum_by_nonneg, Forall_forall. intros j Hj.
      apply list_elem_of_filter in Hj as [_ Hj]. specialize (Hpos j Hj). lia. }
    unfold spec_fixed_weight.
    destruct (Z.ltb_spec 0 m), (Z.eqb_spec (round_div m quant) 0); simpl;
      case_decide; try done; lia.
  - intros -> it Hit. destruct (Hw it Hit) as [-> Hmin].
    unfold spec_weight. rewrite round_div_1. lia.
Qed.

Lemma quantization_witness :
  (1 ≤ 30 < 2 ^ 31) ∧
  weights_follow_quantum
    [Job "A" 60 0; Job "B" 60 0; Job "C" 30 0; Job "D" 30 0] 2 30.
Proof.
  split; [lia|].
  apply (quantization [Job "A" 60 0; Job "B" 60 0; Job "C" 30 0; Job "D" 30 0] 2 30).
  - lia.
  - intros j Hj.
    repeat (apply elem_of_cons in Hj as [->|Hj]; [simpl; lia|]).
    inversion Hj.
Defined.

(** The inner loop of the greedy baseline finds the least loaded team, the
    lowest-indexed one on ties. *)
Lemma least_loaded_prefix (L : list Z) n :
  let b := foldl (λ best i, if L !!! i <? L !!! best then i else best)
                 0%nat (seq 1 n) in
  (b ≤ n)%nat ∧
  (∀ i, (i ≤ n)%nat → L !!! b ≤ L !!! i) ∧
  (∀ i, (i < b)%nat → L !!! b < L !!! i).
Proof.
  cbv zeta. induction n as [|n (IHb & IHmin & IHfirst)].
  - simpl. split; [lia|]. split.
    + intros i Hi. replace i with 0%nat by lia. lia.
    + intros i Hi. lia.
  - rewrite seq_S, foldl_snoc.
    set (b := foldl _ 0%nat (seq 1 n)) in *.
    replace (1 + n)%nat with (S n) by lia.
    destruct (Z.ltb_spec (L !!! S n) (L !!! b)) as [Hlt|Hge].
    + split; [lia|]. split.
      * intros i Hi. destruct (decide (i = S n)) as [->|Hne]; [lia|].
        specialize (IHmin i). lia.
      * intros i Hi. specialize (IHmin i). lia.
    + split; [lia|]. split.
      * intros i Hi. destruct (decide (i = S n)) as [->|Hne]; [lia|].
        apply IHmin. lia.
      * done.
Qed.

Lemma least_loaded_spec teamCount L :
  (0 < teamCount)%nat → is_least_loaded teamCount L (least_loaded teamCount L).
Proof.
  intros Hk. unfold least_loaded.
  destruct (least_loaded_prefix L (teamCount - 1)) as (Hb & Hmin & Hfirst).
  split; [lia|]. split; [|done].
  intros i Hi. apply Hmin. lia.
Qed.

Lemma greedy_lpt teamCount items s :
  (0 < teamCount)%nat →
  lpt teamCount items s (foldl (greedy_step teamCount) s items).
Proof.
  intros Hk. revert s. induction items as [|it items IH]; intros [L A]; simpl.
  - constructor.
  - apply lpt_place with (least_loaded teamCount L).
    + by apply least_loaded_spec.
    + rewrite <- (alter_insert_total L (λ x, x + w it)).
      rewrite <- (alter_insert_total A (λ l, l ++ [it])).
      apply IH.
Qed.

(** C5. Greedy baseline (LPT): the free items, taken in input order, are
    sorted by weight descending, ties keeping their relative input order;
    starting from the quantized fixed weights as initial loads, each item in
    that order goes to the team with the smallest current load, the
    lowest-indexed one on ties; the makespan of this greedy assignment is the
    initial [bestMakespanW] of the search, and the assignment its initial
    [bestAssign]. *)
Theorem greedy_baseline (jobsMinutes : list job) (teamCount : nat) (quant : Z) :
  (1 ≤ teamCount)%nat →
  let q := quantum quant in
  let p := partition_jobs teamCount jobsMinutes in
  let baseW := baseW_of q teamCount (fixedLoads p) in
  let freeItems := freeItems_of q (free p) in
  free p = filter (isFree teamCount) jobsMinutes ∧
  StronglySorted (λ a b, w b ≤ w a) freeItems ∧
  freeItems ≡ₚ map (mkItem q) (free p) ∧
  (∀ v, filter (λ a, w a = v) freeItems
        = filter (λ a, w a = v) (map (mkItem q) (free p))) ∧
  lpt teamCount freeItems (baseW, replicate teamCount [])
      (greedy teamCount baseW freeItems) ∧
  bestMakespanW (search_init teamCount baseW freeItems)
    = makespan baseW (greedy teamCount baseW freeItems).2 ∧
  bestAssign (search_init teamCount baseW freeItems)
    = (greedy teamCount baseW freeItems).2 ∧
  solve_search jobsMinutes teamCount quant
    = dfs teamCount
        (ceil_div (sum_by id baseW + sum_by w freeItems) (Z.of_nat teamCount))
        (max_of baseW) freeItems 0 (search_init teamCount baseW freeItems).
Proof.
  intros Hk q p baseW freeItems.
  split. { by destruct (partition_jobs_spec teamCount jobsMinutes) as (_ & _ & ? & _). }
  split. { apply (js_sort_desc_sorted w). }
  split. { apply freeItems_of_perm. }
  split. { intros v. apply (js_sort_desc_stable w). }
  split. { apply greedy_lpt. lia. }
  split.
  { destruct (greedy_ok teamCount baseW freeItems) as (_ & Hg & _);
      [lia|apply solver_baseW_length|].
    unfold makespan. rewrite <- Hg. done. }
  split; reflexivity.
Qed.

Lemma greedy_baseline_witness :
  (1 ≤ 2)%nat ∧
  lpt 2
    (freeItems_of (quantum 30)
       (free (partition_jobs 2
          [Job "A" 60 0; Job "B" 60 0; Job "C" 30 0; Job "D" 30 0])))
    (baseW_of (quantum 30) 2
       (fixedLoads (partition_jobs 2
          [Job "A" 60 0; Job "B" 60 0; Job "C" 30 0; Job "D" 30 0])),
     replicate 2 [])
    (greedy 2
       (baseW_of (quantum 30) 2
          (fixedLoads (partition_jobs 2
             [Job "A" 60 0; Job "B" 60 0; Job "C" 30 0; Job "D" 30 0])))
       (freeItems_of (quantum 30)
          (free (partition_jobs 2
             [Job "A" 60 0; Job "B" 60 0; Job "C" 30 0; Job "D" 30 0])))).
Proof.
  split; [lia|].
  apply (greedy_baseline
           [Job "A" 60 0; Job "B" 60 0; Job "C" 30 0; Job "D" 30 0] 2 30).
  lia.
Defined.

(** C6. Strict-improvement tie-breaking: a branch whose new load is greater
    than or equal to the current best makespan is skipped; a complete
    assignment replaces the best solution only when its makespan is strictly
    smaller; every call of [dfs] therefore either keeps the best solution as
    it is or replaces it by a strictly better one; consequently, when the
    greedy baseline is already optimal, it is the assignment returned. *)
Theorem strict_improvement :
  (∀ rec it i order tried st,
     loads st !!! i ∉ tried →
     bestMakespanW st ≤ loads st !!! i + w it →
     branch_loop rec it (i :: order) tried st
     = branch_loop rec it order (tried ∪ {[loads st !!! i]}) st) ∧
  (∀ teamCount avgLB baseMax idx st,
     (bestMakespanW st ≤ max_of (loads st) →
      dfs teamCount avgLB baseMax [] idx st = st) ∧
     (max_of (loads st) < bestMakespanW st →
      bestMakespanW (dfs teamCount avgLB baseMax [] idx st) = max_of (loads st) ∧
      bestAssign (dfs teamCount avgLB baseMax [] idx st) = assign st)) ∧
  (∀ teamCount avgLB baseMax rest idx st,
     bestMakespanW (dfs teamCount avgLB baseMax rest idx st) < bestMakespanW st ∨
     (bestMakespanW (dfs teamCount avgLB baseMax rest idx st) = bestMakespanW st ∧
      bestAssign (dfs teamCount avgLB baseMax rest idx st) = bestAssign st)) ∧
  (∀ jobsMinutes teamCount quant,
     (1 ≤ teamCount)%nat →
     let q := quantum quant in
     let p := partition_jobs teamCount jobsMinutes in
     let baseW := baseW_of q teamCount (fixedLoads p) in
     let freeItems := freeItems_of q (free p) in
     (∀ A, is_assignment teamCount freeItems A →
           makespan baseW (greedy teamCount baseW freeItems).2 ≤ makespan baseW A) →
     bestAssign (solve_search jobsMinutes teamCount quant)
     = (greedy teamCount baseW freeItems).2).
Proof.
  split; [|split; [|split]].
  - intros rec it i order tried st Hnin Hge. simpl.
    rewrite decide_False by done.
    destruct (Z.leb_spec (bestMakespanW st) (loads st !!! i + w it)); [done|lia].
  - intros teamCount avgLB baseMax idx st. simpl. split; intros H.
    + destruct (Z.ltb_spec (max_of (loads st)) (bestMakespanW st)); [lia|done].
    + destruct (Z.ltb_spec (max_of (loads st)) (bestMakespanW st)); [done|lia].
  - intros teamCount avgLB baseMax rest idx st.
    by destruct (dfs_frame teamCount avgLB baseMax rest idx st) as (_ & _ & ? & _).
  - intros jobsMinutes teamCount quant Hk q p baseW freeItems Hopt.
    assert (length baseW = teamCount) as Hb by apply solver_baseW_length.
    destruct (run_search_optimal teamCount baseW freeItems) as (Ha & Hm & _);
      [lia|done|apply freeItems_of_nonneg|].
    destruct (greedy_ok teamCount baseW freeItems) as (_ & Hg & _); [lia|done|].
    unfold solve_search. fold q p baseW freeItems.
    unfold run_search in *.
    match goal with |- bestAssign (dfs ?k ?a ?b ?r ?i ?s) = _ =>
      destruct (dfs_frame k a b r i s) as (_ & _ & [Hlt|[_ Heq]] & _) end.
    + specialize (Hopt _ Ha). rewrite Hm in Hopt.
      unfold makespan in Hopt. rewrite <- Hg in Hopt. simpl in Hlt. lia.
    + exact Heq.
Qed.

Lemma strict_improvement_witness :
  branch_loop id (Item "A" 60 2) [0%nat] ∅ (Search [3] [[]] 4 [[]] ∅)
  = branch_loop id (Item "A" 60 2) [] (∅ ∪ {[3]}) (Search [3] [[]] 4 [[]] ∅) ∧
  bestAssign (solve_search [Job "X" 100 1] 1 10)
  = (greedy 1
       (baseW_of (quantum 10) 1 (fixedLoads (partition_jobs 1 [Job "X" 100 1])))
       (freeItems_of (quantum 10) (free (partition_jobs 1 [Job "X" 100 1])))).2.
Proof.
  split.
  - apply (proj1 strict_improvement id (Item "A" 60 2) 0%nat [] ∅
             (Search [3] [[]] 4 [[]] ∅)).
    + simpl. set_solver.
    + simpl. vm_compute. discriminate.
  - apply (proj2 (proj2 (proj2 strict_improvement)) [Job "X" 100 1] 1%nat 10).
    + lia.
    + intros A [Hlen Hperm].
      change (freeItems_of (quantum 10) (free (partition_jobs 1 [Job "X" 100 1])))
        with (@nil item) in *.
      apply Permutation_nil_r in Hperm.
      destruct A as [|a [|a' A]]; simpl in Hlen; try lia.
      simpl in Hperm. rewrite app_nil_r in Hperm. subst a.
      vm_compute. discriminate.
Defined.

(** C7, as stated, fails on ties between a fixed job and a free job: the
    fixed jobs of a team are listed before the free items assigned to it,
    whatever their order in the input.  With the free job A before the fixed
    job B, both of 30 minutes, the single team lists B before A. *)
Lemma solution_assembly_counterexample :
  ¬ (∀ t, t ∈ solveOptimalWithFixed [Job "A" 30 0; Job "B" 30 1] 1 1 →
          ties_in_input_order [Job "A" 30 0; Job "B" 30 1] t).
Proof.
  intros H.
  specialize (H (Team [OutJob "B" 30; OutJob "A" 30] 60)).
  assert (Team [OutJob "B" 30; OutJob "A" 30] 60
          ∈ solveOptimalWithFixed [Job "A" 30 0; Job "B" 30 1] 1 1) as Hin.
  { vm_compute. left. }
  specialize (H Hin 30).
  change (filter (λ o, out_minutes o = 30)
            (jobs (Team [OutJob "B" 30; OutJob "A" 30] 60)))
    with [OutJob "B" 30; OutJob "A" 30] in H.
  change (map toOut [Job "A" 30 0; Job "B" 30 1])
    with [OutJob "A" 30; OutJob "B" 30] in H.
  apply sublist_cons_r in H as [H|(l' & Heq & H)].
  - apply sublist_length in H. simpl in H. lia.
  - discriminate Heq.
Qed.

(** C7 (amended). Solution assembly: for each team, the output job list
    contains the team's fixed jobs and the free items assigned to it by the
    best solution; [totalMinutes] is the exact sum of the unquantized
    durations of these jobs; the list is sorted by duration descending, and
    among jobs of equal duration the team's fixed jobs come first, in their
    input order, followed by the free items assigned to the team, in their
    input order. *)
Theorem solution_assembly (jobsMinutes : list job) (teamCount : nat) (quant : Z)
    (i : nat) :
  (i < teamCount)%nat →
  let p := partition_jobs teamCount jobsMinutes in
  let best := bestAssign (solve_search jobsMinutes teamCount quant) in
  let unsorted := fixedAssign p !!! i ++ map itemOut (best !!! i) in
  ∃ t, solveOptimalWithFixed jobsMinutes teamCount quant !! i = Some t ∧
       fixedAssign p !!! i = map toOut (filter (fixedAt teamCount i) jobsMinutes) ∧
       jobs t ≡ₚ unsorted ∧
       totalMinutes t = sum_by out_minutes (jobs t) ∧
       totalMinutes t = sum_by out_minutes unsorted ∧
       StronglySorted (λ a b, out_minutes b ≤ out_minutes a) (jobs t) ∧
       ∀ v, filter (λ o, out_minutes o = v) (jobs t)
            = map toOut (filter (λ j, job_minutes j = v ∧ fixedAt teamCount i j)
                           jobsMinutes)
              ++ map itemOut (filter (λ it, item_minutes it = v) (best !!! i)) ∧
            map itemOut (filter (λ it, item_minutes it = v) (best !!! i))
              `sublist_of`
            map toOut (filter (λ j, job_minutes j = v ∧ isFree teamCount j)
                         jobsMinutes).
Proof.
  intros Hi p best unsorted.
  eexists. split; [by apply solve_team_lookup|]. simpl. fold p best unsorted.
  destruct (partition_jobs_spec teamCount jobsMinutes) as (_ & _ & Hfree & Hl).
  destruct (Hl i Hi) as [Ha _]. fold p in Ha, Hfree.
  assert (fixedLoads p !!! i + sum_by item_minutes (best !!! i)
          = sum_by out_minutes unsorted) as Htotal.
  { pose proof (fixedLoads_exact teamCount jobsMinutes i Hi) as Hfl.
    fold p in Hfl. unfold unsorted. rewrite sum_by_app, sum_by_map, Hfl.
    reflexivity. }
  split; [done|]. split; [apply js_sort_perm|]. split; [|split; [done|split]].
  - rewrite Htotal. symmetry. apply sum_by_perm, js_sort_perm.
  - apply (js_sort_desc_sorted out_minutes).
  - intros v. split.
    + rewrite (js_sort_desc_stable out_minutes). unfold unsorted.
      rewrite filter_app, Ha, !filter_map, list_filter_filter. done.
    + destruct (solve_search_spec jobsMinutes teamCount quant) as ([Hlen _] & _);
        [lia|].
      destruct (run_search_best_ok teamCount
                  (baseW_of (quantum quant) teamCount (fixedLoads p))
                  (freeItems_of (quantum quant) (free p))) as (_ & _ & Hord);
        [lia|apply solver_baseW_length|].
      assert (best !!! i `sublist_of` freeItems_of (quantum quant) (free p)) as Hsub.
      { apply (Forall_lookup_total_1 _ _ i) in Hord; [exact Hord|].
        unfold solve_search in Hlen. fold p in Hlen. rewrite Hlen. exact Hi. }
      apply (sublist_filter_mono (λ it, item_minutes it = v)) in Hsub.
      rewrite freeItems_of_minutes_stable in Hsub.
      apply (sublist_map itemOut) in Hsub.
      rewrite itemOut_mkItem, Hfree, list_filter_filter in Hsub.
      exact Hsub.
Qed.

Lemma solution_assembly_witness :
  (0 < 1)%nat ∧
  ∃ t, solveOptimalWithFixed [Job "A" 30 0; Job "B" 30 1] 1 1 !! 0%nat = Some t ∧
       totalMinutes t = sum_by out_minutes (jobs t) ∧
       StronglySorted (λ a b, out_minutes b ≤ out_minutes a) (jobs t).
Proof.
  split; [lia|].
  destruct (solution_assembly [Job "A" 30 0; Job "B" 30 1] 1 1 0)
    as (t & Ht & _ & _ & Htot & _ & Hsorted & _).
  - lia.
  - exists t. split; [exact Ht|]. split; [exact Htot|exact Hsorted].
Defined.

(** ** The scenarios of the specification *)

Example scenario_A :
  solveOptimalWithFixed
    [Job "A" 60 0; Job "B" 60 0; Job "C" 30 0; Job "D" 30 0] 2 30
  = [Team [OutJob "A" 60; OutJob "C" 30] 90;
     Team [OutJob "B" 60; OutJob "D" 30] 90].
Proof. vm_compute. reflexivity. Qed.

Example scenario_B :
  solveOptimalWithFixed
    [Job "X" 100 1; Job "P" 50 0; Job "Q" 50 0; Job "R" 50 0] 2 10
  = [Team [OutJob "X" 100; OutJob "R" 50] 150;
     Team [OutJob "P" 50; OutJob "Q" 50] 100].
Proof. vm_compute. reflexivity. Qed.

Example scenario_C :
  map totalMinutes
    (solveOptimalWithFixed
       [Job "a" 40 0; Job "b" 40 0; Job "c" 40 0; Job "d" 40 0; Job "e" 40 0] 3 40)
  = [80; 80; 40].
Proof. vm_compute. reflexivity. Qed.

(** * Further properties of the solver *)

(** X1. Backtracking discipline: whatever it explores, a call of [dfs]
    returns with [loads] and [assign] exactly as it found them; the memo set
    only grows and the best makespan never increases. *)
Theorem dfs_backtracks (teamCount : nat) (avgLB baseMax : Z) (rest : list item)
    (idx : nat) (st : search) :
  loads (dfs teamCount avgLB baseMax rest idx st) = loads st ∧
  assign (dfs teamCount avgLB baseMax rest idx st) = assign st ∧
  seen st ⊆ seen (dfs teamCount avgLB baseMax rest idx st) ∧
  bestMakespanW (dfs teamCount avgLB baseMax rest idx st) ≤ bestMakespanW st.
Proof.
  pose proof (dfs_frame teamCount avgLB baseMax rest idx st) as Hfr.
  pose proof (frame_best_le _ _ _ Hfr) as Hle.
  destruct Hfr as (Hl & Ha & _ & Hs & _). done.
Qed.

Lemma toInt32_range z : - 2 ^ 31 ≤ toInt32 z < 2 ^ 31.
Proof.
  unfold toInt32. pose proof (Z.mod_pos_bound z (2 ^ 32) ltac:(lia)).
  destruct (Z.ltb_spec (z mod 2 ^ 32) (2 ^ 31)); lia.
Qed.

Lemma toInt32_periodic z n : toInt32 (z + n * 2 ^ 32) = toInt32 z.
Proof. unfold toInt32. by rewrite Z_mod_plus_full. Qed.

Lemma quantum_range quant : 1 ≤ quantum quant < 2 ^ 31.
Proof.
  unfold quantum. rewrite Z.lor_0_r. pose proof (toInt32_range quant). lia.
Qed.

Lemma solver_reads_quantum jobsMinutes teamCount quant quant' :
  quantum quant = quantum quant' →
  solveOptimalWithFixed jobsMinutes teamCount quant
  = solveOptimalWithFixed jobsMinutes teamCount quant'.
Proof.
  intros Hq. unfold solveOptimalWithFixed, solve_search. by rewrite Hq.
Qed.

(** X2. The quantum is read through [Math.max(1, quant | 0)] only: a quantum
    between [-2^31] and [0] gives the plan of quantum 1, the effective
    quantum gives the plan of the quantum it comes from, and two quanta that
    differ by a multiple of [2^32] give the same plan. *)
Theorem quantum_clamped (jobsMinutes : list job) (teamCount : nat) (quant : Z) :
  (- 2 ^ 31 ≤ quant ≤ 0 →
   solveOptimalWithFixed jobsMinutes teamCount quant
   = solveOptimalWithFixed jobsMinutes teamCount 1) ∧
  solveOptimalWithFixed jobsMinutes teamCount (quantum quant)
  = solveOptimalWithFixed jobsMinutes teamCount quant ∧
  (∀ n, solveOptimalWithFixed jobsMinutes teamCount (quant + n * 2 ^ 32)
        = solveOptimalWithFixed jobsMinutes teamCount quant).
Proof.
  split; [|split].
  - intros Hq. apply solver_reads_quantum.
    unfold quantum. rewrite !toInt32_small by lia. rewrite !Z.lor_0_r. lia.
  - apply solver_reads_quantum. apply quantum_id, quantum_range.
  - intros n. apply solver_reads_quantum.
    unfold quantum. by rewrite toInt32_periodic.
Qed.

Lemma quantum_clamped_witness :
  (- 2 ^ 31 ≤ -5 ≤ 0) ∧
  solveOptimalWithFixed [Job "A" 60 0; Job "B" 45 1] 2 (-5)
  = solveOptimalWithFixed [Job "A" 60 0; Job "B" 45 1] 2 1.
Proof.
  split; [lia|].
  apply (proj1 (quantum_clamped [Job "A" 60 0; Job "B" 45 1] 2 (-5))). lia.
Defined.

Lemma isFixed_unpin teamCount j : isFixed teamCount (unpin teamCount j) = isFixed teamCount j.
Proof.
  unfold unpin. destruct (isFixed teamCount j) eqn:Hfix; [done|].
  unfold isFixed. simpl. done.
Qed.

Lemma partition_jobs_unpin teamCount jobsMinutes :
  fixedLoads (partition_jobs teamCount (map (unpin teamCount) jobsMinutes))
    = fixedLoads (partition_jobs teamCount jobsMinutes) ∧
  fixedAssign (partition_jobs teamCount (map (unpin teamCount) jobsMinutes))
    = fixedAssign (partition_jobs teamCount jobsMinutes) ∧
  free (partition_jobs teamCount (map (unpin teamCount) jobsMinutes))
    = map (unpin teamCount) (free (partition_jobs teamCount jobsMinutes)).
Proof.
  induction jobsMinutes as [|j jobsMinutes (IH1 & IH2 & IH3)] using rev_ind.
  - done.
  - rewrite map_app. cbn [map]. rewrite !partition_jobs_snoc. unfold partition_step.
    rewrite isFixed_unpin.
    destruct (isFixed teamCount j) eqn:Hfix; cbn [fixedLoads fixedAssign free].
    + assert (unpin teamCount j = j) as -> by (unfold unpin; by rewrite Hfix).
      rewrite IH1, IH2, IH3. done.
    + rewrite IH1, IH2, IH3, map_app. done.
Qed.

(** X3. The [fixedTeam] of a job that is not pinned plays no role: rewriting
    every out-of-range [fixedTeam] (negative, or beyond the team count) to 0
    leaves the plan unchanged. *)
Theorem unpinned_value_irrelevant (jobsMinutes : list job) (teamCount : nat) (quant : Z) :
  solveOptimalWithFixed (map (unpin teamCount) jobsMinutes) teamCount quant
  = solveOptimalWithFixed jobsMinutes teamCount quant.
Proof.
  destruct (partition_jobs_unpin teamCount jobsMinutes) as (Hl & Ha & Hf).
  assert (∀ q fr, freeItems_of q (map (unpin teamCount) fr) = freeItems_of q fr) as Hitems.
  { intros q fr. unfold freeItems_of. rewrite map_map. f_equal.
    apply map_ext. intros j. unfold unpin. by destruct (isFixed teamCount j). }
  unfold solveOptimalWithFixed, solve_search, assemble.
  rewrite Hl, Ha, Hf, Hitems. done.
Qed.

(** X4. Quantization error: a free job of positive duration [m] gets a
    weight [w] with [|w * q - m| <= q / 2] for the effective quantum [q],
    unless the job is shorter than half a quantum, in which case its weight
    is 1. *)
Theorem quantization_error (jobsMinutes : list job) (teamCount : nat) (quant : Z)
    (it : item) :
  it ∈ freeItems_of (quantum quant) (free (partition_jobs teamCount jobsMinutes)) →
  0 < item_minutes it →
  (quantum quant ≤ 2 * item_minutes it →
   2 * Z.abs (w it * quantum quant - item_minutes it) ≤ quantum quant) ∧
  (2 * item_minutes it < quantum quant → w it = 1).
Proof.
  intros Hit Hm.
  pose proof (quantum_range quant) as Hq. set (q := quantum quant) in *.
  apply (proj1 (elem_of_Permutation_proper _ _ _ (freeItems_of_perm _ _))) in Hit.
  apply list_elem_of_In, in_map_iff in Hit as (j & <- & _). simpl in *.
  unfold round_div.
  pose proof (Z.div_mod (2 * job_minutes j + q) (2 * q) ltac:(lia)) as Hdm.
  pose proof (Z.mod_pos_bound (2 * job_minutes j + q) (2 * q) ltac:(lia)) as Hmod.
  set (r := (2 * job_minutes j + q) / (2 * q)) in *.
  split.
  - intros Hbig. assert (1 ≤ r) by (apply Z.div_le_lower_bound; lia).
    rewrite Z.max_r by lia. nia.
  - intros Hsmall. assert (r = 0) as -> by (apply Z.div_small; lia). lia.
Qed.

Lemma quantization_error_witness :
  2 * Z.abs (w (Item "A" 50 2) * quantum 30 - item_minutes (Item "A" 50 2))
  ≤ quantum 30.
Proof.
  apply (proj1 (quantization_error [Job "A" 50 0] 1 30 (Item "A" 50 2)
                  ltac:(vm_compute; left) ltac:(simpl; lia))).
  vm_compute. discriminate.
Defined.

(** The output lists, put together, rearrange the input jobs. *)
Lemma solve_jobs_perm jobsMinutes teamCount quant :
  (1 ≤ teamCount)%nat →
  concat (map jobs (solveOptimalWithFixed jobsMinutes teamCount quant))
  ≡ₚ map toOut jobsMinutes.
Proof.
  intros Hk.
  destruct (solve_search_spec jobsMinutes teamCount quant Hk) as ([Hlen Hperm] & _).
  destruct (partition_jobs_spec teamCount jobsMinutes) as (_ & HlenA & _).
  set (p := partition_jobs teamCount jobsMinutes) in *.
  set (best := bestAssign (solve_search jobsMinutes teamCount quant)) in *.
  unfold solveOptimalWithFixed, assemble. fold p best. rewrite map_map.
  rewrite (concat_perm_pointwise _
             (λ i, fixedAssign p !!! i) (λ i, map itemOut (best !!! i))).
  - rewrite <- HlenA at 1. rewrite map_lookup_total_seq.
    rewrite <- (map_map (λ i, best !!! i) (map itemOut)).
    rewrite <- Hlen at 1. rewrite map_lookup_total_seq.
    rewrite <- concat_map, Hperm.
    unfold freeItems_of. rewrite (js_sort_perm by_weight_desc).
    rewrite itemOut_mkItem. apply partition_jobs_perm.
  - intros i _. rewrite assemble_team_eq. simpl. apply js_sort_perm.
Qed.

Lemma solve_total_exact jobsMinutes teamCount quant t :
  t ∈ solveOptimalWithFixed jobsMinutes teamCount quant →
  totalMinutes t = sum_by out_minutes (jobs t).
Proof.
  intros Ht. unfold solveOptimalWithFixed, assemble in Ht.
  apply list_elem_of_In, in_map_iff in Ht as (i & <- & Hi).
  apply in_seq in Hi.
  apply assemble_team_total, fixedLoads_exact. lia.
Qed.

(** X5. Single-team degeneracy: with one team the plan is that team alone,
    holding every input job, sorted by duration descending, with the sum of
    all durations as its total. *)
Theorem single_team (jobsMinutes : list job) (quant : Z) :
  ∃ js, solveOptimalWithFixed jobsMinutes 1 quant
          = [Team js (sum_by job_minutes jobsMinutes)] ∧
        js ≡ₚ map toOut jobsMinutes ∧
        StronglySorted (λ a b, out_minutes b ≤ out_minutes a) js.
Proof.
  pose proof (solve_jobs_perm jobsMinutes 1 quant ltac:(lia)) as Hperm.
  pose proof (solve_total_exact jobsMinutes 1 quant) as Htot.
  unfold solveOptimalWithFixed, assemble in *. cbn [seq map] in *.
  rewrite assemble_team_eq in *. cbn [concat jobs] in Hperm.
  rewrite app_nil_r in Hperm.
  eexists. split; [|split; [exact Hperm|apply (js_sort_desc_sorted out_minutes)]].
  f_equal. f_equal.
  pose proof (Htot _ ltac:(left)) as Ht. cbn [jobs totalMinutes] in Ht.
  rewrite Ht, (sum_by_perm _ _ _ Hperm). by rewrite sum_by_map.
Qed.

Lemma filter_none {A} (P : A → Prop) `{!∀ x, Decision (P x)} l :
  (∀ x, x ∈ l → ¬ P x) → filter P l = [].
Proof.
  induction l as [|x l IH]; intros Hl; [done|].
  rewrite filter_cons_False by (apply Hl; left).
  apply IH. intros y Hy. apply Hl. by right.
Qed.

(** X6. When no job is free, each team ends up with exactly the jobs pinned
    to it, sorted by duration descending, and their total. *)
Theorem all_jobs_pinned (jobsMinutes : list job) (teamCount : nat) (quant : Z)
    (i : nat) :
  (∀ j, j ∈ jobsMinutes → 1 ≤ fixedTeam j ≤ Z.of_nat teamCount) →
  (i < teamCount)%nat →
  solveOptimalWithFixed jobsMinutes teamCount quant !! i
  = Some (Team
      (js_sort by_minutes_desc
         (map toOut (filter (fixedAt teamCount i) jobsMinutes)))
      (sum_by job_minutes (filter (fixedAt teamCount i) jobsMinutes))).
Proof.
  intros Hall Hi.
  destruct (partition_jobs_spec teamCount jobsMinutes) as (_ & _ & Hfree & Hl).
  destruct (Hl i Hi) as [Ha Hload].
  assert (free (partition_jobs teamCount jobsMinutes) = []) as Hnil.
  { rewrite Hfree. apply filter_none. intros j Hj Hf.
    apply Hall, isFixed_range in Hj. unfold isFree in Hf. congruence. }
  destruct (solve_search_spec jobsMinutes teamCount quant) as ([Hlen _] & _); [lia|].
  destruct (run_search_best_ok teamCount
              (baseW_of (quantum quant) teamCount
                 (fixedLoads (partition_jobs teamCount jobsMinutes)))
              (freeItems_of (quantum quant)
                 (free (partition_jobs teamCount jobsMinutes))))
    as (_ & _ & Hord); [lia|apply solver_baseW_length|].
  fold (solve_search jobsMinutes teamCount quant) in Hord.
  apply (Forall_lookup_total_1 _ _ i) in Hord; [|lia].
  rewrite Hnil in Hord. cbn in Hord. apply sublist_nil_r in Hord.
  rewrite solve_team_lookup by done.
  rewrite Hord, Ha, Hload. cbn [map]. rewrite app_nil_r, sum_by_nil, Z.add_0_r.
  done.
Qed.

Lemma all_jobs_pinned_witness :
  solveOptimalWithFixed [Job "A" 30 2; Job "B" 45 1; Job "C" 60 2] 2 15 !! 1%nat
  = Some (Team
      (js_sort by_minutes_desc
         (map toOut (filter (fixedAt 2 1) [Job "A" 30 2; Job "B" 45 1; Job "C" 60 2])))
      (sum_by job_minutes
         (filter (fixedAt 2 1) [Job "A" 30 2; Job "B" 45 1; Job "C" 60 2]))).
Proof.
  apply (all_jobs_pinned [Job "A" 30 2; Job "B" 45 1; Job "C" 60 2] 2 15 1).
  - intros j Hj.
    repeat (apply elem_of_cons in Hj as [->|Hj]; [simpl; lia|]).
    inversion Hj.
  - lia.
Defined.

Lemma greedy_nil teamCount baseW :
  greedy teamCount baseW [] = (baseW, replicate teamCount []).
Proof. reflexivity. Qed.

(** X7. Lower-bound certificate: the makespan of the returned assignment is
    never below the average load rounded up nor below the largest fixed
    weight; and when the greedy baseline already meets that bound, the
    search leaves its initial state untouched: it records no state and
    returns the greedy assignment. *)
Theorem lower_bound_certificate (jobsMinutes : list job) (teamCount : nat) (quant : Z) :
  (1 ≤ teamCount)%nat →
  let q := quantum quant in
  let p := partition_jobs teamCount jobsMinutes in
  let baseW := baseW_of q teamCount (fixedLoads p) in
  let freeItems := freeItems_of q (free p) in
  let lb := Z.max (ceil_div (sum_by id baseW + sum_by w freeItems)
                            (Z.of_nat teamCount))
                  (max_of baseW) in
  lb ≤ makespan baseW (bestAssign (solve_search jobsMinutes teamCount quant)) ∧
  (makespan baseW (greedy teamCount baseW freeItems).2 ≤ lb →
   solve_search jobsMinutes teamCount quant
   = search_init teamCount baseW freeItems).
Proof.
  intros Hk q p baseW freeItems lb.
  assert (length baseW = teamCount) as Hb by apply solver_baseW_length.
  split.
  - destruct (solve_search_spec jobsMinutes teamCount quant Hk) as ([Hlen Hperm] & _).
    fold q p baseW freeItems in Hperm.
    apply (run_search_bounds teamCount baseW freeItems);
      [lia|done|apply freeItems_of_nonneg|].
    apply assignment_reach; [lia|done].
  - intros Hmeet.
    destruct (greedy_ok teamCount baseW freeItems) as (_ & Hg & _); [lia|done|].
    unfold makespan in Hmeet. rewrite <- Hg in Hmeet.
    unfold solve_search, run_search. fold q p baseW freeItems.
    destruct freeItems as [|it rest] eqn:Hitems.
    + cbn [dfs]. unfold search_init at 1 2. cbn [loads bestMakespanW].
      rewrite greedy_nil. cbn [fst].
      destruct (Z.ltb_spec (max_of baseW) (max_of baseW)); [lia|done].
    + cbn [dfs]. unfold search_init at 1 2. cbn [loads bestMakespanW].
      fold lb.
      destruct (Z.leb_spec (max_of (greedy teamCount baseW (it :: rest)).1)
                  (Z.max lb (max_of baseW))); [done|lia].
Qed.

Lemma lower_bound_certificate_witness :
  (1 ≤ 2)%nat ∧
  solve_search [Job "A" 60 0; Job "B" 60 0; Job "C" 30 0; Job "D" 30 0] 2 30
  = search_init 2
      (baseW_of (quantum 30) 2
         (fixedLoads (partition_jobs 2
            [Job "A" 60 0; Job "B" 60 0; Job "C" 30 0; Job "D" 30 0])))
      (freeItems_of (quantum 30)
         (free (partition_jobs 2
            [Job "A" 60 0; Job "B" 60 0; Job "C" 30 0; Job "D" 30 0]))).
Proof.
  split; [lia|].
  apply (lower_bound_certificate
           [Job "A" 60 0; Job "B" 60 0; Job "C" 30 0; Job "D" 30 0] 2 30).
  - lia.
  - vm_compute. discriminate.
Defined.

Lemma sum_by_alter_add (L : list Z) i x :
  (i < length L)%nat →
  sum_by id (alter (λ y, y + x) i L) = sum_by id L + x.
Proof.
  revert i. induction L as [|y L IH]; intros [|i] Hi; simpl in *; try lia.
  - rewrite !sum_by_cons. unfold id. lia.
  - change (list_alter ?f i L) with (alter f i L).
    rewrite !sum_by_cons, IH by lia. lia.
Qed.

Lemma sum_ge_min (L : list Z) m :
  Forall (λ x, m ≤ x) L → Z.of_nat (length L) * m ≤ sum_by id L.
Proof.
  induction 1 as [|x L Hx _ IH].
  - rewrite sum_by_nil. simpl. lia.
  - rewrite sum_by_cons. unfold id at 1. simpl length. lia.
Qed.

(** One step of the greedy baseline keeps every load within the list
    scheduling bound. *)
Lemma greedy_step_bound teamCount baseMax wmax it (s : list Z * list (list item)) :
  (0 < teamCount)%nat → length s.1 = teamCount →
  0 ≤ w it ≤ wmax →
  Forall (λ x, x ≤ baseMax ∨ Z.of_nat teamCount * (x - wmax) ≤ sum_by id s.1) s.1 →
  length (greedy_step teamCount s it).1 = teamCount ∧
  Forall (λ x, x ≤ baseMax ∨
               Z.of_nat teamCount * (x - wmax)
               ≤ sum_by id (greedy_step teamCount s it).1)
         (greedy_step teamCount s it).1.
Proof.
  intros Hk Hlen Hw Hinv. unfold greedy_step. cbn [fst].
  set (L := s.1) in *. set (b := least_loaded teamCount L).
  destruct (least_loaded_spec teamCount L Hk) as (Hb & Hmin & _). fold b in Hb, Hmin.
  split; [by rewrite length_alter|].
  rewrite sum_by_alter_add by lia.
  apply Forall_alter.
  - eapply Forall_impl; [exact Hinv|]. simpl. intros x [?|?]; [by left|right; lia].
  - intros x Hx _. right.
    assert (Z.of_nat teamCount * x ≤ sum_by id L) as Hmean.
    { rewrite <- Hlen. apply sum_ge_min.
      apply (Forall_lookup_total_2 (λ y, x ≤ y)). intros i Hi'.
      rewrite (list_lookup_total_correct _ _ _ Hx) in Hmin.
      apply Hmin. lia. }
    nia.
Qed.

Lemma greedy_bound teamCount baseW wmax items :
  (0 < teamCount)%nat → length baseW = teamCount →
  Forall (λ it, 0 ≤ w it ≤ wmax) items →
  Forall (λ x, x ≤ max_of baseW ∨
               Z.of_nat teamCount * (x - wmax)
               ≤ sum_by id (greedy teamCount baseW items).1)
         (greedy teamCount baseW items).1.
Proof.
  intros Hk Hb Hw. unfold greedy.
  assert (∀ l s, Forall (λ it, 0 ≤ w it ≤ wmax) l →
    length s.1 = teamCount →
    Forall (λ x, x ≤ max_of baseW ∨
                 Z.of_nat teamCount * (x - wmax) ≤ sum_by id s.1) s.1 →
    Forall (λ x, x ≤ max_of baseW ∨
                 Z.of_nat teamCount * (x - wmax)
                 ≤ sum_by id (foldl (greedy_step teamCount) s l).1)
           (foldl (greedy_step teamCount) s l).1) as Hgen.
  { intros l. induction l as [|it l IH]; intros s Hl Hlen Hinv; simpl; [done|].
    apply Forall_cons in Hl as [Hit Hl].
    destruct (greedy_step_bound teamCount (max_of baseW) wmax it s Hk Hlen Hit Hinv)
      as [Hlen' Hinv'].
    by apply IH. }
  apply Hgen; [done|done|]. simpl.
  apply Forall_forall. intros x Hx. left. by apply max_of_ge.
Qed.

(** X8. List-scheduling bound: when no free item weighs more than [wmax],
    the makespan of the returned assignment is at most the larger of the
    largest fixed weight and the average load plus [wmax]. *)
Theorem makespan_bound (jobsMinutes : list job) (teamCount : nat) (quant wmax : Z) :
  (1 ≤ teamCount)%nat →
  let q := quantum quant in
  let p := partition_jobs teamCount jobsMinutes in
  let baseW := baseW_of q teamCount (fixedLoads p) in
  let freeItems := freeItems_of q (free p) in
  (∀ it, it ∈ freeItems → w it ≤ wmax) →
  makespan baseW (bestAssign (solve_search jobsMinutes teamCount quant))
  ≤ Z.max (max_of baseW)
          ((sum_by id baseW + sum_by w freeItems) / Z.of_nat teamCount + wmax).
Proof.
  intros Hk q p baseW freeItems Hwmax.
  assert (length baseW = teamCount) as Hb by apply solver_baseW_length.
  destruct (solve_search_spec jobsMinutes teamCount quant Hk) as (_ & Hm & _).
  fold q p baseW in Hm. rewrite Hm.
  destruct (greedy_ok teamCount baseW freeItems) as (HlenA & Hg & Hperm & _);
    [lia|done|].
  pose proof (assignment_reach freeItems baseW (greedy teamCount baseW freeItems).2
                ltac:(lia) Hperm) as Hreach.
  rewrite <- Hg in Hreach.
  pose proof (reach_sum _ _ _ Hreach) as Hsum.
  pose proof (reach_length _ _ _ Hreach) as Hlen.
  assert (Forall (λ it, 0 ≤ w it ≤ wmax) freeItems) as Hw.
  { apply Forall_forall. intros it Hit. split; [|by apply Hwmax].
    pose proof (freeItems_of_weight q (free p)) as Hge.
    apply (proj1 (Forall_forall _ _)) with (x := it) in Hge; [lia|done]. }
  pose proof (greedy_bound teamCount baseW wmax freeItems ltac:(lia) Hb Hw) as Hbound.
  assert ((greedy teamCount baseW freeItems).1 ≠ []) as Hne.
  { intros Hnil. rewrite Hnil in Hlen. simpl in Hlen. lia. }
  apply (proj1 (Forall_forall _ _)) with (x := max_of (greedy teamCount baseW freeItems).1)
    in Hbound; [|by apply max_of_in].
  unfold solve_search, run_search. fold q p baseW freeItems.
  match goal with |- bestMakespanW (dfs ?k ?a ?b ?r ?i ?s) ≤ _ =>
    pose proof (frame_best_le _ _ _ (dfs_frame k a b r i s)) as Hle end.
  cbn [search_init bestMakespanW] in Hle.
  destruct Hbound as [Hbase|Havg]; [lia|].
  rewrite Hsum in Havg.
  assert (max_of (greedy teamCount baseW freeItems).1 - wmax
          ≤ (sum_by id baseW + sum_by w freeItems) / Z.of_nat teamCount); [|lia].
  apply Z.div_le_lower_bound; lia.
Qed.

Lemma makespan_bound_witness :
  (1 ≤ 2)%nat ∧
  makespan
    (baseW_of (quantum 10) 2
       (fixedLoads (partition_jobs 2
          [Job "X" 100 1; Job "P" 50 0; Job "Q" 50 0; Job "R" 50 0])))
    (bestAssign (solve_search
       [Job "X" 100 1; Job "P" 50 0; Job "Q" 50 0; Job "R" 50 0] 2 10))
  ≤ Z.max
      (max_of
         (baseW_of (quantum 10) 2
            (fixedLoads (partition_jobs 2
               [Job "X" 100 1; Job "P" 50 0; Job "Q" 50 0; Job "R" 50 0]))))
      ((sum_by id
          (baseW_of (quantum 10) 2
             (fixedLoads (partition_jobs 2
                [Job "X" 100 1; Job "P" 50 0; Job "Q" 50 0; Job "R" 50 0])))
        + sum_by w
            (freeItems_of (quantum 10)
               (free (partition_jobs 2
                  [Job "X" 100 1; Job "P" 50 0; Job "Q" 50 0; Job "R" 50 0]))))
       / Z.of_nat 2 + 5).
Proof.
  split; [lia|].
  apply (makespan_bound
           [Job "X" 100 1; Job "P" 50 0; Job "Q" 50 0; Job "R" 50 0] 2 10 5).
  - lia.
  - intros it Hit. vm_compute in Hit.
    repeat (apply elem_of_cons in Hit as [->|Hit]; [vm_compute; discriminate|]).
    inversion Hit.
Defined.

Lemma map_seq_zip_with {A B C} `{!Inhabited A, !Inhabited B}
    (g : A → B → C) (X : list A) (Y : list B) :
  length X = length Y →
  map (λ i, g (X !!! i) (Y !!! i)) (seq 0 (length X)) = zip_with g X Y.
Proof.
  revert Y. induction X as [|x X IH]; intros [|y Y] Hlen; simpl in *; try done.
  f_equal. rewrite <- fmap_S_seq. change (?f <$> ?l) with (map f l).
  rewrite map_map. simpl. apply IH. lia.
Qed.

Lemma baseW_of_unit teamCount fl :
  length fl = teamCount → baseW_of 1 teamCount fl = fl.
Proof.
  intros Hlen. apply list_eq. intros i.
  destruct (decide (i < teamCount)%nat) as [Hi|Hi].
  - rewrite !list_lookup_lookup_total_lt by (rewrite ?baseW_of_length; lia).
    f_equal. rewrite baseW_of_lookup by done. rewrite round_div_1.
    destruct (Z.ltb_spec 0 (fl !!! i)), (Z.eqb_spec (fl !!! i) 0); simpl; lia.
  - rewrite !lookup_ge_None_2 by (rewrite ?baseW_of_length; lia). done.
Qed.

Lemma team_loads_ext (f : list item → Z) baseW A :
  (∀ l, l ∈ A → sum_by w l = f l) →
  team_loads baseW A = zip_with (λ b l, b + f l) baseW A.
Proof.
  unfold team_loads. revert baseW.
  induction A as [|l A IH]; intros [|b baseW] Hf; simpl; try done.
  rewrite (Hf l) by left. f_equal. apply IH. intros l' Hl'. apply Hf. by right.
Qed.

Lemma assignment_members teamCount items A l it :
  is_assignment teamCount items A → l ∈ A → it ∈ l → it ∈ items.
Proof.
  intros [_ Hperm] Hl Hit.
  apply (proj1 (elem_of_Permutation_proper _ _ _ Hperm)).
  apply list_elem_of_In, in_concat. exists l.
  split; by apply list_elem_of_In.
Qed.

(** X9. With quantum 1 and positive durations the search optimizes real
    minutes: the longest team time of the returned plan is at most the
    longest team time of any other way of giving the free jobs to the
    teams. *)
Theorem unit_quantum_minimises_minutes (jobsMinutes : list job) (teamCount : nat)
    (A : list (list item)) :
  (1 ≤ teamCount)%nat →
  (∀ j, j ∈ jobsMinutes → 0 < job_minutes j) →
  let p := partition_jobs teamCount jobsMinutes in
  is_assignment teamCount (freeItems_of 1 (free p)) A →
  max_of (map totalMinutes (solveOptimalWithFixed jobsMinutes teamCount 1))
  ≤ max_of (zip_with (λ fl l, fl + sum_by item_minutes l) (fixedLoads p) A).
Proof.
  intros Hk Hpos p HA.
  destruct (partition_jobs_spec teamCount jobsMinutes) as (HlenL & _ & Hfree & _).
  fold p in HlenL, Hfree.
  destruct (solve_search_spec jobsMinutes teamCount 1 Hk) as (Hbest & Hm & Hopt).
  change (quantum 1) with 1 in *. fold p in Hbest, Hm, Hopt.
  rewrite (baseW_of_unit teamCount (fixedLoads p) HlenL) in *.
  set (best := bestAssign (solve_search jobsMinutes teamCount 1)) in *.
  assert (∀ it, it ∈ freeItems_of 1 (free p) → w it = item_minutes it) as Hw.
  { intros it Hit.
    apply (proj1 (elem_of_Permutation_proper _ _ _ (freeItems_of_perm _ _))) in Hit.
    apply list_elem_of_In, in_map_iff in Hit as (j & <- & Hj). simpl.
    rewrite round_div_1. apply list_elem_of_In in Hj. rewrite Hfree in Hj.
    apply list_elem_of_filter in Hj as [_ Hj]. specialize (Hpos j Hj). lia. }
  assert (∀ B, is_assignment teamCount (freeItems_of 1 (free p)) B →
            team_loads (fixedLoads p) B
            = zip_with (λ fl l, fl + sum_by item_minutes l) (fixedLoads p) B) as Hloads.
  { intros B HB. apply team_loads_ext. intros l Hl.
    apply sum_by_ext_in. intros it Hit. apply Hw.
    by eapply assignment_members. }
  assert (map totalMinutes (solveOptimalWithFixed jobsMinutes teamCount 1)
          = team_loads (fixedLoads p) best) as ->.
  { rewrite (Hloads best Hbest).
    unfold solveOptimalWithFixed, assemble. fold p best. rewrite map_map.
    destruct Hbest as [Hlen _].
    rewrite <- (map_seq_zip_with (λ fl l, fl + sum_by item_minutes l))
      by (rewrite HlenL, Hlen; done).
    rewrite HlenL. apply map_ext. intros i. by rewrite assemble_team_eq. }
  rewrite <- (Hloads A HA).
  specialize (Hopt A HA). unfold makespan in *. lia.
Qed.

Lemma unit_quantum_minimises_minutes_witness :
  (1 ≤ 2)%nat ∧
  max_of (map totalMinutes
            (solveOptimalWithFixed [Job "A" 60 0; Job "B" 45 1; Job "C" 20 0] 2 1))
  ≤ max_of (zip_with (λ fl l, fl + sum_by item_minutes l)
              (fixedLoads (partition_jobs 2
                 [Job "A" 60 0; Job "B" 45 1; Job "C" 20 0]))
              [[Item "A" 60 60; Item "C" 20 20]; []]).
Proof.
  split; [lia|].
  apply (unit_quantum_minimises_minutes
           [Job "A" 60 0; Job "B" 45 1; Job "C" 20 0] 2
           [[Item "A" 60 60; Item "C" 20 20]; []]).
  - lia.
  - intros j Hj.
    repeat (apply elem_of_cons in Hj as [->|Hj]; [simpl; lia|]).
    inversion Hj.
  - split; [reflexivity|]. vm_compute. reflexivity.
Defined.

(** * Duration strings *)

#[local] Arguments String.append !_ _ /.

Lemma append_nil_r (s : string) : s +:+ "" = s.
Proof. induction s as [|c s IH]; simpl; [done|]. by rewrite IH. Qed.

Lemma append_assoc (s1 s2 s3 : string) : (s1 +:+ s2) +:+ s3 = s1 +:+ (s2 +:+ s3).
Proof. induction s1 as [|c s1 IH]; simpl; [done|]. by rewrite IH. Qed.

Lemma digits_string_app ds1 ds2 :
  digits_string (ds1 ++ ds2) = digits_string ds1 +:+ digits_string ds2.
Proof. induction ds1 as [|d ds1 IH]; simpl; [done|]. by rewrite IH. Qed.

Lemma digits_value_snoc ds d : digits_value (ds ++ [d]) = 10 * digits_value ds + d.
Proof. unfold digits_value. by rewrite foldl_snoc. Qed.

(** Decimal printing yields digits, most significant first. *)
Lemma pretty_N_go_digits (x : N) (s : string) :
  ∃ ds, Forall (λ d, d < 10)%N ds ∧
        pretty_N_go x s = digits_string ds +:+ s ∧
        digits_value (map Z.of_N ds) = Z.of_N x ∧
        ((0 < x)%N → ds ≠ []).
Proof.
  revert s. induction (N.lt_wf_0 x) as [x _ IH]; intros s.
  destruct (decide (x = 0)%N) as [->|Hx].
  - exists []. rewrite pretty_N_go_0. repeat split; try done.
  - rewrite pretty_N_go_step by lia.
    destruct (IH (x `div` 10)%N ltac:(apply N.div_lt; lia)
                 (String (pretty_N_char (x `mod` 10)) s))
      as (ds & Hds & Heq & Hval & _).
    exists (ds ++ [(x `mod` 10)%N]). split; [|split; [|split]].
    + apply Forall_app. split; [done|]. constructor; [|done].
      apply N.mod_lt. lia.
    + rewrite Heq, digits_string_app, append_assoc. done.
    + rewrite map_app. simpl. rewrite digits_value_snoc, Hval.
      pose proof (N.div_mod x 10 ltac:(lia)). lia.
    + intros _ Hnil. by apply app_eq_nil in Hnil as [_ ?].
Qed.

Lemma pretty_digits (n : Z) :
  0 ≤ n →
  ∃ ds, ds ≠ [] ∧ Forall (λ d, d < 10)%N ds ∧
        pretty n = digits_string ds ∧ digits_value (map Z.of_N ds) = n.
Proof.
  intros Hn. destruct n as [|p|p]; [| |lia].
  - exists [0%N]. repeat split; try done. repeat constructor.
  - destruct (pretty_N_go_digits (N.pos p) "") as (ds & Hds & Heq & Hval & Hne).
    exists ds. split; [by apply Hne|]. split; [done|]. split; [|done].
    rewrite append_nil_r in Heq. rewrite <- Heq. reflexivity.
Qed.

Lemma digit_cases (d : N) :
  (d < 10)%N →
  d = 0%N ∨ d = 1%N ∨ d = 2%N ∨ d = 3%N ∨ d = 4%N ∨
  d = 5%N ∨ d = 6%N ∨ d = 7%N ∨ d = 8%N ∨ d = 9%N.
Proof. lia. Qed.

Lemma digit_char_facts (d : N) :
  (d < 10)%N →
  digit_val (pretty_N_char d) = Some (Z.of_N d) ∧
  is_ws (pretty_N_char d) = false ∧
  Ascii.eqb (pretty_N_char d) ":" = false ∧
  pretty_N_char d ≠ "-"%char ∧ pretty_N_char d ≠ "+"%char.
Proof.
  intros Hd.
  destruct (digit_cases d Hd) as [->|[->|[->|[->|[->|[->|[->|[->|[->| ->]]]]]]]]];
    repeat split; done.
Qed.

Lemma digit_prefix_digits ds s :
  Forall (λ d, d < 10)%N ds →
  digit_prefix (digits_string ds +:+ s) = map Z.of_N ds ++ digit_prefix s.
Proof.
  induction 1 as [|d ds Hd _ IH]; simpl; [done|].
  destruct (digit_char_facts d Hd) as (-> & _). by rewrite IH.
Qed.

Lemma includes_digits ds s :
  Forall (λ d, d < 10)%N ds →
  includes ":" (digits_string ds +:+ s) = includes ":" s.
Proof.
  induction 1 as [|d ds Hd _ IH]; simpl; [done|].
  destruct (digit_char_facts d Hd) as (_ & _ & -> & _). by rewrite IH.
Qed.

Lemma split_on_cons sep s : ∃ h t, split_on sep s = h :: t.
Proof.
  induction s as [|c s (h & t & IH)]; simpl; [eauto|].
  destruct (Ascii.eqb c sep); [eauto|]. rewrite IH. eauto.
Qed.

Lemma split_on_digits ds s h t :
  Forall (λ d, d < 10)%N ds →
  split_on ":" s = h :: t →
  split_on ":" (digits_string ds +:+ s) = (digits_string ds +:+ h) :: t.
Proof.
  intros Hds Hs. induction Hds as [|d ds Hd _ IH]; simpl; [done|].
  destruct (digit_char_facts d Hd) as (_ & _ & -> & _). by rewrite IH.
Qed.

Lemma trim_start_digits ds s :
  Forall (λ d, d < 10)%N ds → ds ≠ [] →
  trim_start (digits_string ds +:+ s) = digits_string ds +:+ s.
Proof.
  intros Hds Hne. destruct Hds as [|d ds Hd _]; [done|]. simpl.
  by destruct (digit_char_facts d Hd) as (_ & -> & _).
Qed.

Lemma trim_end_digits ds :
  Forall (λ d, d < 10)%N ds → trim_end (digits_string ds) = digits_string ds.
Proof.
  induction 1 as [|d ds Hd _ IH]; simpl; [done|]. rewrite IH.
  destruct (digit_char_facts d Hd) as (_ & -> & _).
  by destruct (digits_string ds).
Qed.

Lemma trim_end_app s r :
  trim_end r = r → r ≠ "" → trim_end (s +:+ r) = s +:+ r.
Proof.
  intros Hr Hne. induction s as [|c s IH]; simpl; [done|]. rewrite IH.
  destruct (s +:+ r) eqn:Hsr; [|done].
  destruct s; simpl in Hsr; [done|discriminate].
Qed.

Lemma js_trim_digits ds :
  Forall (λ d, d < 10)%N ds → js_trim (digits_string ds) = digits_string ds.
Proof.
  intros Hds. unfold js_trim. destruct ds as [|d ds]; [done|].
  rewrite <- (append_nil_r (digits_string (d :: ds))) at 1.
  rewrite trim_start_digits, append_nil_r by done.
  by apply trim_end_digits.
Qed.

Lemma parseInt10_unsigned (c : ascii) (s : string) :
  is_ws c = false → c ≠ "-"%char → c ≠ "+"%char →
  parseInt10 (String c s)
  = match digit_prefix (String c s) with
    | [] => None
    | ds => Some (digits_value ds)
    end.
Proof.
  intros Hws Hminus Hplus. unfold parseInt10. cbn [trim_start]. rewrite Hws.
  assert (match String c s with
          | String "-" s' => (-1, s')
          | String "+" s' => (1, s')
          | _ => (1, String c s)
          end = (1, String c s)) as ->.
  { destruct c as [[] [] [] [] [] [] [] []]; done. }
  destruct (digit_prefix (String c s)); [done|].
  f_equal. by destruct (digits_value _).
Qed.

Lemma parseInt10_digits ds :
  Forall (λ d, d < 10)%N ds → ds ≠ [] →
  parseInt10 (digits_string ds) = Some (digits_value (map Z.of_N ds)).
Proof.
  intros Hds Hne.
  pose proof (digit_prefix_digits ds "" Hds) as Hpre.
  rewrite append_nil_r in Hpre. simpl in Hpre. rewrite app_nil_r in Hpre.
  destruct Hds as [|d ds Hd Hds]; [done|].
  destruct (digit_char_facts d Hd) as (_ & Hws & _ & Hminus & Hplus).
  cbn [digits_string] in *. rewrite parseInt10_unsigned by done.
  rewrite Hpre. done.
Qed.

Lemma digits_string_length ds : String.length (digits_string ds) = length ds.
Proof. induction ds as [|d ds IH]; simpl; [done|]. by rewrite IH. Qed.

Lemma padStart2_digits ds :
  Forall (λ d, d < 10)%N ds → ds ≠ [] →
  ∃ ds', padStart2 (digits_string ds) = digits_string ds' ∧ ds' ≠ [] ∧
         Forall (λ d, d < 10)%N ds' ∧
         digits_value (map Z.of_N ds') = digits_value (map Z.of_N ds).
Proof.
  intros Hds Hne. unfold padStart2. rewrite digits_string_length.
  destruct ds as [|d [|d' ds]]; [done| |].
  - exists [0%N; d]. simpl. repeat split; try done.
    constructor; [lia|done].
  - exists (d :: d' :: ds). done.
Qed.

Lemma digits_value_nonneg ds : 0 ≤ digits_value (map Z.of_N ds).
Proof.
  unfold digits_value.
  assert (∀ a, 0 ≤ a → 0 ≤ foldl (λ acc d, 10 * acc + d) a (map Z.of_N ds)) as Hgen.
  { induction ds as [|d ds IH]; intros a Ha; simpl; [done|]. apply IH. lia. }
  by apply Hgen.
Qed.

(** A text made of two digit fields around one colon. *)
Lemma parse_digit_fields dh dm :
  Forall (λ d, d < 10)%N dh → dh ≠ [] →
  Forall (λ d, d < 10)%N dm → dm ≠ [] →
  parseTimeToMinutes (digits_string dh +:+ ":" +:+ digits_string dm)
  = if 59 <? digits_value (map Z.of_N dm)
    then Failure ("Minutes must be between 0 and 59: "
                  +:+ digits_string dh +:+ ":" +:+ digits_string dm)
    else Minutes (digits_value (map Z.of_N dh) * 60 + digits_value (map Z.of_N dm)).
Proof.
  intros Hdh Hneh Hdm Hnem.
  set (value := digits_string dh +:+ ":" +:+ digits_string dm).
  assert (js_trim value = value) as Htrim.
  { unfold js_trim, value. rewrite trim_start_digits by done.
    rewrite <- append_assoc. apply trim_end_app.
    - by apply trim_end_digits.
    - by destruct dm. }
  assert (includes ":" value = true) as Hinc.
  { unfold value. rewrite includes_digits by done. done. }
  assert (split_on ":" value = [digits_string dh; digits_string dm]) as Hsplit.
  { unfold value.
    rewrite (split_on_digits dh _ "" [digits_string dm]) by
      (try done; simpl;
       pose proof (split_on_digits dm "" "" [] Hdm eq_refl) as Hs;
       rewrite !append_nil_r in Hs; by rewrite Hs).
    by rewrite append_nil_r. }
  pose proof (digits_value_nonneg dm) as Hpos.
  unfold parseTimeToMinutes. rewrite Htrim.
  destruct value eqn:Hv.
  { unfold value in Hv. destruct dh; [done|discriminate]. }
  rewrite <- Hv in *. rewrite Hinc, Hsplit.
  rewrite !js_trim_digits, !parseInt10_digits by done.
  destruct (Z.ltb_spec (digits_value (map Z.of_N dm)) 0); [lia|]. done.
Qed.

(** X10. Round trip of the duration format: for every number of minutes
    [t >= 0] (zero included), parsing the text [hhmm(t)] gives back [t]. *)
Theorem parse_hhmm (t : Z) :
  0 ≤ t → parseTimeToMinutes (hhmm t) = Minutes t.
Proof.
  intros Ht. unfold hhmm.
  rewrite Z.rem_mod_nonneg by lia.
  pose proof (Z.div_mod t 60 ltac:(lia)) as Hdm.
  pose proof (Z.mod_pos_bound t 60 ltac:(lia)) as Hmod.
  assert (0 ≤ t / 60) as Hdiv by (apply Z.div_pos; lia).
  destruct (pretty_digits (t / 60) Hdiv) as (dh & Hneh & Hdh & -> & Hvh).
  destruct (pretty_digits (t `mod` 60) ltac:(lia)) as (dm & Hnem & Hdm' & -> & Hvm).
  destruct (padStart2_digits dm Hdm' Hnem) as (dm2 & -> & Hnem2 & Hdm2 & Hvm2).
  rewrite parse_digit_fields by done. rewrite Hvh, Hvm2, Hvm.
  destruct (Z.ltb_spec 59 (t `mod` 60)); [lia|]. f_equal. lia.
Qed.

Lemma parse_hhmm_witness :
  (0 ≤ 135) ∧ parseTimeToMinutes (hhmm 135) = Minutes 135.
Proof. split; [lia|]. apply (parse_hhmm 135). lia. Defined.

(** X11. The colon format on plain numbers: the text [h:m], for integers
    [h >= 0] and [m >= 0] printed in decimal, parses to [60 h + m] minutes
    when [m <= 59] (one-digit minutes and a zero total included) and is
    rejected when [m > 59]. *)
Theorem parse_hours_minutes (h m : Z) :
  0 ≤ h → 0 ≤ m →
  parseTimeToMinutes (pretty h +:+ ":" +:+ pretty m)
  = if 59 <? m
    then Failure ("Minutes must be between 0 and 59: "
                  +:+ pretty h +:+ ":" +:+ pretty m)
    else Minutes (h * 60 + m).
Proof.
  intros Hh Hm.
  destruct (pretty_digits h Hh) as (dh & Hneh & Hdh & -> & Hvh).
  destruct (pretty_digits m Hm) as (dm & Hnem & Hdm & -> & Hvm).
  rewrite parse_digit_fields by done. by rewrite Hvh, Hvm.
Qed.

Lemma parse_hours_minutes_witness :
  (0 ≤ 1) ∧ (0 ≤ 75) ∧
  parseTimeToMinutes (pretty 1 +:+ ":" +:+ pretty 75)
  = Failure ("Minutes must be between 0 and 59: " +:+ pretty 1 +:+ ":" +:+ pretty 75).
Proof.
  split; [lia|]. split; [lia|].
  apply (parse_hours_minutes 1 75); lia.
Defined.

Lemma trim_start_blank s : trim_start s = "" ↔ blank s = true.
Proof.
  induction s as [|c s IH]; simpl; [done|].
  destruct (is_ws c); simpl; [done|]. split; discriminate.
Qed.

Lemma trim_start_head s c r : trim_start s = String c r → is_ws c = false.
Proof.
  induction s as [|c' s IH]; simpl; [discriminate|].
  destruct (is_ws c') eqn:Hws; [done|]. intros [= -> ->]. done.
Qed.

Lemma trim_end_head c r :
  is_ws c = false → ∃ r', trim_end (String c r) = String c r'.
Proof.
  intros Hws. simpl. rewrite Hws. destruct (trim_end r); eauto.
Qed.

Lemma trim_end_idem s : trim_end (trim_end s) = trim_end s.
Proof.
  induction s as [|c s IH]; simpl; [done|].
  destruct (trim_end s) as [|c' r] eqn:Hr.
  - destruct (is_ws c) eqn:Hws; simpl; [done|]. by rewrite Hws.
  - simpl in *. rewrite IH. done.
Qed.

(** Trimming twice is trimming once. *)
Lemma js_trim_idem s : js_trim (js_trim s) = js_trim s.
Proof.
  unfold js_trim.
  destruct (trim_start s) as [|c r] eqn:Hs; [done|].
  pose proof (trim_start_head _ _ _ Hs) as Hws.
  destruct (trim_end_head c r Hws) as (r' & Hr').
  rewrite Hr'. cbn [trim_start]. rewrite Hws, <- Hr'. apply trim_end_idem.
Qed.

(** X12. The error for an empty duration is raised exactly for blank texts:
    [parseTimeToMinutes] fails with "Duration is empty" if and only if its
    input is empty or made of white space only. *)
Theorem parse_blank (input : string) :
  parseTimeToMinutes input = Failure "Duration is empty" ↔ blank input = true.
Proof.
  unfold parseTimeToMinutes, js_trim. split.
  - intros Hfail. apply trim_start_blank.
    destruct (trim_start input) as [|c r] eqn:Hs; [done|].
    pose proof (trim_start_head _ _ _ Hs) as Hws.
    destruct (trim_end_head c r Hws) as (r' & Hr'). rewrite Hr' in Hfail.
    cbn [String.append] in Hfail.
    destruct (includes ":" (String c r')); [|discriminate Hfail].
    destruct (split_on ":" (String c r')) as [|p0 [|p1 [|p2 ps]]];
      try discriminate Hfail.
    destruct (parseInt10 (trim_end (trim_start p0))); [|discriminate Hfail].
    destruct (parseInt10 (trim_end (trim_start p1))); [|discriminate Hfail].
    destruct (_ || _); discriminate Hfail.
  - intros Hblank. apply trim_start_blank in Hblank. by rewrite Hblank.
Qed.

Lemma parse_blank_witness :
  parseTimeToMinutes "   " = Failure "Duration is empty".
Proof. apply (proj2 (parse_blank "   ")). reflexivity. Defined.

(** X13. White space around a duration is ignored: a text and its trimmed
    form parse alike. *)
Theorem parse_trimmed (input : string) :
  parseTimeToMinutes (js_trim input) = parseTimeToMinutes input.
Proof. unfold parseTimeToMinutes. by rewrite js_trim_idem. Qed.

(** * Plan snapshots *)

Lemma int_or_0 x : int_or 0 x = x.
Proof. unfold int_or. destruct (Z.eqb_spec x 0); lia. Qed.

Lemma clamp_nonneg x : 0 ≤ x → Z.max 0 (int_or 0 x) = x.
Proof. intros Hx. rewrite int_or_0. lia. Qed.

Lemma clamp_idem x : Z.max 0 (int_or 0 (Z.max 0 (int_or 0 x))) = Z.max 0 (int_or 0 x).
Proof. apply clamp_nonneg. lia. Qed.

Lemma cleanJob_keep j :
  keepJob (cleanJob j) → cleanJob (cleanJob j) = cleanJob j.
Proof.
  intros [_ Hm]. unfold cleanJob in *. simpl in *.
  by rewrite js_trim_idem, clamp_idem.
Qed.

Lemma clean_kept_fixed (l : list outJob) :
  Forall (λ j, cleanJob j = j ∧ keepJob j) l →
  filter keepJob (map cleanJob l) = l.
Proof.
  induction 1 as [|j l [Hc Hk] _ IH]; simpl; [done|].
  rewrite Hc, filter_cons_True by done. by rewrite IH.
Qed.

Lemma sanitized_jobs_fixed (js : list outJob) :
  Forall (λ j, cleanJob j = j ∧ keepJob j) (filter keepJob (map cleanJob js)).
Proof.
  apply Forall_forall. intros j Hj.
  apply list_elem_of_filter in Hj as [Hk Hj].
  apply list_elem_of_In, in_map_iff in Hj as (j0 & <- & _).
  split; [by apply cleanJob_keep|done].
Qed.

Lemma sanitizeTeam_idem i t : sanitizeTeam i (sanitizeTeam i t) = sanitizeTeam i t.
Proof.
  unfold sanitizeTeam. simpl. f_equal.
  - apply clamp_idem.
  - apply clean_kept_fixed, sanitized_jobs_fixed.
Qed.

(** X14. Sanitizing is idempotent: a snapshot that [sanitizePlanSnapshot]
    returned is returned unchanged when it is sanitized again, as happens
    each time the stored history is read back. *)
Theorem sanitize_idempotent (raw s : planSnapshot) :
  sanitizePlanSnapshot raw = Some s → sanitizePlanSnapshot s = Some s.
Proof.
  unfold sanitizePlanSnapshot.
  set (n := Z.to_nat (Z.max 1 (int_or 1 (snap_teamCount raw)))).
  destruct (take n (imap sanitizeTeam (snap_teams raw))) as [|t0 ts] eqn:Hteams;
    [discriminate|].
  intros [= <-]. cbn [snap_teamCount snap_jobCount minMinutes maxMinutes
                      gapMinutes snap_teams].
  assert (Z.max 1 (int_or 1 (Z.max 1 (int_or 1 (snap_teamCount raw))))
          = Z.max 1 (int_or 1 (snap_teamCount raw))) as ->.
  { unfold int_or at 1.
    destruct (Z.eqb_spec (Z.max 1 (int_or 1 (snap_teamCount raw))) 0); lia. }
  fold n. rewrite !clamp_idem.
  assert (take n (imap sanitizeTeam (t0 :: ts)) = t0 :: ts) as ->; [|done].
  rewrite <- Hteams. apply list_eq. intros i.
  rewrite !lookup_take, !list_lookup_imap, lookup_take, list_lookup_imap.
  destruct (decide (i < n)%nat); [|done].
  destruct (snap_teams raw !! i) as [t|]; [|done]. simpl.
  by rewrite sanitizeTeam_idem.
Qed.

Lemma sanitize_idempotent_witness :
  sanitizePlanSnapshot
    (PlanSnapshot 1 0 0 7 7 [SnapTeam 1 7 [OutJob "a" 7]])
  = Some (PlanSnapshot 1 0 0 7 7 [SnapTeam 1 7 [OutJob "a" 7]]).
Proof.
  apply (sanitize_idempotent
           (PlanSnapshot 0 (-3) 0 7 7 [SnapTeam 9 7 [OutJob " a " 7; OutJob "" 2]])).
  reflexivity.
Defined.

Lemma foldr_min_le x l :
  foldr Z.min x l ≤ x ∧ ∀ y, y ∈ l → foldr Z.min x l ≤ y.
Proof.
  induction l as [|z l [IH1 IH2]]; simpl.
  - split; [lia|]. intros y Hy. inversion Hy.
  - split; [lia|]. intros y Hy. apply elem_of_cons in Hy as [->|Hy].
    + lia.
    + specialize (IH2 y Hy). lia.
Qed.

Lemma min_of_le l y : y ∈ l → min_of l ≤ y.
Proof.
  destruct l as [|x l]; [inversion 1|]. simpl.
  destruct (foldr_min_le x l) as [H1 H2].
  intros [->|Hy]%elem_of_cons; [done|by apply H2].
Qed.

Lemma foldr_min_in x l : foldr Z.min x l ∈ x :: l.
Proof.
  induction l as [|z l IH]; simpl.
  - left.
  - destruct (Z.min_spec z (foldr Z.min x l)) as [[_ ->]|[_ ->]].
    + right; left.
    + apply elem_of_cons in IH as [->|IH]; [left|right; right; done].
Qed.

Lemma min_of_in l : l ≠ [] → min_of l ∈ l.
Proof. destruct l as [|x l]; [done|]. intros _. apply foldr_min_in. Qed.

Lemma outJob_eta (j : outJob) : OutJob (out_name j) (out_minutes j) = j.
Proof. by destruct j. Qed.

(** X15. The snapshot of a plan loses nothing: for jobs with trimmed,
    non-empty names and positive durations, [buildPlanSnapshot] applied to
    the solver's result returns a snapshot with the solver's teams, numbered
    from 1, with their totals and job lists unchanged, the shortest and
    longest team times, and their difference as the gap. *)
Theorem snapshot_of_plan (jobsMinutes : list job) (teamCount : nat) (quant : Z) :
  (1 ≤ teamCount)%nat →
  (∀ j, j ∈ jobsMinutes →
        0 < job_minutes j ∧ job_name j ≠ "" ∧ js_trim (job_name j) = job_name j) →
  let result := solveOptimalWithFixed jobsMinutes teamCount quant in
  let totals := map totalMinutes result in
  buildPlanSnapshot result (Z.of_nat teamCount) (Z.of_nat (length jobsMinutes))
  = Some (PlanSnapshot (Z.of_nat teamCount) (Z.of_nat (length jobsMinutes))
            (min_of totals) (max_of totals) (max_of totals - min_of totals)
            (imap (λ i t, SnapTeam (Z.of_nat i + 1) (totalMinutes t) (jobs t))
                  result)) ∧
  0 ≤ min_of totals ≤ max_of totals.
Proof.
  intros Hk Hvalid result totals.
  assert (length result = teamCount) as Hlen by apply assemble_length.
  assert (∀ t o, t ∈ result → o ∈ jobs t →
            0 < out_minutes o ∧ out_name o ≠ "" ∧ js_trim (out_name o) = out_name o)
    as Hjobs.
  { intros t o Ht Ho.
    assert (o ∈ map toOut jobsMinutes) as Hin.
    { apply (proj1 (elem_of_Permutation_proper _ _ _
                      (solve_jobs_perm jobsMinutes teamCount quant Hk))).
      apply list_elem_of_In, in_concat. exists (jobs t). split.
      - apply in_map. by apply list_elem_of_In.
      - by apply list_elem_of_In. }
    apply list_elem_of_In, in_map_iff in Hin as (j & <- & Hj).
    apply Hvalid. by apply list_elem_of_In. }
  assert (∀ t, t ∈ result → 0 ≤ totalMinutes t) as Hnonneg.
  { intros t Ht. rewrite (solve_total_exact _ _ _ _ Ht).
    apply sum_by_nonneg, Forall_forall. intros o Ho.
    destruct (Hjobs t o Ht Ho). lia. }
  assert (map (λ t, Z.max 0 (int_or 0 (totalMinutes t))) result = totals) as Htot.
  { apply map_ext_in. intros t Ht. apply clamp_nonneg, Hnonneg.
    by apply list_elem_of_In. }
  assert (totals ≠ []) as Hne.
  { intros Hnil. apply (f_equal length) in Hnil.
    unfold totals in Hnil. rewrite length_map, Hlen in Hnil. simpl in Hnil. lia. }
  assert (0 ≤ min_of totals ≤ max_of totals) as Hrange.
  { pose proof (min_of_in totals Hne) as Hmin. split.
    - apply list_elem_of_In, in_map_iff in Hmin as (t & <- & Ht).
      apply Hnonneg. by apply list_elem_of_In.
    - by apply max_of_ge. }
  split; [|exact Hrange].
  unfold buildPlanSnapshot. rewrite Htot.
  destruct totals as [|x xs] eqn:Htotals; [done|]. rewrite <- Htotals in *.
  unfold sanitizePlanSnapshot.
  cbn [snap_teamCount snap_jobCount minMinutes maxMinutes gapMinutes snap_teams].
  assert (Z.max 1 (int_or 1 (Z.of_nat teamCount)) = Z.of_nat teamCount) as ->.
  { unfold int_or. destruct (Z.eqb_spec (Z.of_nat teamCount) 0); lia. }
  rewrite !clamp_nonneg by lia. rewrite Nat2Z.id.
  assert (take teamCount (imap sanitizeTeam (imap snapTeam_of result))
          = imap (λ i t, SnapTeam (Z.of_nat i + 1) (totalMinutes t) (jobs t)) result)
    as ->.
  { rewrite take_ge by (rewrite !length_imap; lia).
    apply list_eq. intros i. rewrite !list_lookup_imap.
    destruct (result !! i) as [t|] eqn:Ht; [|done]. simpl. f_equal.
    apply list_elem_of_lookup_2 in Ht.
    unfold sanitizeTeam, snapTeam_of. simpl. f_equal.
    - apply clamp_nonneg. by apply Hnonneg.
    - rewrite (map_ext (λ j, OutJob (out_name j) (out_minutes j)) id)
        by (intros; apply outJob_eta).
      rewrite map_id.
      apply clean_kept_fixed, Forall_forall. intros o Ho.
      destruct (Hjobs t o Ht Ho) as (Hm & Hn & Htrim).
      split; [|by split].
      unfold cleanJob. rewrite Htrim, clamp_nonneg by lia. apply outJob_eta. }
  destruct (imap _ result) eqn:Himap; [|done].
  apply (f_equal length) in Himap. rewrite length_imap, Hlen in Himap.
  simpl in Himap. lia.
Qed.

Lemma snapshot_of_plan_witness :
  (1 ≤ 2)%nat ∧
  0 ≤ min_of (map totalMinutes
                (solveOptimalWithFixed [Job "A" 60 0; Job "B" 45 1] 2 15))
    ≤ max_of (map totalMinutes
                (solveOptimalWithFixed [Job "A" 60 0; Job "B" 45 1] 2 15)).
Proof.
  split; [lia|].
  apply (snapshot_of_plan [Job "A" 60 0; Job "B" 45 1] 2 15).
  - lia.
  - intros j Hj.
    repeat (apply elem_of_cons in Hj as [->|Hj];
            [split; [simpl; lia|split; [discriminate|reflexivity]]|]).
    inversion Hj.
Defined.

(** The snapshot of any plan whose job names are trimmed and non-empty:
    totals are clamped at zero and jobs without a positive duration are
    filtered out. *)
Lemma clean_filter_positive (l : list outJob) :
  Forall (λ o, out_name o ≠ "" ∧ js_trim (out_name o) = out_name o) l →
  filter keepJob (map cleanJob l) = filter (λ o, 0 < out_minutes o) l.
Proof.
  induction 1 as [|o l [Hn Htrim] _ IH]; [done|].
  cbn [map]. rewrite !filter_cons, IH.
  destruct (decide (0 < out_minutes o)) as [Hpos|Hneg].
  - assert (cleanJob o = o) as ->.
    { unfold cleanJob. rewrite Htrim, clamp_nonneg by lia. apply outJob_eta. }
    rewrite decide_True; [done|by split].
  - rewrite decide_False; [done|].
    intros [_ Hm]. unfold cleanJob in Hm. simpl in Hm.
    rewrite int_or_0 in Hm. lia.
Qed.

Lemma snapshot_eq (jobsMinutes : list job) (teamCount : nat) (quant : Z) :
  (1 ≤ teamCount)%nat →
  (∀ j, j ∈ jobsMinutes → job_name j ≠ "" ∧ js_trim (job_name j) = job_name j) →
  let result := solveOptimalWithFixed jobsMinutes teamCount quant in
  let totals := map (λ t, Z.max 0 (totalMinutes t)) result in
  buildPlanSnapshot result (Z.of_nat teamCount) (Z.of_nat (length jobsMinutes))
  = Some (PlanSnapshot (Z.of_nat teamCount) (Z.of_nat (length jobsMinutes))
            (min_of totals) (max_of totals) (max_of totals - min_of totals)
            (imap (λ i t, SnapTeam (Z.of_nat i + 1) (Z.max 0 (totalMinutes t))
                                   (filter (λ o, 0 < out_minutes o) (jobs t)))
                  result)).
Proof.
  intros Hk Hvalid result totals.
  assert (length result = teamCount) as Hlen by apply assemble_length.
  assert (∀ t o, t ∈ result → o ∈ jobs t →
            out_name o ≠ "" ∧ js_trim (out_name o) = out_name o) as Hjobs.
  { intros t o Ht Ho.
    assert (o ∈ map toOut jobsMinutes) as Hin.
    { apply (proj1 (elem_of_Permutation_proper _ _ _
                      (solve_jobs_perm jobsMinutes teamCount quant Hk))).
      apply list_elem_of_In, in_concat. exists (jobs t). split.
      - apply in_map. by apply list_elem_of_In.
      - by apply list_elem_of_In. }
    apply list_elem_of_In, in_map_iff in Hin as (j & <- & Hj).
    apply Hvalid. by apply list_elem_of_In. }
  assert (map (λ t, Z.max 0 (int_or 0 (totalMinutes t))) result = totals) as Htot.
  { apply map_ext. intros t. by rewrite int_or_0. }
  assert (totals ≠ []) as Hne.
  { intros Hnil. apply (f_equal length) in Hnil.
    unfold totals in Hnil. rewrite length_map, Hlen in Hnil. simpl in Hnil. lia. }
  assert (0 ≤ min_of totals ≤ max_of totals) as Hrange.
  { pose proof (min_of_in totals Hne) as Hmin. split.
    - apply list_elem_of_In, in_map_iff in Hmin as (t & <- & Ht). lia.
    - by apply max_of_ge. }
  unfold buildPlanSnapshot. rewrite Htot.
  destruct totals as [|x xs] eqn:Htotals; [done|]. rewrite <- Htotals in *.
  unfold sanitizePlanSnapshot.
  cbn [snap_teamCount snap_jobCount minMinutes maxMinutes gapMinutes snap_teams].
  assert (Z.max 1 (int_or 1 (Z.of_nat teamCount)) = Z.of_nat teamCount) as ->.
  { unfold int_or. destruct (Z.eqb_spec (Z.of_nat teamCount) 0); lia. }
  rewrite !clamp_nonneg by lia. rewrite Nat2Z.id.
  assert (take teamCount (imap sanitizeTeam (imap snapTeam_of result))
          = imap (λ i t, SnapTeam (Z.of_nat i + 1) (Z.max 0 (totalMinutes t))
                                  (filter (λ o, 0 < out_minutes o) (jobs t))) result)
    as ->.
  { rewrite take_ge by (rewrite !length_imap; lia).
    apply list_eq. intros i. rewrite !list_lookup_imap.
    destruct (result !! i) as [t|] eqn:Ht; [|done]. simpl. f_equal.
    apply list_elem_of_lookup_2 in Ht.
    unfold sanitizeTeam, snapTeam_of. simpl. f_equal.
    - by rewrite int_or_0.
    - rewrite (map_ext (λ j, OutJob (out_name j) (out_minutes j)) id)
        by (intros; apply outJob_eta).
      rewrite map_id.
      apply clean_filter_positive, Forall_forall. intros o Ho.
      by apply (Hjobs t). }
  destruct (imap _ result) eqn:Himap; [|done].
  apply (f_equal length) in Himap. rewrite length_imap, Hlen in Himap.
  simpl in Himap. lia.
Qed.

(** ** Job preparation *)

Lemma js_trim_blank s : js_trim s = "" ↔ blank s = true.
Proof.
  rewrite <- trim_start_blank. unfold js_trim.
  destruct (trim_start s) as [|c r] eqn:Hs; [done|].
  pose proof (trim_start_head _ _ _ Hs) as Hws.
  destruct (trim_end_head c r Hws) as (r' & ->). done.
Qed.

Lemma toJobMinutes_ready teamCount idx u j :
  toJobMinutes teamCount idx u = Ready j →
  job_name j = js_trim (ui_name u) ∧ job_name j ≠ "" ∧
  parseTimeToMinutes (ui_durRaw u) = Minutes (job_minutes j) ∧
  fixedTeam j = Z.min (Z.max (ui_fixedTeam u) 0) (Z.of_nat teamCount).
Proof.
  unfold toJobMinutes.
  destruct (js_trim (ui_name u)) as [|c r] eqn:Hname; [discriminate|].
  destruct (parseTimeToMinutes (ui_durRaw u)) as [m|msg|x]; try discriminate.
  intros [= <-]. simpl. by rewrite int_or_0.
Qed.

Lemma prepareJobs_spec teamCount idx l js :
  prepareJobs teamCount idx l = Ready js →
  Forall2 (λ u j,
    job_name j = js_trim (ui_name u) ∧ job_name j ≠ "" ∧
    parseTimeToMinutes (ui_durRaw u) = Minutes (job_minutes j) ∧
    fixedTeam j = Z.min (Z.max (ui_fixedTeam u) 0) (Z.of_nat teamCount)) l js.
Proof.
  revert idx js. induction l as [|u l IH]; intros idx js; simpl.
  - intros [= <-]. constructor.
  - destruct (toJobMinutes teamCount idx u) as [j|msg|] eqn:Hj; try discriminate.
    destruct (prepareJobs teamCount (S idx) l) as [r|msg|] eqn:Hr; try discriminate.
    intros [= <-]. constructor.
    + by apply (toJobMinutes_ready teamCount idx).
    + by apply (IH (S idx)).
Qed.

Lemma solve_pinned_member jobsMinutes teamCount quant j :
  j ∈ jobsMinutes → 1 ≤ fixedTeam j ≤ Z.of_nat teamCount →
  ∃ t, solveOptimalWithFixed jobsMinutes teamCount quant
         !! Z.to_nat (fixedTeam j - 1) = Some t ∧
       toOut j ∈ jobs t.
Proof.
  intros Hj Hrange.
  assert (isFixed teamCount j = true) as Hfix by by apply isFixed_range.
  pose proof (isFixed_index _ _ Hfix) as Hi.
  eexists. split; [by apply solve_team_lookup|]. simpl.
  destruct (partition_jobs_spec teamCount jobsMinutes) as (_ & _ & _ & Hl).
  destruct (Hl _ Hi) as [Ha _].
  apply (proj2 (elem_of_Permutation_proper _ _ _
                  (js_sort_perm by_minutes_desc _))).
  apply elem_of_app. left. rewrite Ha.
  apply list_elem_of_In, in_map, list_elem_of_In.
  apply list_elem_of_filter. split; [|done]. split; done.
Qed.

(** X16. A team number chosen in the form is honoured by the plan, and a
    number beyond the team count is pinned to the last team rather than
    freed: the job of a form row with team number [n ≥ 1] is found in team
    [min n teamCount] of the plan, under its trimmed name and parsed
    duration; a row with a number below 1 is a free job. *)
Theorem pinned_row_team (l : list uiJob) (teamCount : nat) (quant : Z)
    (js : list job) (i : nat) (u : uiJob) :
  (1 ≤ teamCount)%nat →
  prepareJobs teamCount 0 l = Ready js →
  l !! i = Some u →
  ∃ j, js !! i = Some j ∧
       toOut j = OutJob (js_trim (ui_name u)) (job_minutes j) ∧
       parseTimeToMinutes (ui_durRaw u) = Minutes (job_minutes j) ∧
       (ui_fixedTeam u < 1 → isFixed teamCount j = false) ∧
       (1 ≤ ui_fixedTeam u →
        ∃ t, solveOptimalWithFixed js teamCount quant
               !! Z.to_nat (Z.min (ui_fixedTeam u) (Z.of_nat teamCount) - 1)
             = Some t ∧
             toOut j ∈ jobs t).
Proof.
  intros Hk Hprep Hu.
  apply prepareJobs_spec in Hprep.
  destruct (Forall2_lookup_l _ _ _ _ _ Hprep Hu) as (j & Hj & Hname & _ & Hdur & Hft).
  exists j. split; [done|]. split; [|split; [done|split]].
  - unfold toOut. by rewrite Hname.
  - intros Hlow. destruct (isFixed teamCount j) eqn:Hfix; [|done].
    apply isFixed_range in Hfix. lia.
  - intros Hpin.
    assert (fixedTeam j = Z.min (ui_fixedTeam u) (Z.of_nat teamCount)) as Hft' by lia.
    rewrite <- Hft'. apply solve_pinned_member.
    + by apply list_elem_of_lookup_2 with i.
    + lia.
Qed.

Lemma pinned_row_team_witness :
  ∃ j, [Job "A" 90 2] !! 0%nat = Some j ∧
       toOut j = OutJob (js_trim " A ") (job_minutes j) ∧
       parseTimeToMinutes "1:30" = Minutes (job_minutes j) ∧
       (5 < 1 → isFixed 2 j = false) ∧
       (1 ≤ 5 →
        ∃ t, solveOptimalWithFixed [Job "A" 90 2] 2 15
               !! Z.to_nat (Z.min 5 (Z.of_nat 2) - 1) = Some t ∧
             toOut j ∈ jobs t).
Proof.
  apply (pinned_row_team [UiJob " A " "1:30" 5] 2 15 [Job "A" 90 2] 0
                         (UiJob " A " "1:30" 5)).
  - lia.
  - reflexivity.
  - reflexivity.
Defined.

Lemma prepareJobs_first_bad teamCount l : ∀ idx i u,
  l !! i = Some u →
  (∀ i' u', (i' < i)%nat → l !! i' = Some u' →
     blank (ui_name u') = false ∧
     ∃ m, parseTimeToMinutes (ui_durRaw u') = Minutes m) →
  ∀ msg, toJobMinutes teamCount (idx + i) u = Rejected msg →
  prepareJobs teamCount idx l = Rejected msg.
Proof.
  induction l as [|u0 l IH]; intros idx i u Hu Hbefore msg Hbad; [done|].
  destruct i as [|i]; simpl in *.
  - injection Hu as ->. rewrite Nat.add_0_r in Hbad. by rewrite Hbad.
  - destruct (Hbefore 0%nat u0 ltac:(lia) eq_refl) as (Hname & m & Hm).
    assert (∃ j0, toJobMinutes teamCount idx u0 = Ready j0) as (j0 & ->).
    { unfold toJobMinutes. rewrite Hm.
      destruct (js_trim (ui_name u0)) eqn:Htrim; [|eauto].
      apply js_trim_blank in Htrim. congruence. }
    rewrite (IH (S idx) i u Hu) with (msg := msg); [done| |].
    + intros i' u' Hi' Hu'. apply (Hbefore (S i') u'); [lia|done].
    + by rewrite <- Nat.add_succ_comm in Hbad.
Qed.

(** X17. The first invalid row decides the error of a plan request. If all
    rows before row [i] have a name and a duration in minutes, then a blank
    name in row [i] is reported as "Job i+1: address is missing", whatever
    its duration, and otherwise an invalid duration in row [i] is reported by
    the message of [parseTimeToMinutes], without a job number. *)
Theorem first_invalid_row_reported (teamCount : nat) (l : list uiJob)
    (i : nat) (u : uiJob) :
  l !! i = Some u →
  (∀ i' u', (i' < i)%nat → l !! i' = Some u' →
     blank (ui_name u') = false ∧
     ∃ m, parseTimeToMinutes (ui_durRaw u') = Minutes m) →
  (blank (ui_name u) = true →
   prepareJobs teamCount 0 l
   = Rejected ("Job " +:+ pretty (Z.of_nat i + 1) +:+ ": address is missing")) ∧
  (∀ msg, blank (ui_name u) = false →
   parseTimeToMinutes (ui_durRaw u) = Failure msg →
   prepareJobs teamCount 0 l = Rejected msg).
Proof.
  intros Hu Hbefore. split.
  - intros Hblank. apply (prepareJobs_first_bad teamCount l 0 i u Hu Hbefore).
    unfold toJobMinutes. apply js_trim_blank in Hblank. by rewrite Hblank.
  - intros msg Hname Hfail.
    apply (prepareJobs_first_bad teamCount l 0 i u Hu Hbefore).
    unfold toJobMinutes. rewrite Hfail.
    destruct (js_trim (ui_name u)) eqn:Htrim; [|done].
    apply js_trim_blank in Htrim. congruence.
Qed.

Lemma first_invalid_row_reported_witness :
  prepareJobs 2 0 [UiJob "A" "1:30" 0; UiJob "  " "x" 1]
  = Rejected "Job 2: address is missing".
Proof.
  refine (proj1 (first_invalid_row_reported
                   2 [UiJob "A" "1:30" 0; UiJob "  " "x" 1] 1
                   (UiJob "  " "x" 1) eq_refl _) eq_refl).
  intros i' u' Hi' Hu'. destruct i' as [|i']; [|lia].
  injection Hu' as <-. split; [reflexivity|]. exists 90. reflexivity.
Defined.

(** X18. What a plan request shows. When every row of the form is accepted,
    the snapshot exists, counts every row and has one entry per team; a job
    is listed in it exactly if it is the trimmed name and parsed duration of
    some row and that duration is positive: a row whose duration parses to
    zero or less, such as "0:00", is counted but listed under no team. *)
Theorem plan_lists_positive_rows (l : list uiJob) (teamCount : nat) (quant : Z)
    (js : list job) :
  (1 ≤ teamCount)%nat →
  prepareJobs teamCount 0 l = Ready js →
  ∃ s, buildPlanSnapshot (solveOptimalWithFixed js teamCount quant)
         (Z.of_nat teamCount) (Z.of_nat (length js)) = Some s ∧
       snap_teamCount s = Z.of_nat teamCount ∧
       snap_jobCount s = Z.of_nat (length l) ∧
       length (snap_teams s) = teamCount ∧
       ∀ o, (∃ t, t ∈ snap_teams s ∧ o ∈ snap_jobs t) ↔
            (0 < out_minutes o ∧
             ∃ u, u ∈ l ∧ out_name o = js_trim (ui_name u) ∧
                  parseTimeToMinutes (ui_durRaw u) = Minutes (out_minutes o)).
Proof.
  intros Hk Hprep. apply prepareJobs_spec in Hprep.
  assert (∀ j, j ∈ js → job_name j ≠ "" ∧ js_trim (job_name j) = job_name j)
    as Hvalid.
  { intros j Hj. apply list_elem_of_lookup in Hj as [i Hj].
    destruct (Forall2_lookup_r _ _ _ _ _ Hprep Hj) as (u & _ & Hname & Hne & _).
    split; [done|]. rewrite Hname. apply js_trim_idem. }
  pose proof (snapshot_eq js teamCount quant Hk Hvalid) as Hsnap.
  cbv zeta in Hsnap. eexists. split; [exact Hsnap|].
  cbn [snap_teamCount snap_jobCount snap_teams].
  pose proof (Forall2_length _ _ _ Hprep) as Hlen.
  split; [done|]. split; [by rewrite Hlen|].
  split; [rewrite length_imap; apply assemble_length|].
  pose proof (solve_jobs_perm js teamCount quant Hk) as Hperm.
  intros o. split.
  - intros (t & Ht & Ho).
    apply list_elem_of_lookup in Ht as [i Ht].
    rewrite list_lookup_imap in Ht.
    destruct (solveOptimalWithFixed js teamCount quant !! i) as [t0|] eqn:Ht0;
      [|done].
    injection Ht as <-. simpl in Ho.
    apply list_elem_of_filter in Ho as [Hpos Ho]. split; [done|].
    assert (o ∈ map toOut js) as Hin.
    { apply (proj1 (elem_of_Permutation_proper _ _ _ Hperm)).
      apply list_elem_of_In, in_concat. exists (jobs t0). split.
      - apply in_map, list_elem_of_In. by apply list_elem_of_lookup_2 with i.
      - by apply list_elem_of_In. }
    apply list_elem_of_In, in_map_iff in Hin as (j & <- & Hj).
    apply list_elem_of_In, list_elem_of_lookup in Hj as [n Hj].
    destruct (Forall2_lookup_r _ _ _ _ _ Hprep Hj) as (u & Hu & Hname & _ & Hdur & _).
    exists u. split; [by apply list_elem_of_lookup_2 with n|]. by split.
  - intros (Hpos & u & Hu & Hname & Hdur).
    apply list_elem_of_lookup in Hu as [n Hu].
    destruct (Forall2_lookup_l _ _ _ _ _ Hprep Hu) as (j & Hj & Hname' & _ & Hdur' & _).
    assert (toOut j = o) as Hout.
    { destruct o as [on om]. simpl in *. unfold toOut.
      rewrite Hname', <- Hname. f_equal. congruence. }
    assert (o ∈ concat (map jobs (solveOptimalWithFixed js teamCount quant)))
      as Hin.
    { apply (proj2 (elem_of_Permutation_proper _ _ _ Hperm)).
      rewrite <- Hout.
      apply list_elem_of_In, in_map, list_elem_of_In.
      by apply list_elem_of_lookup_2 with n. }
    apply list_elem_of_In, in_concat in Hin as (js0 & Hjs0 & Ho).
    apply in_map_iff in Hjs0 as (t0 & <- & Ht0).
    apply list_elem_of_In, list_elem_of_lookup in Ht0 as [i Ht0].
    eexists. split.
    + apply list_elem_of_lookup. exists i. rewrite list_lookup_imap, Ht0. done.
    + simpl. apply list_elem_of_filter. split; [done|by apply list_elem_of_In].
Qed.

Lemma plan_lists_positive_rows_witness :
  ∃ s, buildPlanSnapshot (solveOptimalWithFixed [Job "A" 90 0; Job "B" 0 1] 2 15)
         (Z.of_nat 2) (Z.of_nat (length [Job "A" 90 0; Job "B" 0 1])) = Some s ∧
       snap_teamCount s = Z.of_nat 2 ∧
       snap_jobCount s = Z.of_nat (length [UiJob "A" "1:30" 0; UiJob "B" "0:00" 1]) ∧
       length (snap_teams s) = 2%nat ∧
       ∀ o, (∃ t, t ∈ snap_teams s ∧ o ∈ snap_jobs t) ↔
            (0 < out_minutes o ∧
             ∃ u, u ∈ [UiJob "A" "1:30" 0; UiJob "B" "0:00" 1] ∧
                  out_name o = js_trim (ui_name u) ∧
                  parseTimeToMinutes (ui_durRaw u) = Minutes (out_minutes o)).
Proof.
  apply (plan_lists_positive_rows [UiJob "A" "1:30" 0; UiJob "B" "0:00" 1] 2 15
                                  [Job "A" 90 0; Job "B" 0 1]).
  - lia.
  - reflexivity.
Defined.
